(** * Network connections card: the graph-maintenance engine

    A shallow embedding of the [NetworkConnectionsCard] class.  Two versions
    of the class live in the repository:

    - [src/network-connections-card.js], the current card, whose
      [_deltaUpdate] diffs the new snapshot against the previous one
      (module [Delta] below);
    - [src/unnamed/part_001], the earlier card, whose [_deltaUpdate] rebuilds
      the whole link list and reconciles it in [_syncNodesAndLinks], and which
      restores the persisted positions at the first data arrival (module
      [Rebuild] below).

    JavaScript numbers are IEEE-754 binary64 values, modelled by Rocq's
    primitive [float].  [Math.cos], [Math.sin], [Math.random] and the
    viewport size are part of the browser environment of a cycle
    ([Window]).  The renderer and the forces of the d3 simulation are
    outside the model.  What d3 does to the objects of the card is part of
    it: [simulation.nodes] sets the position of a pinned node to its pin and
    gives a position to a node that has none ([simulationNodes]), and a tick
    moves the nodes that are not pinned and resets the others to their pin
    ([moveNodes]).  d3 also replaces the endpoints of a link by the node
    objects of the same id, which is why the card reads every endpoint as
    [l.source.id || l.source]; the model stores that id.

    Node ids are the strings that the card uses as keys of [_nodesMap]: the
    hub id, [port-<n>] and the address strings of the tuples.  An id is
    not taken to name a property of [Object.prototype], so that
    [!this._nodesMap[id]] tests the presence of a node.  For an id other
    than the empty string, [l.source.id || l.source] reads the id, whether
    the endpoint is still the id string or the node object that d3 has put
    in its place; an endpoint whose id is the empty string reads as the id
    only until d3 has resolved it.  The results that depend on the reading
    of endpoints across cycles are stated for hub ids and tuples that name
    their endpoints ([namedConn]); [setConfig] never sets an empty hub id.
    A port is an integer port number, written in decimal by a template
    literal. *)

From Stdlib Require Uint63.
From Stdlib Require Import Ascii PrimFloat.
From stdpp Require Import gmap strings list fin_maps pretty.

(** ** JavaScript values *)

Module JS.

(** The value of a coordinate field ([x], [y], [fx], [fy]) of a node
    object: absent ([undefined]), [null], or a number. *)
Inductive coord : Type :=
| Undefined
| Null
| Num (v : float).

(** [c != null]: d3's test for a pinned coordinate. *)
Definition notNull (c : coord) : bool :=
  match c with
  | Num _ => true
  | _ => false
  end.

(** [ToNumber], as applied by the binary [+] to a coordinate. *)
Definition toNumber (c : coord) : float :=
  match c with
  | Undefined => nan
  | Null => 0%float
  | Num v => v
  end.

(** The value of a field of a parsed JSON position record. *)
Inductive json : Type :=
| JMissing
| JNull
| JNum (v : float)
| JStr (s : string)
| JBool (b : bool).

Definition Math_PI : float := 0x1.921fb54442d18p+1%float.

(** [Math.min] on two numbers: [NaN] if either is, and [-0] below [+0]. *)
Definition Math_min (a b : float) : float :=
  if (is_nan a || is_nan b)%bool then nan
  else if PrimFloat.ltb a b then a
  else if PrimFloat.ltb b a then b
  else match classify a with
       | FloatClass.NZero => a
       | _ => b
       end.

(** An array index or a small count as a number. *)
Definition num (n : nat) : float := of_uint63 (Uint63.of_Z (Z.of_nat n)).

(** [isNaN(c)] on a coordinate: [undefined] converts to [NaN] and [null]
    to [0]. *)
Definition isNaN (c : coord) : bool :=
  match c with
  | Undefined => true
  | Null => false
  | Num v => is_nan v
  end.

End JS.

(** The browser environment of one update cycle. [Math_random k] is the
    result of the [k]-th call of [Math.random()] in the cycle.  [d3_place id]
    is the position that d3 gives in the cycle to the node [id] when its [x]
    or [y] is not a number: a point of d3's phyllotaxis arrangement, which
    depends on the index of the node in [Object.values(this._nodesMap)]. *)
Record Window : Type := {
  innerWidth : float;
  innerHeight : float;
  Math_cos : float → float;
  Math_sin : float → float;
  Math_random : nat → float;
  d3_place : string → float * float;
}.

(** ** Data model *)

(** A connection tuple of the input snapshot. *)
Module Conn.
Record t : Type := mk { source : string; target : string; port : N }.

Global Instance eq_dec : EqDecision t.
Proof. solve_decision. Defined.
End Conn.

(** An edge of the graph; each endpoint is the id read by
    [l.source.id || l.source]. *)
Module Link.
Record t : Type := mk { source : string; target : string }.

Global Instance eq_dec : EqDecision t.
Proof. solve_decision. Defined.
End Link.

Module Node.
Inductive kind : Type := hub | port | ip.

Global Instance kind_eq_dec : EqDecision kind.
Proof. solve_decision. Defined.

Record t : Type := mk {
  id : string;
  type : kind;
  label : option string;
  x : JS.coord;
  y : JS.coord;
  fx : JS.coord;
  fy : JS.coord;
}.

Definition set_xy (vx vy : JS.coord) (n : t) : t :=
  mk (id n) (type n) (label n) vx vy (fx n) (fy n).

Definition set_x (v : JS.coord) (n : t) : t :=
  mk (id n) (type n) (label n) v (y n) (fx n) (fy n).

Definition set_y (v : JS.coord) (n : t) : t :=
  mk (id n) (type n) (label n) (x n) v (fx n) (fy n).

Definition set_fx (v : JS.coord) (n : t) : t :=
  mk (id n) (type n) (label n) (x n) (y n) v (fy n).

Definition set_fy (v : JS.coord) (n : t) : t :=
  mk (id n) (type n) (label n) (x n) (y n) (fx n) v.
End Node.

(** A persisted position record: the parsed value of the [localStorage]
    entry, a map from node id to the four stored fields. *)
Module Pos.
Record t : Type := mk { x : JS.json; y : JS.json; fx : JS.json; fy : JS.json }.
End Pos.

(** The fields of the card instance that the engine reads and writes, and
    the value held by [localStorage] under the card's key ([None] when the
    key is absent or does not parse). *)
Record card : Type := mkCard {
  _nodesMap : gmap string Node.t;
  _links : list Link.t;
  _prevConnections : list Conn.t;
  _positionsRestored : bool;
  localStorage : option (gmap string Pos.t);
}.

(** The card as the constructor leaves it. *)
Definition constructor (stored : option (gmap string Pos.t)) : card :=
  mkCard ∅ [] [] false stored.

(** ** Parts shared by both versions of the card *)

Section Shared.
Variable hubId : string.

(** [connections.filter(({source, target}) =>
      source !== "127.0.0.1" && target !== "127.0.0.1")] *)
Definition notLoopback (c : Conn.t) : Prop :=
  Conn.source c ≠ "127.0.0.1" ∧ Conn.target c ≠ "127.0.0.1".

Global Instance notLoopback_dec c : Decision (notLoopback c).
Proof. unfold notLoopback. apply _. Defined.

Definition dropLoopback (newConnections : list Conn.t) : list Conn.t :=
  filter notLoopback newConnections.

(** [`port-${port}`] *)
Definition portNodeId (port : N) : string := "port-" +:+ pretty port.

(** [(l.source.id || l.source) + "->" + (l.target.id || l.target)], for
    endpoints whose ids are not the empty string (such an id is what
    [x.id || x] reads from the id string and from the node object alike). *)
Definition linkKey (l : Link.t) : string :=
  Link.source l +:+ "->" +:+ Link.target l.

(** [Array.from(new Set(ports))]: the distinct values in order of first
    appearance. *)
Fixpoint distinct (seen : list N) (ports : list N) : list N :=
  match ports with
  | [] => []
  | p :: rest =>
      if decide (p ∈ seen) then distinct seen rest
      else p :: distinct (p :: seen) rest
  end.

(** [Array.from(new Set(connections.map(c => c.port)))] *)
Definition uniquePorts (connections : list Conn.t) : list N :=
  distinct [] (Conn.port <$> connections).

(** [window.innerWidth / 2] and [window.innerHeight / 2]. *)
Definition centerX (w : Window) : float := (innerWidth w / 2)%float.
Definition centerY (w : Window) : float := (innerHeight w / 2)%float.

(** [{ id: this.hubId, type: "hub", fx: centerX, fy: centerY }] *)
Definition hubNode (w : Window) : Node.t :=
  Node.mk hubId Node.hub None JS.Undefined JS.Undefined
          (JS.Num (centerX w)) (JS.Num (centerY w)).

(** [if (!this._nodesMap[this.hubId]) this._nodesMap[this.hubId] = ...] *)
Definition ensureHub (w : Window) (nodes : gmap string Node.t)
  : gmap string Node.t :=
  match nodes !! hubId with
  | Some _ => nodes
  | None => <[hubId := hubNode w]> nodes
  end.

(** The constants of the star layout. *)
Definition portsPerStar : nat := 8.
Definition ringSpacing : float := 150%float.
Definition starOuterRatio : float := 1%float.
Definition starInnerRatio : float := 0.5%float.

(** [Math.min(width, height) * 0.3]; the literal is the binary64 value
    that [0.3] denotes. *)
Definition baseRadius (w : Window) : float :=
  (JS.Math_min (innerWidth w) (innerHeight w) * 0x1.3333333333333p-2)%float.

(** [Math.floor(i / portsPerStar)] and [i % portsPerStar], on an array
    index. *)
Definition ringIndex (i : nat) : nat := i / portsPerStar.
Definition starIndex (i : nat) : nat := i mod portsPerStar.

(** [baseRadius + ringIndex * ringSpacing] *)
Definition ringBase (w : Window) (i : nat) : float :=
  (baseRadius w + JS.num (ringIndex i) * ringSpacing)%float.

(** [starIndex % 2 === 0] *)
Definition isOuter (i : nat) : bool := Nat.eqb (starIndex i mod 2) 0.

(** [isOuter ? ringBase * starOuterRatio : ringBase * starInnerRatio] *)
Definition starRadius (w : Window) (i : nat) : float :=
  if isOuter i then (ringBase w i * starOuterRatio)%float
  else (ringBase w i * starInnerRatio)%float.

(** [(2 * Math.PI / portsPerStar) * starIndex] *)
Definition angle (i : nat) : float :=
  ((2 * JS.Math_PI / JS.num portsPerStar) * JS.num (starIndex i))%float.

(** [centerX + Math.cos(angle) * starRadius] and
    [centerY + Math.sin(angle) * starRadius]. *)
Definition portX (w : Window) (i : nat) : float :=
  (centerX w + Math_cos w (angle i) * starRadius w i)%float.
Definition portY (w : Window) (i : nat) : float :=
  (centerY w + Math_sin w (angle i) * starRadius w i)%float.

(** [{ id: portNodeId, type: "port", label: `Port ${port}`, fx: portX,
      fy: portY }] *)
Definition portNode (w : Window) (i : nat) (port : N) : Node.t :=
  Node.mk (portNodeId port) Node.port (Some ("Port " +:+ pretty port))
          JS.Undefined JS.Undefined
          (JS.Num (portX w i)) (JS.Num (portY w i)).

(** [uniquePorts.forEach((port, i) => { if (!this._nodesMap[portNodeId]) ... })],
    from index [i] on. *)
Fixpoint placePorts (w : Window) (i : nat) (ports : list N)
    (nodes : gmap string Node.t) : gmap string Node.t :=
  match ports with
  | [] => nodes
  | port :: rest =>
      placePorts w (S i) rest
        (match nodes !! portNodeId port with
         | Some _ => nodes
         | None => <[portNodeId port := portNode w i port]> nodes
         end)
  end.

(** [_placeIpNearPort(ipId, portNodeId)]; [k] counts the calls of
    [Math.random()] made so far in the cycle. *)
Definition _placeIpNearPort (w : Window) (ipId portId : string)
    (st : gmap string Node.t * nat) : gmap string Node.t * nat :=
  let '(nodes, k) := st in
  match nodes !! portId with
  | None => (nodes, k)
  | Some pn =>
      let a := (Math_random w k * 2 * JS.Math_PI)%float in
      let radius := 50%float in
      let ipX := (JS.toNumber (Node.fx pn) + Math_cos w a * radius)%float in
      let ipY := (JS.toNumber (Node.fy pn) + Math_sin w a * radius)%float in
      (alter (Node.set_xy (JS.Num ipX) (JS.Num ipY)) ipId nodes, S k)
  end.

(** [{ id: ipId, type: "ip" }] *)
Definition ipNode (ipId : string) : Node.t :=
  Node.mk ipId Node.ip None JS.Undefined JS.Undefined JS.Undefined JS.Undefined.

(** [if (!this._nodesMap[ipId]) { this._nodesMap[ipId] = {id, type: "ip"};
      this._placeIpNearPort(ipId, portNodeId); }] *)
Definition ensureIp (w : Window) (ipId portId : string)
    (st : gmap string Node.t * nat) : gmap string Node.t * nat :=
  match st.1 !! ipId with
  | Some _ => st
  | None => _placeIpNearPort w ipId portId (<[ipId := ipNode ipId]> st.1, st.2)
  end.

(** [this._nodesMap[id].type === "ip"] *)
Definition isIp (o : option Node.t) : bool :=
  match o with
  | Some n => bool_decide (Node.type n = Node.ip)
  | None => false
  end.

(** The body of the loop over connections that creates the endpoint
    nodes and pushes the two IP links of a tuple. *)
Definition connect (w : Window)
    (st : gmap string Node.t * list Link.t * nat) (c : Conn.t)
  : gmap string Node.t * list Link.t * nat :=
  let '(nodes, links, k) := st in
  let pid := portNodeId (Conn.port c) in
  let '(nodes, k) := ensureIp w (Conn.source c) pid (nodes, k) in
  let '(nodes, k) := ensureIp w (Conn.target c) pid (nodes, k) in
  let links :=
    if isIp (nodes !! Conn.source c)
    then links ++ [Link.mk (Conn.source c) pid] else links in
  let links :=
    if isIp (nodes !! Conn.target c)
    then links ++ [Link.mk pid (Conn.target c)] else links in
  (nodes, links, k).

(** The ids used by the links, plus the hub id:
    [usedNodeIds.add(l.source.id || l.source)], [usedNodeIds.add(l.target.id
    || l.target)] for every link and [usedNodeIds.add(this.hubId)], for
    endpoints whose ids are not the empty string. *)
Definition usedNodeIds (links : list Link.t) : gset string :=
  list_to_set (Link.source <$> links) ∪ list_to_set (Link.target <$> links)
    ∪ {[hubId]}.

(** [Object.keys(this._nodesMap).forEach(nid =>
      { if (!usedNodeIds.has(nid)) delete this._nodesMap[nid]; })] *)
Definition prune (links : list Link.t) (nodes : gmap string Node.t)
  : gmap string Node.t :=
  filter (λ kv, kv.1 ∈ usedNodeIds links) nodes.

End Shared.

(** ** Drag callbacks and the position store (the same in both versions) *)

(** [_dragStarted(event, d)]: [d.fx = d.x; d.fy = d.y]. *)
Definition _dragStarted (d : Node.t) : Node.t :=
  Node.set_fy (Node.y d) (Node.set_fx (Node.x d) d).

(** [_dragged(event, d)]: [d.fx = event.x; d.fy = event.y]. *)
Definition _dragged (ex ey : float) (d : Node.t) : Node.t :=
  Node.set_fy (JS.Num ey) (Node.set_fx (JS.Num ex) d).

(** The node part of [_dragEnded(event, d)]:
    [if (d.type === "ip") { d.fx = null; d.fy = null; }]. *)
Definition _dragEnded (d : Node.t) : Node.t :=
  if decide (Node.type d = Node.ip)
  then Node.set_fy JS.Null (Node.set_fx JS.Null d)
  else d.

(** What [JSON.parse(JSON.stringify(...))] makes of one coordinate field:
    an [undefined] property is dropped, [NaN] and the infinities are written
    as [null], and a finite number is written in the shortest decimal form
    that reads back as the same number ([-0] is written as [0]). *)
Definition jsonField (c : JS.coord) : JS.json :=
  match c with
  | JS.Undefined => JS.JMissing
  | JS.Null => JS.JNull
  | JS.Num v =>
      if (PrimFloat.is_nan v || PrimFloat.is_infinity v)%bool then JS.JNull
      else if PrimFloat.eqb v 0 then JS.JNum 0 else JS.JNum v
  end.

(** [positions[id] = { x: node.x, y: node.y, fx: node.fx, fy: node.fy }],
    as it reads back from the store. *)
Definition positionOf (n : Node.t) : Pos.t :=
  Pos.mk (jsonField (Node.x n)) (jsonField (Node.y n))
         (jsonField (Node.fx n)) (jsonField (Node.fy n)).

(** [_saveNodePositions()]; [writable] tells whether [localStorage.setItem]
    succeeds (a failure is caught and the store keeps its value). *)
Definition _saveNodePositions (writable : bool) (c : card) : card :=
  if writable
  then mkCard (_nodesMap c) (_links c) (_prevConnections c)
              (_positionsRestored c) (Some (positionOf <$> _nodesMap c))
  else c.

(** [if (typeof v === "number") node.field = v]. *)
Definition ifNumber (v : JS.json) (set : JS.coord → Node.t → Node.t)
    (n : Node.t) : Node.t :=
  match v with
  | JS.JNum f => set (JS.Num f) n
  | _ => n
  end.

Definition applyPosition (pos : Pos.t) (n : Node.t) : Node.t :=
  ifNumber (Pos.fy pos) Node.set_fy
    (ifNumber (Pos.fx pos) Node.set_fx
      (ifNumber (Pos.y pos) Node.set_y
        (ifNumber (Pos.x pos) Node.set_x n))).

(** The loop of [_restoreNodePositions] over [Object.entries(saved)]: every
    node whose id has a stored record takes the stored numbers. *)
Definition restoreInto (saved : gmap string Pos.t)
    (nodes : gmap string Node.t) : gmap string Node.t :=
  map_imap (λ id n, Some (match saved !! id with
                          | Some pos => applyPosition pos n
                          | None => n
                          end)) nodes.

(** [_restoreNodePositions()]: nothing happens when the store has no
    usable record. *)
Definition _restoreNodePositions (c : card) : card :=
  match localStorage c with
  | None => c
  | Some saved =>
      mkCard (restoreInto saved (_nodesMap c)) (_links c) (_prevConnections c)
             (_positionsRestored c) (localStorage c)
  end.

(** ** The current card: [src/network-connections-card.js] *)

Module Delta.
Section Delta.
Variable hubId : string.

(** [`${source}_${target}_${port}`] *)
Definition connectionKey (c : Conn.t) : string :=
  Conn.source c +:+ "_" +:+ Conn.target c +:+ "_" +:+ pretty (Conn.port c).

(** [connections.filter(conn => !oldKeys.has(connectionKey(conn)))] *)
Definition addedConnections (prev connections : list Conn.t) : list Conn.t :=
  filter (λ c, connectionKey c ∉ connectionKey <$> prev) connections.

(** [this._prevConnections.filter(conn => !newKeys.has(connectionKey(conn)))] *)
Definition removedConnections (prev connections : list Conn.t) : list Conn.t :=
  filter (λ c, connectionKey c ∉ connectionKey <$> connections) prev.

(** One round of the loop over the removed connections. *)
Definition removeLinks (links : list Link.t) (c : Conn.t) : list Link.t :=
  let pid := portNodeId (Conn.port c) in
  let removeKey1 := Conn.source c +:+ "->" +:+ pid in
  let removeKey2 := pid +:+ "->" +:+ Conn.target c in
  filter (λ l, linkKey l ≠ removeKey1 ∧ linkKey l ≠ removeKey2) links.

(** One round of the loop that connects each port to the hub. *)
Definition ensureHubLink (links : list Link.t) (port : N) : list Link.t :=
  let hubPortLink := Link.mk hubId (portNodeId port) in
  let desired := hubId +:+ "->" +:+ portNodeId port in
  if decide (desired ∈ linkKey <$> links) then links
  else links ++ [hubPortLink].

(** The graph part of [_deltaUpdate(newConnections)], up to the pruning of
    the node map: the card as it is handed to the simulation.  What the
    simulation then does to the node objects, still inside the call, is
    [simulationNodes] below; the [Update] event of [step] is the whole
    call. *)
Definition _deltaUpdate (w : Window) (newConnections : list Conn.t)
    (c : card) : card :=
  let connections := dropLoopback newConnections in
  let added := addedConnections (_prevConnections c) connections in
  let removed := removedConnections (_prevConnections c) connections in
  let ports := uniquePorts connections in
  let nodes := placePorts w 0 ports (ensureHub hubId w (_nodesMap c)) in
  let r := foldl (connect w) (nodes, _links c, 0) added in
  let links := foldl removeLinks r.1.2 removed in
  let links := foldl ensureHubLink links ports in
  mkCard (prune hubId links r.1.1) links connections
         (_positionsRestored c) (localStorage c).

(** A sequence of update cycles, each with its viewport and snapshot. *)
Definition updates (cycles : list (Window * list Conn.t)) (c : card) : card :=
  foldl (λ c cyc, _deltaUpdate cyc.1 cyc.2 c) c cycles.

End Delta.
End Delta.

(** ** The earlier card: [src/unnamed/part_001] *)

Module Rebuild.
Section Rebuild.
Variable hubId : string.

(** [_syncNodesAndLinks(newLinks)] *)
Definition _syncNodesAndLinks (newLinks : list Link.t) (c : card) : card :=
  let kept := filter (λ oldL, linkKey oldL ∈ linkKey <$> newLinks) (_links c) in
  let links :=
    kept ++ filter (λ nl, linkKey nl ∉ linkKey <$> kept) newLinks in
  mkCard (prune hubId links (_nodesMap c)) links (_prevConnections c)
         (_positionsRestored c) (localStorage c).

(** [if (!this._positionsRestored) { this._restoreNodePositions();
      this._positionsRestored = true; }] *)
Definition restoreOnce (c : card) : card :=
  if _positionsRestored c then c
  else
    let c' := _restoreNodePositions c in
    mkCard (_nodesMap c') (_links c') (_prevConnections c') true
           (localStorage c').

(** The graph part of [_deltaUpdate(connections)], up to the restoring of
    the positions; the simulation is then created or handed the result. *)
Definition _deltaUpdate (w : Window) (newConnections : list Conn.t)
    (c : card) : card :=
  let connections := dropLoopback newConnections in
  let ports := uniquePorts connections in
  let nodes := placePorts w 0 ports (ensureHub hubId w (_nodesMap c)) in
  let r := foldl (connect w) (nodes, [], 0) connections in
  let newLinks := r.1.2 ++ (Link.mk hubId ∘ portNodeId <$> ports) in
  restoreOnce
    (_syncNodesAndLinks newLinks
       (mkCard r.1.1 (_links c) (_prevConnections c)
               (_positionsRestored c) (localStorage c))).

Definition updates (cycles : list (Window * list Conn.t)) (c : card) : card :=
  foldl (λ c cyc, _deltaUpdate cyc.1 cyc.2 c) c cycles.

End Rebuild.
End Rebuild.

(** ** Events *)

(** The events that reach the card.  A drag callback receives the node
    object bound to the dragged circle, which is the object stored in the
    node map under its id.  A tick of the simulation moves nodes (it writes
    [x] and [y], never [fx] or [fy]) and then runs [_onTick], which saves
    the positions when the simulation has settled; [moved] holds the
    positions that the forces give to the nodes they move. *)
Inductive event : Type :=
| Update (w : Window) (snapshot : list Conn.t)
| Tick (moved : gmap string (float * float)) (settled writable : bool)
| DragStart (id : string)
| DragMove (id : string) (ex ey : float)
| DragEnd (id : string) (writable : bool).

(** The card with its node map changed. *)
Definition withNodes (f : gmap string Node.t → gmap string Node.t)
    (c : card) : card :=
  mkCard (f (_nodesMap c)) (_links c) (_prevConnections c)
         (_positionsRestored c) (localStorage c).

(** What [d3.forceSimulation(nodes)] and [simulation.nodes(nodes)] do to a
    node object (d3's [initializeNodes]):
    [if (node.fx != null) node.x = node.fx;
     if (node.fy != null) node.y = node.fy;
     if (isNaN(node.x) || isNaN(node.y)) { node.x = ...; node.y = ...; }],
    the last with the point [place] of the phyllotaxis arrangement. *)
Definition initializeNode (place : float * float) (n : Node.t) : Node.t :=
  let n1 := if JS.notNull (Node.fx n) then Node.set_x (Node.fx n) n else n in
  let n2 := if JS.notNull (Node.fy n1) then Node.set_y (Node.fy n1) n1 else n1 in
  if (JS.isNaN (Node.x n2) || JS.isNaN (Node.y n2))%bool
  then Node.set_xy (JS.Num place.1) (JS.Num place.2) n2
  else n2.

(** The end of [_deltaUpdate]: the simulation is created on, or handed,
    [Object.values(this._nodesMap)], and initializes every node. *)
Definition simulationNodes (w : Window) (nodes : gmap string Node.t)
  : gmap string Node.t :=
  map_imap (λ id n, Some (initializeNode (d3_place w id) n)) nodes.

(** What a tick of the simulation does to a node object:
    [if (node.fx == null) node.x += node.vx *= velocityDecay;
     else node.x = node.fx, node.vx = 0;] and the same for [y].  [moved] is
    the position that the forces give to the node, if they move it. *)
Definition tickNode (moved : option (float * float)) (n : Node.t) : Node.t :=
  Node.set_xy
    (if JS.notNull (Node.fx n) then Node.fx n
     else match moved with Some (vx, _) => JS.Num vx | None => Node.x n end)
    (if JS.notNull (Node.fy n) then Node.fy n
     else match moved with Some (_, vy) => JS.Num vy | None => Node.y n end)
    n.

(** A simulation step on every node. *)
Definition moveNodes (moved : gmap string (float * float))
    (nodes : gmap string Node.t) : gmap string Node.t :=
  map_imap (λ id n, Some (tickNode (moved !! id) n)) nodes.

(** The effect of one event on the card. *)
Definition step (hubId : string) (c : card) (e : event) : card :=
  match e with
  | Update w snapshot =>
      withNodes (simulationNodes w) (Delta._deltaUpdate hubId w snapshot c)
  | Tick moved settled writable =>
      let c' := withNodes (moveNodes moved) c in
      if settled then _saveNodePositions writable c' else c'
  | DragStart id => withNodes (alter _dragStarted id) c
  | DragMove id ex ey => withNodes (alter (_dragged ex ey) id) c
  | DragEnd id writable =>
      _saveNodePositions writable (withNodes (alter _dragEnded id) c)
  end.

Definition run (hubId : string) (events : list event) (c : card) : card :=
  foldl (step hubId) c events.

(** ** Sample inputs *)

(** A truncated Taylor series, standing for [Math.cos] and [Math.sin] when
    the model is run on a concrete input. *)
Fixpoint taylor (n k : nat) (x2 : float) : float :=
  match n with
  | 0 => 1%float
  | S n' =>
      (1 - x2 / (JS.num (k + 1) * JS.num (k + 2)) * taylor n' (k + 2) x2)%float
  end.

Definition sampleCos (a : float) : float := taylor 16 0 (a * a)%float.
Definition sampleSin (a : float) : float := (a * taylor 16 1 (a * a))%float.

(** A browser window of the given size, with sample values for the cosine,
    the sine, the random numbers and the points that d3 places nodes at. *)
Definition viewport (width height : float) : Window :=
  {| innerWidth := width; innerHeight := height;
     Math_cos := sampleCos; Math_sin := sampleSin;
     Math_random := λ k, (JS.num k / 8)%float;
     d3_place := λ _, (7%float, 0%float) |}.

(** The snapshot of scenario A. *)
Definition scenarioA : list Conn.t := [Conn.mk "10.0.0.2" "8.8.8.8" 443].

(** [config.hubId || "192.168.2.1"] without a configured hub id. *)
Definition defaultHub : string := "192.168.2.1".

(** Two tuples with the same source and port. *)
Definition twoTargets : list Conn.t :=
  [Conn.mk "10.0.0.2" "8.8.8.8" 443; Conn.mk "10.0.0.2" "1.1.1.1" 443].

(** A tuple with port 80. *)
Definition portEighty : Conn.t := Conn.mk "10.0.0.2" "1.1.1.1" 80.

(** A released IP node: dragged to (100, 200), then let go. *)
Definition releasedIp : Node.t :=
  Node.mk "10.0.0.2" Node.ip None (JS.Num 100) (JS.Num 200) JS.Null JS.Null.

(** A stored record that holds a pin (120, 80) for the default hub. *)
Definition storedHub : gmap string Pos.t :=
  {[ defaultHub := Pos.mk (JS.JNum 120) (JS.JNum 80) (JS.JNum 120) (JS.JNum 80) ]}.

(** ** Vocabulary of the properties *)

(** An IP node as the added-connections loop creates it: not pinned. *)
Definition freshIp (n : Node.t) : Prop :=
  Node.type n = Node.ip ∧ Node.fx n = JS.Undefined ∧ Node.fy n = JS.Undefined.

(** [l] is one of the two IP links of the tuple [c], pushed because the
    node stored under the IP endpoint has kind [ip]. *)
Definition ipLinkOf (nodes : gmap string Node.t) (c : Conn.t) (l : Link.t) : Prop :=
  (l = Link.mk (Conn.source c) (portNodeId (Conn.port c))
   ∧ isIp (nodes !! Conn.source c) = true)
  ∨ (l = Link.mk (portNodeId (Conn.port c)) (Conn.target c)
     ∧ isIp (nodes !! Conn.target c) = true).

(** The key that the hub loop looks for:
    [this.hubId + "->" + `port-${port}`]. *)
Definition hubKey (hubId : string) (p : N) : string := hubId +:+ "->" +:+ portNodeId p.

(** The node map that a cycle hands to the pruning step. *)
Definition built (hubId : string) (w : Window) (connections : list Conn.t) (c : card)
  : gmap string Node.t * list Link.t * nat :=
  foldl (connect w)
    (placePorts w 0 (uniquePorts connections)
       (ensureHub hubId w (_nodesMap c)), _links c, 0)
    (Delta.addedConnections (_prevConnections c) connections).

(** No node other than the one stored under the hub id has kind [hub]. *)
Definition hubOnly (hubId : string) (c : card) : Prop :=
  ∀ k n, _nodesMap c !! k = Some n → Node.type n = Node.hub → k = hubId.

(** Whether the node [id] is being dragged after the events: its last drag
    event, if any, is not a drag end. *)
Definition dragging (id : string) (events : list event) : bool :=
  foldl (λ b e, match e with
                | DragStart i | DragMove i _ _ => if decide (i = id) then true else b
                | DragEnd i _ => if decide (i = id) then false else b
                | _ => b
                end) false events.

(** Every pinned IP node is being dragged. *)
Definition pinnedIpDragged (events : list event) (c : card) : Prop :=
  ∀ k n, _nodesMap c !! k = Some n → Node.type n = Node.ip →
         JS.notNull (Node.fx n) = true ∨ JS.notNull (Node.fy n) = true →
         dragging k events = true.

(** What a stored field makes of a live coordinate. *)
Definition restoredField (stored : JS.json) (live : JS.coord) : JS.coord :=
  match stored with
  | JS.JNum f => JS.Num f
  | _ => live
  end.

(** A number that [JSON] writes as a number. *)
Definition isFinite (v : float) : bool :=
  negb (PrimFloat.is_nan v || PrimFloat.is_infinity v).

(** The coordinate [restored] stands for the saved coordinate [saved] after
    a save and a restore into a node whose coordinate was [live]: a finite
    number comes back, a zero of either sign as the zero [0]; anything else
    leaves the live coordinate. *)
Definition roundTrip (saved live restored : JS.coord) : Prop :=
  match saved with
  | JS.Num v =>
      if isFinite v
      then if PrimFloat.eqb v 0 then restored = JS.Num 0 else restored = JS.Num v
      else restored = live
  | _ => restored = live
  end.

(** A tuple that names both endpoints: neither id is the empty string. *)
Definition namedConn (c : Conn.t) : Prop :=
  Conn.source c ≠ "" ∧ Conn.target c ≠ "".

Global Instance namedConn_dec c : Decision (namedConn c).
Proof. unfold namedConn. apply _. Defined.

(** A node pinned at numbers, neither of them [NaN]. *)
Definition pinnedAt (n : Node.t) : Prop :=
  ∃ vx vy, Node.fx n = JS.Num vx ∧ Node.fy n = JS.Num vy
           ∧ is_nan vx = false ∧ is_nan vy = false.

(** A node whose position is its pin. *)
Definition atPin (n : Node.t) : Prop :=
  Node.x n = Node.fx n ∧ Node.y n = Node.fy n.

(** Whether the events hold a drag move of the node [id]. *)
Definition movesNode (id : string) (events : list event) : Prop :=
  ∃ ex ey, DragMove id ex ey ∈ events.

(** Two cards with the same graph, whatever their stores hold. *)
Definition sameGraph (c c' : card) : Prop :=
  _nodesMap c = _nodesMap c' ∧ _links c = _links c'
  ∧ _prevConnections c = _prevConnections c'.

(** The characters of an IPv4 or IPv6 literal. *)
Definition ipChar (ch : Ascii.ascii) : bool :=
  bool_decide (ch ∈ String.list_ascii_of_string "0123456789.:abcdefABCDEF").

(** All characters of [s] satisfy [P]. *)
Fixpoint allChars (P : Ascii.ascii → bool) (s : string) : bool :=
  match s with
  | EmptyString => true
  | String ch rest => P ch && allChars P rest
  end.

(** An address: a string of such characters.  In particular it holds no
    ['-'], so it is not of the form [port-<n>]. *)
Definition ipString (s : string) : Prop := allChars ipChar s = true.

Global Instance ipString_dec s : Decision (ipString s).
Proof. unfold ipString. apply _. Defined.

(** A tuple whose source and target are addresses. *)
Definition wfConn (c : Conn.t) : Prop :=
  ipString (Conn.source c) ∧ ipString (Conn.target c).

Global Instance wfConn_dec c : Decision (wfConn c).
Proof. unfold wfConn. apply _. Defined.

(** A link into a port node whose port satisfies [P], from an address (an
    IP or the hub), or a link out of a port node. *)
Definition linkShape (P : N → Prop) (l : Link.t) : Prop :=
  (∃ q, P q ∧ Link.target l = portNodeId q ∧ ipString (Link.source l))
  ∨ (∃ q, Link.source l = portNodeId q).

(** The card after the first snapshot. *)
Definition first (hubId : string) (w1 : Window)
    (stored : option (gmap string Pos.t)) (A B : list Conn.t) : card :=
  Delta._deltaUpdate hubId w1 (A ++ B) (constructor stored).

(** The card after the second snapshot. *)
Definition second (hubId : string) (w1 w2 : Window)
    (stored : option (gmap string Pos.t)) (A B : list Conn.t) (t : Conn.t)
  : card :=
  Delta._deltaUpdate hubId w2 (A ++ t :: B) (first hubId w1 stored A B).

(** ** Configuration and data arrival (the same in both versions) *)

(** The configuration object handed to [setConfig]: the two properties the
    card reads, each absent or a string. *)
Module Config.
Record t : Type := mk { entity : option string; hubId : option string }.
End Config.

(** Truthiness of an optional string property: absent and the empty string
    are falsy. *)
Definition truthy (o : option string) : bool :=
  match o with
  | Some s => negb (String.eqb s "")
  | None => false
  end.

(** The custom element around the graph: [this.content] (set by [_init]
    once d3 is loaded), [this.config] with [this.hubId] (assigned together
    by [setConfig]), [this.lastUpdate] (milliseconds of [Date.now()]) and
    the graph fields. *)
Module Element.
Record t : Type := mk {
  content : bool;
  settings : option (Config.t * string);
  lastUpdate : Z;
  graph : card;
}.
End Element.

(** The constructor, at time [now]: [_attachD3Script] runs [_init] at once
    when [window.d3] is there, and when the script has loaded otherwise. *)
Definition construct (now : Z) (d3 : bool)
    (stored : option (gmap string Pos.t)) : Element.t :=
  Element.mk d3 None now (constructor stored).

(** [script.onload = () => this._init()] *)
Definition _init (e : Element.t) : Element.t :=
  Element.mk true (Element.settings e) (Element.lastUpdate e) (Element.graph e).

(** [setConfig(config)]; the right summand is the message of the error
    thrown. *)
Definition setConfig (config : Config.t) (e : Element.t) : Element.t + string :=
  if truthy (Config.entity config)
  then inl (Element.mk (Element.content e)
              (Some (config,
                     if truthy (Config.hubId config)
                     then default "192.168.2.1" (Config.hubId config)
                     else "192.168.2.1"))
              (Element.lastUpdate e) (Element.graph e))
  else inr "You need to define an entity".

(** [set hass(hass)], at time [now] in the window [w]; [states] maps an
    entity id to [state.attributes.connections], when the state has it.
    [update] is the [_deltaUpdate] of the card. *)
Definition hass
    (update : string → Window → list Conn.t → card → card)
    (now : Z) (w : Window) (states : gmap string (option (list Conn.t)))
    (e : Element.t) : Element.t :=
  if negb (Element.content e) then e
  else
    match Element.settings e with
    | None => e
    | Some (config, hub) =>
        if negb (truthy (Config.entity config)) then e
        else
          match states !! default "" (Config.entity config) with
          | Some (Some connections) =>
              if (now - Element.lastUpdate e <? 5000)%Z then e
              else Element.mk (Element.content e) (Element.settings e) now
                     (update hub w connections (Element.graph e))
          | _ => e
          end
    end.

(** A data arrival: time, window and states. *)
Definition arrival : Type := Z * Window * gmap string (option (list Conn.t)).

Definition arrivals
    (update : string → Window → list Conn.t → card → card)
    (l : list arrival) (e : Element.t) : Element.t :=
  foldl (λ e a, hass update a.1.1 a.1.2 a.2 e) e l.

(** [`networkPositions_${this.config.entity}`] *)
Definition storageKey (entity : string) : string :=
  "networkPositions_" +:+ entity.

(** ** Rendering attributes of links and labels (the same in both versions) *)

(** [_getNodeType(ref)]: the kind of the node that an endpoint refers to,
    the node object itself or the node stored under the id. *)
Definition _getNodeType (nodes : gmap string Node.t) (ref : string)
  : option Node.kind :=
  Node.type <$> nodes !! ref.

(** [_isInbound(d)]: IP to port. *)
Definition _isInbound (nodes : gmap string Node.t) (d : Link.t) : bool :=
  bool_decide (_getNodeType nodes (Link.source d) = Some Node.ip)
  && bool_decide (_getNodeType nodes (Link.target d) = Some Node.port).

(** [_isOutbound(d)]: port to IP. *)
Definition _isOutbound (nodes : gmap string Node.t) (d : Link.t) : bool :=
  bool_decide (_getNodeType nodes (Link.source d) = Some Node.port)
  && bool_decide (_getNodeType nodes (Link.target d) = Some Node.ip).

(** The [stroke] attribute of a link in [_renderD3]. *)
Definition stroke (nodes : gmap string Node.t) (d : Link.t) : string :=
  if _isInbound nodes d then "green"
  else if _isOutbound nodes d then "orange"
  else "#6fa3ef".

(** The [marker-end] attribute of a link in [_renderD3]. *)
Definition markerEnd (nodes : gmap string Node.t) (d : Link.t) : option string :=
  if _isInbound nodes d then Some "url(#arrowInbound)"
  else if _isOutbound nodes d then Some "url(#arrowOutbound)"
  else None.

(** The text of a label in [_renderD3]: [d.label || d.id]. *)
Definition labelText (d : Node.t) : string :=
  if truthy (Node.label d) then default "" (Node.label d) else Node.id d.

(** ** Further vocabulary *)

(** Every endpoint of a link has a node: what d3's link force needs to
    resolve the endpoints. *)
Definition linksHaveNodes (c : card) : Prop :=
  ∀ l, l ∈ _links c →
       is_Some (_nodesMap c !! Link.source l)
       ∧ is_Some (_nodesMap c !! Link.target l).

(** A node as the card creates it under the key [k]: it carries its key as
    id, and a label exactly when it is a port node. *)
Definition nodeOk (k : string) (n : Node.t) : Prop :=
  Node.id n = k
  ∧ match Node.type n with
    | Node.port => ∃ q, k = portNodeId q ∧ Node.label n = Some ("Port " +:+ pretty q)
    | _ => Node.label n = None
    end.

(** Hub and port nodes pinned at numbers, IP nodes without a pin. *)
Definition pinnedByKind (n : Node.t) : Prop :=
  match Node.type n with
  | Node.ip => Node.fx n = JS.Undefined ∧ Node.fy n = JS.Undefined
  | _ => ∃ vx vy, Node.fx n = JS.Num vx ∧ Node.fy n = JS.Num vy
  end.

(** The kind of a node, read off its key. *)
Definition kindByKey (hubId : string) (k : string) (n : Node.t) : Prop :=
  (k = hubId ∧ Node.type n = Node.hub)
  ∨ (∃ q, k = portNodeId q ∧ Node.type n = Node.port)
  ∨ (ipString k ∧ k ≠ hubId ∧ Node.type n = Node.ip).

(** The three forms of a link: hub to port, address to port, port to
    address. *)
Definition linkForm (hubId : string) (l : Link.t) : Prop :=
  (∃ q, l = Link.mk hubId (portNodeId q))
  ∨ (∃ q, Link.target l = portNodeId q ∧ ipString (Link.source l)
          ∧ Link.source l ≠ hubId)
  ∨ (∃ q, Link.source l = portNodeId q ∧ ipString (Link.target l)
          ∧ Link.target l ≠ hubId).

(** The state of a card fed with well-formed tuples. *)
Definition graphOk (hubId : string) (c : card) : Prop :=
  (∀ k n, _nodesMap c !! k = Some n → kindByKey hubId k n)
  ∧ (∀ l, l ∈ _links c → linkForm hubId l)
  ∧ linksHaveNodes c.

(** The number of links from the hub to the node of port [p]. *)
Definition hubLinkCount (hubId : string) (p : N) (links : list Link.t) : nat :=
  length (filter (λ l, l = Link.mk hubId (portNodeId p)) links).

(** Every tuple of every snapshot that the events deliver satisfies [P]. *)
Definition everyTuple (P : Conn.t → Prop) (events : list event) : Prop :=
  Forall (λ e, match e with
               | Update _ snapshot => Forall P snapshot
               | _ => True
               end) events.

(** An IP node [k] as [_placeIpNearPort] leaves it next to the port node
    [pn], with the [r]-th random number of the cycle. *)
Definition bloomAt (w : Window) (pn : Node.t) (r : nat) (k : string) : Node.t :=
  let a := (Math_random w r * 2 * JS.Math_PI)%float in
  Node.set_xy (JS.Num (JS.toNumber (Node.fx pn) + Math_cos w a * 50)%float)
              (JS.Num (JS.toNumber (Node.fy pn) + Math_sin w a * 50)%float)
              (ipNode k).

(** The card with another value in the store. *)
Definition withStore (stored : option (gmap string Pos.t)) (c : card) : card :=
  mkCard (_nodesMap c) (_links c) (_prevConnections c) (_positionsRestored c)
         stored.

(** * Properties *)

(** ** The node map through the steps of a cycle *)

Section NodeSteps.
Variable hubId : string.
Implicit Types (nodes : gmap string Node.t) (n : Node.t) (k : string).

Lemma ensureHub_preserve w nodes k n :
  nodes !! k = Some n → ensureHub hubId w nodes !! k = Some n.
Proof.
  intros Hk. unfold ensureHub. destruct (nodes !! hubId) eqn:Hh; [done|].
  rewrite lookup_insert_ne; [done|]. intros ->. congruence.
Qed.

Lemma ensureHub_hub w nodes :
  ensureHub hubId w nodes !! hubId
  = Some (default (hubNode hubId w) (nodes !! hubId)).
Proof.
  unfold ensureHub. destruct (nodes !! hubId) eqn:Hh; simpl; [done|].
  apply lookup_insert_eq.
Qed.

Lemma ensureHub_lookup w nodes k n :
  ensureHub hubId w nodes !! k = Some n →
  nodes !! k = Some n ∨ (nodes !! k = None ∧ k = hubId ∧ n = hubNode hubId w).
Proof.
  unfold ensureHub. destruct (nodes !! hubId) eqn:Hh; [auto|].
  destruct (decide (k = hubId)) as [->|Hne].
  - rewrite lookup_insert_eq. intros [= <-]. auto.
  - rewrite lookup_insert_ne by done. auto.
Qed.

Lemma placePorts_preserve w ports : ∀ i nodes k n,
  nodes !! k = Some n → placePorts w i ports nodes !! k = Some n.
Proof.
  induction ports as [|p ports IH]; intros i nodes k n Hk; simpl; [done|].
  apply IH. destruct (nodes !! portNodeId p) eqn:Hp; [done|].
  rewrite lookup_insert_ne; [done|]. intros <-. congruence.
Qed.

Lemma placePorts_lookup w ports : ∀ i nodes k n,
  placePorts w i ports nodes !! k = Some n →
  nodes !! k = Some n ∨
  (nodes !! k = None ∧
   ∃ j p, ports !! j = Some p ∧ k = portNodeId p ∧ n = portNode w (i + j) p).
Proof.
  induction ports as [|p ports IH]; intros i nodes k n; simpl; [auto|].
  intros Hk. apply IH in Hk as [Hk|[Hk (j & q & Hj & -> & ->)]].
  - destruct (nodes !! portNodeId p) eqn:Hp; [auto|].
    destruct (decide (k = portNodeId p)) as [->|Hne].
    + rewrite lookup_insert_eq in Hk. injection Hk as <-.
      right. split; [done|]. exists 0, p. by rewrite Nat.add_0_r.
    + rewrite lookup_insert_ne in Hk by done. auto.
  - right. split.
    + destruct (nodes !! portNodeId p) eqn:Hp; [done|].
      destruct (decide (portNodeId q = portNodeId p)) as [Heq|Hne].
      * rewrite Heq, lookup_insert_eq in Hk. done.
      * rewrite lookup_insert_ne in Hk by done. done.
    + exists (S j), q. split; [done|]. split; [done|]. f_equal. lia.
Qed.

Lemma placePorts_is_Some w ports : ∀ i nodes p,
  p ∈ ports → is_Some (placePorts w i ports nodes !! portNodeId p).
Proof.
  induction ports as [|q ports IH]; intros i nodes p Hp; simpl.
  - by apply elem_of_nil in Hp.
  - apply elem_of_cons in Hp as [->|Hp]; [|by apply IH].
    destruct (nodes !! portNodeId q) as [n|] eqn:Hq.
    + exists n. by apply placePorts_preserve.
    + eexists. apply placePorts_preserve, lookup_insert_eq.
Qed.

Lemma _placeIpNearPort_lookup_ne w ipId portId nodes c k :
  k ≠ ipId →
  (_placeIpNearPort w ipId portId (nodes, c)).1 !! k = nodes !! k.
Proof.
  intros Hne. unfold _placeIpNearPort.
  destruct (nodes !! portId); simpl; [|done].
  by rewrite lookup_alter_ne.
Qed.

Lemma _placeIpNearPort_lookup w ipId portId nodes c n :
  nodes !! ipId = Some n →
  ∃ vx vy, (_placeIpNearPort w ipId portId (nodes, c)).1 !! ipId
           = Some (Node.set_xy vx vy n).
Proof.
  intros Hn. unfold _placeIpNearPort.
  destruct (nodes !! portId); simpl.
  - do 2 eexists. rewrite lookup_alter_eq, Hn. done.
  - exists (Node.x n), (Node.y n). rewrite Hn. by destruct n.
Qed.

Lemma ensureIp_preserve w ipId portId st k n :
  st.1 !! k = Some n → (ensureIp w ipId portId st).1 !! k = Some n.
Proof.
  intros Hk. unfold ensureIp. destruct (st.1 !! ipId) eqn:Hi; [done|].
  rewrite _placeIpNearPort_lookup_ne by congruence.
  rewrite lookup_insert_ne; [done|]. congruence.
Qed.

Lemma ensureIp_lookup w ipId portId st k n :
  (ensureIp w ipId portId st).1 !! k = Some n →
  st.1 !! k = Some n ∨ (st.1 !! k = None ∧ k = ipId ∧ freshIp n).
Proof.
  unfold ensureIp. destruct (st.1 !! ipId) eqn:Hi; [auto|].
  destruct (decide (k = ipId)) as [->|Hne].
  - destruct (_placeIpNearPort_lookup w ipId portId
                (<[ipId := ipNode ipId]> st.1) st.2 (ipNode ipId))
      as (vx & vy & ->); [apply lookup_insert_eq|].
    intros [= <-]. right. by repeat split.
  - rewrite _placeIpNearPort_lookup_ne, lookup_insert_ne by done. auto.
Qed.

Lemma ensureIp_is_Some w ipId portId st :
  is_Some ((ensureIp w ipId portId st).1 !! ipId).
Proof.
  unfold ensureIp. destruct (st.1 !! ipId) eqn:Hi; [by rewrite Hi|].
  destruct (_placeIpNearPort_lookup w ipId portId
              (<[ipId := ipNode ipId]> st.1) st.2 (ipNode ipId))
    as (vx & vy & ->); [apply lookup_insert_eq|]. done.
Qed.

End NodeSteps.

Section ConnectSteps.
Implicit Types (st : gmap string Node.t * list Link.t * nat).

Lemma isIp_preserve (nodes nodes' : gmap string Node.t) k :
  (∀ n, nodes !! k = Some n → nodes' !! k = Some n) →
  isIp (nodes !! k) = true → isIp (nodes' !! k) = true.
Proof.
  intros Hpre. destruct (nodes !! k) as [n|] eqn:Hk; [|done].
  by rewrite (Hpre n eq_refl).
Qed.

Lemma connect_preserve w st c k n :
  st.1.1 !! k = Some n → (connect w st c).1.1 !! k = Some n.
Proof.
  destruct st as [[nodes links] r]. simpl. intros Hk.
  destruct (ensureIp w (Conn.source c) _ (nodes, r)) as [nodes1 r1] eqn:E1.
  destruct (ensureIp w (Conn.target c) _ (nodes1, r1)) as [nodes2 r2] eqn:E2.
  simpl.
  change nodes2 with (nodes2, r2).1. rewrite <- E2.
  apply ensureIp_preserve. simpl.
  change nodes1 with (nodes1, r1).1. rewrite <- E1.
  by apply ensureIp_preserve.
Qed.

Lemma connect_lookup w st c k n :
  (connect w st c).1.1 !! k = Some n →
  st.1.1 !! k = Some n ∨
  (st.1.1 !! k = None ∧ freshIp n ∧ (k = Conn.source c ∨ k = Conn.target c)).
Proof.
  destruct st as [[nodes links] r]. simpl.
  destruct (ensureIp w (Conn.source c) _ (nodes, r)) as [nodes1 r1] eqn:E1.
  destruct (ensureIp w (Conn.target c) _ (nodes1, r1)) as [nodes2 r2] eqn:E2.
  simpl. intros Hk.
  change nodes2 with (nodes2, r2).1 in Hk. rewrite <- E2 in Hk.
  apply ensureIp_lookup in Hk as [Hk|(Hk & -> & Hf)]; simpl in Hk.
  - change nodes1 with (nodes1, r1).1 in Hk. rewrite <- E1 in Hk.
    apply ensureIp_lookup in Hk as [Hk|(Hk & -> & Hf)]; simpl in Hk; auto.
  - right. split; [|auto].
    destruct (nodes !! Conn.target c) as [n0|] eqn:H0; [|done].
    assert ((ensureIp w (Conn.source c) (portNodeId (Conn.port c)) (nodes, r)).1
              !! Conn.target c = Some n0) as Hpre
      by by apply ensureIp_preserve.
    rewrite E1 in Hpre. simpl in Hpre. congruence.
Qed.

Lemma connect_links w st c :
  ∃ new, (connect w st c).1.2 = st.1.2 ++ new
         ∧ ∀ l, l ∈ new → ipLinkOf (connect w st c).1.1 c l.
Proof.
  destruct st as [[nodes links] r]. simpl.
  destruct (ensureIp w (Conn.source c) _ (nodes, r)) as [nodes1 r1] eqn:E1.
  destruct (ensureIp w (Conn.target c) _ (nodes1, r1)) as [nodes2 r2] eqn:E2.
  simpl. unfold ipLinkOf.
  destruct (isIp (nodes2 !! Conn.source c)) eqn:Hs;
    destruct (isIp (nodes2 !! Conn.target c)) eqn:Ht.
  - eexists [_; _]. rewrite <- app_assoc. split; [done|].
    intros l Hl. apply elem_of_cons in Hl as [->|Hl]; [auto|].
    apply list_elem_of_singleton in Hl as ->. auto.
  - eexists [_]. split; [done|].
    intros l Hl. apply list_elem_of_singleton in Hl as ->. auto.
  - eexists [_]. split; [done|].
    intros l Hl. apply list_elem_of_singleton in Hl as ->. auto.
  - exists []. rewrite app_nil_r. split; [done|].
    intros l Hl. by apply elem_of_nil in Hl.
Qed.

Lemma connects_preserve w cs : ∀ st k n,
  st.1.1 !! k = Some n → (foldl (connect w) st cs).1.1 !! k = Some n.
Proof.
  induction cs as [|c cs IH]; intros st k n Hk; simpl; [done|].
  by apply IH, connect_preserve.
Qed.

Lemma connects_lookup w cs : ∀ st k n,
  (foldl (connect w) st cs).1.1 !! k = Some n →
  st.1.1 !! k = Some n ∨
  (st.1.1 !! k = None ∧ freshIp n
   ∧ ∃ c, c ∈ cs ∧ (k = Conn.source c ∨ k = Conn.target c)).
Proof.
  induction cs as [|c cs IH]; intros st k n; simpl; [auto|].
  intros Hk. apply IH in Hk as [Hk|(Hk & Hf & c' & Hc' & Hor)].
  - apply connect_lookup in Hk as [Hk|(Hk & Hf & Hor)]; [auto|].
    right. split; [done|]. split; [done|]. exists c. split; [left|done].
  - right. split.
    + destruct (st.1.1 !! k) as [n0|] eqn:H0; [|done].
      apply (connect_preserve w st c) in H0. congruence.
    + split; [done|]. exists c'. split; [by right|done].
Qed.

Lemma connects_links w cs : ∀ st,
  ∃ new, (foldl (connect w) st cs).1.2 = st.1.2 ++ new
         ∧ ∀ l, l ∈ new →
             ∃ c, c ∈ cs ∧ ipLinkOf (foldl (connect w) st cs).1.1 c l.
Proof.
  induction cs as [|c cs IH]; intros st; simpl.
  - exists []. rewrite app_nil_r. split; [done|].
    intros l Hl. by apply elem_of_nil in Hl.
  - destruct (IH (connect w st c)) as (new2 & E2 & H2).
    destruct (connect_links w st c) as (new1 & E1 & H1).
    exists (new1 ++ new2). split.
    + by rewrite E2, E1, app_assoc.
    + intros l Hl. apply elem_of_app in Hl as [Hl|Hl].
      * exists c. split; [left|].
        destruct (H1 l Hl) as [[-> Hi]|[-> Hi]]; [left|right]; (split; [done|]);
          (eapply isIp_preserve; [|exact Hi]);
          intros n; apply connects_preserve.
      * destruct (H2 l Hl) as (c' & Hc' & Hl'). exists c'. split; [by right|done].
Qed.

End ConnectSteps.

Section Pruning.
Variable hubId : string.

Lemma prune_lookup links (nodes : gmap string Node.t) k n :
  prune hubId links nodes !! k = Some n
  ↔ nodes !! k = Some n ∧ k ∈ usedNodeIds hubId links.
Proof. unfold prune. by rewrite map_lookup_filter_Some. Qed.

Lemma hub_used links : hubId ∈ usedNodeIds hubId links.
Proof. unfold usedNodeIds. set_solver. Qed.

Lemma usedNodeIds_spec links k :
  k ∈ usedNodeIds hubId links
  ↔ k = hubId ∨ ∃ l, l ∈ links ∧ (Link.source l = k ∨ Link.target l = k).
Proof.
  unfold usedNodeIds.
  rewrite !elem_of_union, !elem_of_list_to_set, !list_elem_of_fmap,
    elem_of_singleton.
  split.
  - intros [[(l & -> & Hl)|(l & -> & Hl)]| ->]; eauto.
  - intros [->|(l & Hl & [<-|<-])]; eauto.
Qed.

Lemma prune_idemp_ext links (nodes extra : gmap string Node.t) :
  (∀ k n, prune hubId links nodes !! k = Some n → extra !! k = Some n) →
  (∀ k n, extra !! k = Some n →
          prune hubId links nodes !! k = Some n ∨ k ∉ usedNodeIds hubId links) →
  prune hubId links extra = prune hubId links nodes.
Proof.
  intros Hsub Hext. apply map_eq. intros k. apply option_eq. intros n.
  rewrite !prune_lookup. split.
  - intros [Hk Hu]. destruct (Hext k n Hk) as [Hp|Hn]; [|done].
    by apply prune_lookup in Hp.
  - intros [Hk Hu]. split; [|done]. apply Hsub. by apply prune_lookup.
Qed.

End Pruning.

Lemma filter_none {A} (P : A → Prop) `{!∀ x, Decision (P x)} (l : list A) :
  (∀ x, x ∈ l → ¬ P x) → filter P l = [].
Proof.
  induction l as [|a l IH]; intros Hall; [done|].
  rewrite filter_cons_False by (apply Hall; left).
  apply IH. intros x Hx. apply Hall. by right.
Qed.

(** ** Steps of the current card *)

Section DeltaSteps.
Variable hubId : string.

Lemma diff_same (l : list Conn.t) :
  Delta.addedConnections l l = [] ∧ Delta.removedConnections l l = [].
Proof.
  unfold Delta.addedConnections, Delta.removedConnections.
  assert (filter (λ c, Delta.connectionKey c ∉ Delta.connectionKey <$> l) l = [])
    as ->; [|done].
  apply filter_none. intros c Hc Hn. apply Hn.
  apply list_elem_of_fmap. eauto.
Qed.

Lemma ensureHubLinks_app ports : ∀ links,
  ∃ new, foldl (Delta.ensureHubLink hubId) links ports = links ++ new
         ∧ ∀ l, l ∈ new → ∃ p, p ∈ ports ∧ l = Link.mk hubId (portNodeId p).
Proof.
  induction ports as [|p ports IH]; intros links; simpl.
  - exists []. rewrite app_nil_r. split; [done|].
    intros l Hl. by apply elem_of_nil in Hl.
  - destruct (IH (Delta.ensureHubLink hubId links p)) as (new & -> & Hnew).
    unfold Delta.ensureHubLink.
    destruct (decide _) as [Hin|Hnin].
    + exists new. split; [done|]. intros l Hl.
      destruct (Hnew l Hl) as (q & Hq & ->). exists q. split; [by right|done].
    + eexists (_ :: new). rewrite <- app_assoc. split; [done|].
      intros l Hl. apply elem_of_cons in Hl as [->|Hl].
      * exists p. split; [left|done].
      * destruct (Hnew l Hl) as (q & Hq & ->). exists q. split; [by right|done].
Qed.

Lemma ensureHubLink_keys links p k :
  k ∈ linkKey <$> links → k ∈ linkKey <$> Delta.ensureHubLink hubId links p.
Proof.
  intros Hk. unfold Delta.ensureHubLink. destruct (decide _); [done|].
  rewrite fmap_app. apply elem_of_app. by left.
Qed.

Lemma ensureHubLinks_keys ports : ∀ links k,
  k ∈ linkKey <$> links → k ∈ linkKey <$> foldl (Delta.ensureHubLink hubId) links ports.
Proof.
  induction ports as [|p ports IH]; intros links k Hk; simpl; [done|].
  by apply IH, ensureHubLink_keys.
Qed.

(** After the loop every port of the snapshot has a link that reads as
    the hub link of the port. *)
Lemma ensureHubLinks_post ports : ∀ links p,
  p ∈ ports → hubKey hubId p ∈ linkKey <$> foldl (Delta.ensureHubLink hubId) links ports.
Proof.
  induction ports as [|q ports IH]; intros links p Hp; simpl.
  - by apply elem_of_nil in Hp.
  - apply elem_of_cons in Hp as [->|Hp]; [|by apply IH].
    apply ensureHubLinks_keys. unfold Delta.ensureHubLink.
    destruct (decide _) as [Hin|Hnin]; [done|].
    rewrite fmap_app. apply elem_of_app. right. simpl.
    apply list_elem_of_singleton. done.
Qed.

Lemma ensureHubLinks_id ports : ∀ links,
  (∀ p, p ∈ ports → hubKey hubId p ∈ linkKey <$> links) →
  foldl (Delta.ensureHubLink hubId) links ports = links.
Proof.
  induction ports as [|q ports IH]; intros links Hall; simpl; [done|].
  assert (Delta.ensureHubLink hubId links q = links) as ->.
  { unfold Delta.ensureHubLink. rewrite decide_True; [done|].
    apply Hall. left. }
  apply IH. intros p Hp. apply Hall. by right.
Qed.

Lemma update_nodes w S c :
  _nodesMap (Delta._deltaUpdate hubId w S c)
  = prune hubId (_links (Delta._deltaUpdate hubId w S c)) (built hubId w (dropLoopback S) c).1.1.
Proof. done. Qed.

Lemma update_prev w S c : _prevConnections (Delta._deltaUpdate hubId w S c) = dropLoopback S.
Proof. done. Qed.

Lemma built_preserve w conns c k n :
  _nodesMap c !! k = Some n → (built hubId w conns c).1.1 !! k = Some n.
Proof.
  intros Hk. unfold built.
  by apply connects_preserve, placePorts_preserve, ensureHub_preserve.
Qed.

(** How a node of the built map came to be there. *)
Lemma built_lookup w conns c k n :
  (built hubId w conns c).1.1 !! k = Some n →
  _nodesMap c !! k = Some n ∨
  (_nodesMap c !! k = None ∧
   ((k = hubId ∧ n = hubNode hubId w)
    ∨ (∃ j p, uniquePorts conns !! j = Some p ∧ k = portNodeId p
              ∧ n = portNode w j p)
    ∨ freshIp n)).
Proof.
  unfold built. intros Hk.
  apply connects_lookup in Hk as [Hk|(Hk & Hf & _)]; simpl in Hk.
  - apply placePorts_lookup in Hk as [Hk|(Hk & j & p & Hj & -> & ->)].
    + apply ensureHub_lookup in Hk as [Hk|(Hk & -> & ->)]; [auto|].
      right. split; [done|]. auto.
    + right. split.
      * destruct (_nodesMap c !! portNodeId p) as [n0|] eqn:H0; [|done].
        apply (ensureHub_preserve hubId w) in H0. congruence.
      * right. left. exists j, p. auto.
  - right. split; [|auto].
    destruct (_nodesMap c !! k) as [n0|] eqn:H0; [|done].
    apply (ensureHub_preserve hubId w) in H0.
    apply (placePorts_preserve w (uniquePorts conns) 0) in H0. congruence.
Qed.

Lemma built_hub w conns c :
  (built hubId w conns c).1.1 !! hubId
  = Some (default (hubNode hubId w) (_nodesMap c !! hubId)).
Proof.
  unfold built. apply connects_preserve, placePorts_preserve, ensureHub_hub.
Qed.

Lemma update_hub w S c :
  _nodesMap (Delta._deltaUpdate hubId w S c) !! hubId
  = Some (default (hubNode hubId w) (_nodesMap c !! hubId)).
Proof.
  rewrite update_nodes. apply prune_lookup. split; [apply built_hub|apply hub_used].
Qed.

(** A cycle never changes a node that it keeps. *)
Lemma update_keeps w S c k n n' :
  _nodesMap c !! k = Some n → _nodesMap (Delta._deltaUpdate hubId w S c) !! k = Some n' → n' = n.
Proof.
  intros Hk. rewrite update_nodes, prune_lookup. intros [Hb _].
  apply (built_preserve w (dropLoopback S)) in Hk. congruence.
Qed.

Lemma update_lookup w S c k n :
  _nodesMap (Delta._deltaUpdate hubId w S c) !! k = Some n →
  _nodesMap c !! k = Some n ∨
  (_nodesMap c !! k = None ∧
   ((k = hubId ∧ n = hubNode hubId w)
    ∨ (∃ j p, uniquePorts (dropLoopback S) !! j = Some p ∧ k = portNodeId p
              ∧ n = portNode w j p)
    ∨ freshIp n)).
Proof.
  rewrite update_nodes, prune_lookup. intros [Hb _]. by apply built_lookup in Hb.
Qed.

End DeltaSteps.

(** ** Restoring positions *)

Lemma restoreInto_lookup saved (nodes : gmap string Node.t) k :
  restoreInto saved nodes !! k
  = (λ n, match saved !! k with
          | Some pos => applyPosition pos n
          | None => n
          end) <$> nodes !! k.
Proof.
  unfold restoreInto. rewrite map_lookup_imap. by destruct (nodes !! k).
Qed.

Lemma restoreInto_dom saved (nodes : gmap string Node.t) :
  dom (restoreInto saved nodes) = dom nodes.
Proof.
  apply set_eq. intros k. rewrite !elem_of_dom, restoreInto_lookup.
  by rewrite fmap_is_Some.
Qed.

Lemma restoreOnce_dom c :
  dom (_nodesMap (Rebuild.restoreOnce c)) = dom (_nodesMap c).
Proof.
  unfold Rebuild.restoreOnce, _restoreNodePositions.
  destruct (_positionsRestored c); [done|].
  destruct (localStorage c); [|done]. apply restoreInto_dom.
Qed.

Lemma restoreOnce_links c : _links (Rebuild.restoreOnce c) = _links c.
Proof.
  unfold Rebuild.restoreOnce, _restoreNodePositions.
  destruct (_positionsRestored c); [done|]. by destruct (localStorage c).
Qed.

(** ** Scenarios A and B *)

(** Scenario A on both cards: the hub, the port node and the two IP nodes,
    with the two IP links and the hub link. *)
Lemma scenarioA_graph (w : Window) :
  dom (_nodesMap (Delta._deltaUpdate defaultHub w scenarioA (constructor None)))
  = {[defaultHub; portNodeId 443; "10.0.0.2"; "8.8.8.8"]}
  ∧ _links (Delta._deltaUpdate defaultHub w scenarioA (constructor None))
    = [Link.mk "10.0.0.2" (portNodeId 443); Link.mk (portNodeId 443) "8.8.8.8";
       Link.mk defaultHub (portNodeId 443)]
  ∧ _nodesMap (Rebuild._deltaUpdate defaultHub w scenarioA (constructor None))
    = _nodesMap (Delta._deltaUpdate defaultHub w scenarioA (constructor None))
  ∧ _links (Rebuild._deltaUpdate defaultHub w scenarioA (constructor None))
    = _links (Delta._deltaUpdate defaultHub w scenarioA (constructor None)).
Proof. repeat split; vm_compute; reflexivity. Qed.

(** On the earlier card an update with the empty snapshot leaves the hub
    alone in the node map and no link, whatever the graph was. *)
Lemma Rebuild_empty_snapshot hubId w c :
  dom (_nodesMap (Rebuild._deltaUpdate hubId w [] c)) = {[hubId]}
  ∧ _links (Rebuild._deltaUpdate hubId w [] c) = [].
Proof.
  unfold Rebuild._deltaUpdate. rewrite restoreOnce_dom, restoreOnce_links.
  change (dropLoopback []) with (@nil Conn.t).
  change (uniquePorts []) with (@nil N).
  cbn [placePorts foldl fst snd fmap list_fmap app].
  unfold Rebuild._syncNodesAndLinks.
  cbn [_links _nodesMap fmap list_fmap].
  assert (filter (λ oldL : Link.t, linkKey oldL ∈ @nil string) (_links c) = [])
    as Hkept.
  { apply filter_none. intros l _ Hl. by apply elem_of_nil in Hl. }
  rewrite Hkept. rewrite filter_nil. cbn [app]. split; [|done].
  apply set_eq. intros k. rewrite elem_of_dom, elem_of_singleton. split.
  - intros [n Hn]. apply prune_lookup in Hn as [_ Hu].
    apply usedNodeIds_spec in Hu as [->|(l & Hl & _)]; [done|].
    by apply elem_of_nil in Hl.
  - intros ->. eexists. apply prune_lookup.
    split; [apply ensureHub_hub|apply hub_used].
Qed.

(** C1 (the defect and the sibling path): with the default hub id, scenario
    A followed by the empty snapshot leaves the node [port-443] and the link
    from the hub to it on the current card, for every viewport; the earlier
    card is left with the hub alone and no link. *)
Theorem scenarioB_keeps_port (w1 w2 : Window) :
  (dom (_nodesMap (Delta.updates defaultHub [(w1, scenarioA); (w2, [])]
                     (constructor None)))
   = {[defaultHub; portNodeId 443]}
   ∧ _links (Delta.updates defaultHub [(w1, scenarioA); (w2, [])]
               (constructor None))
     = [Link.mk defaultHub (portNodeId 443)])
  ∧ (dom (_nodesMap (Rebuild.updates defaultHub [(w1, scenarioA); (w2, [])]
                       (constructor None)))
     = {[defaultHub]}
     ∧ _links (Rebuild.updates defaultHub [(w1, scenarioA); (w2, [])]
                 (constructor None))
       = []).
Proof.
  split.
  - split; vm_compute; reflexivity.
  - apply Rebuild_empty_snapshot.
Qed.

(** ** The hub *)

Section Hub.
Variable hubId : string.

Lemma hubOnly_update w S c :
  hubOnly hubId c → hubOnly hubId (Delta._deltaUpdate hubId w S c).
Proof.
  intros Hc k n Hk Ht.
  apply update_lookup in Hk
    as [Hk|(_ & [[-> _]|[(j & p & _ & _ & ->)|(Hip & _)]])];
    [by eapply Hc|done|done|congruence].
Qed.

Lemma updates_cons w S cycles c :
  Delta.updates hubId ((w, S) :: cycles) c
  = Delta.updates hubId cycles (Delta._deltaUpdate hubId w S c).
Proof. done. Qed.

Lemma hubOnly_updates cycles : ∀ c,
  hubOnly hubId c → hubOnly hubId (Delta.updates hubId cycles c).
Proof.
  induction cycles as [|[w S] cycles IH]; intros c Hc; [done|].
  rewrite updates_cons. apply IH. by apply hubOnly_update.
Qed.

Lemma updates_hub_kept cycles : ∀ c h,
  _nodesMap c !! hubId = Some h →
  _nodesMap (Delta.updates hubId cycles c) !! hubId = Some h.
Proof.
  induction cycles as [|[w S] cycles IH]; intros c h Hh; [done|].
  rewrite updates_cons. apply IH. by rewrite update_hub, Hh.
Qed.

(** C2: after one or more update cycles from the fresh card, the node
    stored under the hub id has kind [hub] and is pinned at the center of
    the viewport of the first cycle, whatever the viewports and snapshots
    of the later cycles are, and no other node has kind [hub]. *)
Theorem hub_invariant (w : Window) (S : list Conn.t)
    (cycles : list (Window * list Conn.t)) stored :
  ∃ h, _nodesMap (Delta.updates hubId ((w, S) :: cycles) (constructor stored))
         !! hubId = Some h
       ∧ Node.type h = Node.hub
       ∧ Node.fx h = JS.Num (innerWidth w / 2)%float
       ∧ Node.fy h = JS.Num (innerHeight w / 2)%float
       ∧ ∀ k n,
           _nodesMap (Delta.updates hubId ((w, S) :: cycles) (constructor stored))
             !! k = Some n →
           Node.type n = Node.hub → k = hubId ∧ n = h.
Proof.
  exists (hubNode hubId w).
  assert (_nodesMap (Delta.updates hubId ((w, S) :: cycles) (constructor stored))
            !! hubId = Some (hubNode hubId w)) as Hh.
  { rewrite updates_cons. apply updates_hub_kept. by rewrite update_hub. }
  split; [done|]. do 3 (split; [done|]).
  intros k n Hk Ht.
  assert (k = hubId) as ->.
  { eapply hubOnly_updates; [|exact Hk|exact Ht]. intros k' n' Hk'.
    cbn [constructor _nodesMap] in Hk'. by rewrite lookup_empty in Hk'. }
  split; [done|]. congruence.
Qed.

End Hub.

(** ** Applying a snapshot twice *)

(** C3: for a hub id and tuples that name their endpoints, an update with a
    snapshot that is the one of the previous update finds no added and no
    removed connection, and leaves the node map and the link list as they
    are; and so it does when the simulation and the drag callbacks have
    changed the node objects in between, in any way that keeps the keys of
    the node map. *)
Theorem idempotent_diff hubId (w1 w2 : Window) (S : list Conn.t) (c : card) :
  hubId ≠ "" → Forall namedConn S →
  Delta.addedConnections
    (_prevConnections (Delta._deltaUpdate hubId w1 S c)) (dropLoopback S) = []
  ∧ Delta.removedConnections
      (_prevConnections (Delta._deltaUpdate hubId w1 S c)) (dropLoopback S) = []
  ∧ _nodesMap (Delta._deltaUpdate hubId w2 S (Delta._deltaUpdate hubId w1 S c))
    = _nodesMap (Delta._deltaUpdate hubId w1 S c)
  ∧ _links (Delta._deltaUpdate hubId w2 S (Delta._deltaUpdate hubId w1 S c))
    = _links (Delta._deltaUpdate hubId w1 S c)
  ∧ ∀ g : gmap string Node.t → gmap string Node.t,
      (∀ nodes, dom (g nodes) = dom nodes) →
      _nodesMap (Delta._deltaUpdate hubId w2 S
                   (withNodes g (Delta._deltaUpdate hubId w1 S c)))
      = g (_nodesMap (Delta._deltaUpdate hubId w1 S c))
      ∧ _links (Delta._deltaUpdate hubId w2 S
                  (withNodes g (Delta._deltaUpdate hubId w1 S c)))
        = _links (Delta._deltaUpdate hubId w1 S c).
Proof.
  intros _ _. rewrite update_prev.
  destruct (diff_same (dropLoopback S)) as [Hadd Hrem].
  split; [done|]. split; [done|].
  set (c1 := Delta._deltaUpdate hubId w1 S c).
  assert (_nodesMap c1
          = prune hubId (_links c1) (built hubId w1 (dropLoopback S) c).1.1)
    as Hn1 by done.
  assert (∀ g : gmap string Node.t → gmap string Node.t,
      (∀ nodes, dom (g nodes) = dom nodes) →
      _nodesMap (Delta._deltaUpdate hubId w2 S (withNodes g c1))
      = g (_nodesMap c1)
      ∧ _links (Delta._deltaUpdate hubId w2 S (withNodes g c1)) = _links c1)
    as Hgen.
  { intros g Hg.
    assert (_links (Delta._deltaUpdate hubId w2 S (withNodes g c1)) = _links c1)
      as Hlinks.
    { unfold Delta._deltaUpdate at 1. cbn [_links withNodes _prevConnections].
      change (_prevConnections c1) with (dropLoopback S).
      rewrite Hadd, Hrem. cbn [foldl fst snd].
      apply ensureHubLinks_id. intros p Hp.
      subst c1. unfold Delta._deltaUpdate. cbn [_links].
      by apply ensureHubLinks_post. }
    split; [|done].
    rewrite (update_nodes hubId w2 S (withNodes g c1)), Hlinks.
    unfold built. cbn [withNodes _nodesMap _links _prevConnections].
    change (_prevConnections c1) with (dropLoopback S).
    rewrite Hadd. cbn [foldl fst snd].
    assert (∀ k, is_Some (g (_nodesMap c1) !! k) ↔ is_Some (_nodesMap c1 !! k))
      as Hkeys.
    { intros k. by rewrite <- !elem_of_dom, Hg. }
    apply map_eq. intros k. apply option_eq. intros n.
    rewrite prune_lookup. split.
    - intros [Hb Hu].
      apply placePorts_lookup in Hb as [Hk|(Hnone & j & p & Hj & -> & ->)].
      + apply ensureHub_lookup in Hk as [Hk|(Hnone & -> & _)]; [done|].
        exfalso. apply eq_None_not_Some in Hnone. apply Hnone, Hkeys.
        subst c1. rewrite update_hub. by eexists.
      + exfalso.
        assert (g (_nodesMap c1) !! portNodeId p = None) as Hnone'.
        { destruct (g (_nodesMap c1) !! portNodeId p) as [n|] eqn:Hn; [|done].
          apply (ensureHub_preserve hubId w2) in Hn. congruence. }
        apply eq_None_not_Some in Hnone'. apply Hnone', Hkeys.
        assert (is_Some ((built hubId w1 (dropLoopback S) c).1.1 !! portNodeId p))
          as [n Hn].
        { unfold built.
          destruct (placePorts_is_Some w1 (uniquePorts (dropLoopback S)) 0
                      (ensureHub hubId w1 (_nodesMap c)) p) as [n Hn].
          - eapply list_elem_of_lookup_2. exact Hj.
          - exists n. by apply connects_preserve. }
        exists n. rewrite Hn1. by apply prune_lookup.
    - intros Hk. split.
      + by apply placePorts_preserve, ensureHub_preserve.
      + destruct (proj1 (Hkeys k)) as [n0 Hn0]; [by eexists|].
        rewrite Hn1 in Hn0. by apply prune_lookup in Hn0 as [_ ?]. }
  assert (_links (Delta._deltaUpdate hubId w2 S c1) = _links c1) as Hlinks.
  { unfold Delta._deltaUpdate at 1. cbn [_links].
    change (_prevConnections c1) with (dropLoopback S).
    rewrite Hadd, Hrem. cbn [foldl fst snd].
    apply ensureHubLinks_id. intros p Hp.
    subst c1. unfold Delta._deltaUpdate. cbn [_links].
    by apply ensureHubLinks_post. }
  split; [|split; [done|exact Hgen]].
  rewrite (update_nodes hubId w2 S c1), Hlinks.
  etrans; [|symmetry; exact Hn1].
  unfold built at 1.
  change (_prevConnections c1) with (dropLoopback S).
  rewrite Hadd. cbn [foldl fst snd].
  apply prune_idemp_ext.
  - intros k n Hk. apply placePorts_preserve, ensureHub_preserve.
    by rewrite Hn1.
  - intros k n Hk.
    apply placePorts_lookup in Hk as [Hk|(Hk & j & p & Hj & -> & ->)].
    + apply ensureHub_lookup in Hk as [Hk|(Hk & -> & ->)].
      * left. by rewrite Hn1 in Hk.
      * subst c1. by rewrite update_hub in Hk.
    + destruct (decide (portNodeId p ∈ usedNodeIds hubId (_links c1)))
        as [Hu|Hu]; [|by right].
      exfalso.
      assert (is_Some ((built hubId w1 (dropLoopback S) c).1.1 !! portNodeId p))
        as [n Hn].
      { unfold built.
        destruct (placePorts_is_Some w1 (uniquePorts (dropLoopback S)) 0
                    (ensureHub hubId w1 (_nodesMap c)) p) as [n Hn].
        - eapply list_elem_of_lookup_2. exact Hj.
        - exists n. by apply connects_preserve. }
      assert (_nodesMap c1 !! portNodeId p = Some n) as Hc1.
      { rewrite Hn1. by apply prune_lookup. }
      apply (ensureHub_preserve hubId w2) in Hc1. congruence.
Qed.

Lemma idempotent_diff_witness :
  defaultHub ≠ "" ∧ Forall namedConn twoTargets
  ∧ _nodesMap (Delta._deltaUpdate defaultHub (viewport 640 480) twoTargets
                 (withNodes (simulationNodes (viewport 800 600))
                    (Delta._deltaUpdate defaultHub (viewport 800 600) twoTargets
                       (constructor None))))
    = simulationNodes (viewport 800 600)
        (_nodesMap (Delta._deltaUpdate defaultHub (viewport 800 600) twoTargets
                      (constructor None))).
Proof.
  assert (defaultHub ≠ "") as Hhub by done.
  assert (Forall namedConn twoTargets) as Hnamed by (repeat constructor; done).
  split; [exact Hhub|]. split; [exact Hnamed|].
  apply (proj2 (proj2 (proj2 (proj2
           (idempotent_diff defaultHub (viewport 800 600) (viewport 640 480)
              twoTargets (constructor None) Hhub Hnamed))))
           (simulationNodes (viewport 800 600))).
  intros nodes. apply set_eq. intros k.
  rewrite !elem_of_dom. unfold simulationNodes. rewrite map_lookup_imap.
  destruct (nodes !! k); simpl; split; intros [? ?]; by eauto.
Defined.

(** ** Loopback tuples *)

Lemma dropLoopback_insert (A B : list Conn.t) lo :
  Conn.source lo = "127.0.0.1" ∨ Conn.target lo = "127.0.0.1" →
  dropLoopback (A ++ lo :: B) = dropLoopback (A ++ B).
Proof.
  intros Hlo. unfold dropLoopback. rewrite !filter_app. f_equal.
  apply filter_cons_False. unfold notLoopback. tauto.
Qed.

Lemma dropLoopback_sound (S : list Conn.t) c :
  c ∈ dropLoopback S →
  c ∈ S ∧ Conn.source c ≠ "127.0.0.1" ∧ Conn.target c ≠ "127.0.0.1".
Proof. unfold dropLoopback. rewrite list_elem_of_filter. intros [[??] ?]. auto. Qed.

(** C9: a tuple whose source or target is ["127.0.0.1"] leaves no trace:
    the card after the update (node map, link list and retained snapshot)
    is the one that the snapshot without the tuple gives, on both versions
    of the card, and the tuple is not in the snapshot that is diffed. *)
Theorem loopback_exclusion hubId (w : Window) (A B : list Conn.t)
    (lo : Conn.t) (c : card) :
  Conn.source lo = "127.0.0.1" ∨ Conn.target lo = "127.0.0.1" →
  Delta._deltaUpdate hubId w (A ++ lo :: B) c = Delta._deltaUpdate hubId w (A ++ B) c
  ∧ Rebuild._deltaUpdate hubId w (A ++ lo :: B) c
    = Rebuild._deltaUpdate hubId w (A ++ B) c
  ∧ (lo ∉ dropLoopback (A ++ lo :: B))
  ∧ (lo ∉ _prevConnections (Delta._deltaUpdate hubId w (A ++ lo :: B) c)).
Proof.
  intros Hlo.
  assert (lo ∉ dropLoopback (A ++ lo :: B)) as Hnot.
  { intros Hin. apply dropLoopback_sound in Hin. tauto. }
  unfold Delta._deltaUpdate, Rebuild._deltaUpdate.
  rewrite (dropLoopback_insert A B lo Hlo). cbn [_prevConnections].
  rewrite <- (dropLoopback_insert A B lo Hlo). done.
Qed.

Lemma loopback_exclusion_witness :
  (Conn.source (Conn.mk "127.0.0.1" "10.0.0.7" 22) = "127.0.0.1"
   ∨ Conn.target (Conn.mk "127.0.0.1" "10.0.0.7" 22) = "127.0.0.1")
  ∧ Delta._deltaUpdate defaultHub (viewport 800 600)
      (scenarioA ++ [Conn.mk "127.0.0.1" "10.0.0.7" 22]) (constructor None)
    = Delta._deltaUpdate defaultHub (viewport 800 600)
        (scenarioA ++ []) (constructor None).
Proof.
  split; [left; reflexivity|].
  apply (loopback_exclusion defaultHub (viewport 800 600) scenarioA []
           (Conn.mk "127.0.0.1" "10.0.0.7" 22) (constructor None)).
  left. reflexivity.
Defined.

(** ** Removing the links of a removed tuple *)

Section Removal.
Variable hubId : string.

Lemma removeLinks_elem links r l :
  l ∈ Delta.removeLinks links r →
  l ∈ links
  ∧ linkKey l ≠ Conn.source r +:+ "->" +:+ portNodeId (Conn.port r)
  ∧ linkKey l ≠ portNodeId (Conn.port r) +:+ "->" +:+ Conn.target r.
Proof.
  unfold Delta.removeLinks. rewrite list_elem_of_filter. tauto.
Qed.

Lemma removeLinks_all removed : ∀ links l,
  l ∈ foldl Delta.removeLinks links removed →
  l ∈ links
  ∧ ∀ r, r ∈ removed →
      linkKey l ≠ Conn.source r +:+ "->" +:+ portNodeId (Conn.port r)
      ∧ linkKey l ≠ portNodeId (Conn.port r) +:+ "->" +:+ Conn.target r.
Proof.
  induction removed as [|r0 removed IH]; intros links l Hl; simpl in Hl.
  - split; [done|]. intros r Hr. by apply elem_of_nil in Hr.
  - apply IH in Hl as [Hl Hrest].
    apply removeLinks_elem in Hl as (Hl & H1 & H2).
    split; [done|]. intros r Hr.
    apply elem_of_cons in Hr as [->|Hr]; [done|by apply Hrest].
Qed.

(** The links of the card after a cycle: what survived the removals, or
    a hub link pushed by the last loop. *)
Lemma update_links_elem w S c l :
  l ∈ _links (Delta._deltaUpdate hubId w S c) →
  (∀ r, r ∈ Delta.removedConnections (_prevConnections c) (dropLoopback S) →
      linkKey l ≠ Conn.source r +:+ "->" +:+ portNodeId (Conn.port r)
      ∧ linkKey l ≠ portNodeId (Conn.port r) +:+ "->" +:+ Conn.target r)
  ∨ ∃ p, l = Link.mk hubId (portNodeId p).
Proof.
  unfold Delta._deltaUpdate. cbn [_links].
  destruct (ensureHubLinks_app hubId (uniquePorts (dropLoopback S))
              (foldl Delta.removeLinks
                 (foldl (connect w)
                    (placePorts w 0 (uniquePorts (dropLoopback S))
                       (ensureHub hubId w (_nodesMap c)), _links c, 0)
                    (Delta.addedConnections (_prevConnections c)
                       (dropLoopback S))).1.2
                 (Delta.removedConnections (_prevConnections c)
                    (dropLoopback S))))
    as (new & -> & Hnew).
  intros Hl. apply elem_of_app in Hl as [Hl|Hl].
  - left. by apply removeLinks_all in Hl as [_ Hl].
  - right. destruct (Hnew l Hl) as (p & _ & ->). by exists p.
Qed.

(** C10, as the code has it: the filter of a removed tuple [r] that names
    its endpoints leaves no link between the source of [r] and its port node
    or between the port node and the target of [r], however many copies
    there were; unless the
    source is the hub id, no link from it to the port node is in the link
    list after the cycle, also when a tuple [r'] with the same source and
    port is still in the snapshot; and the same holds of the link from the
    port node to the target, unless the port node id is the hub id. *)
Theorem removal_by_endpoints (w : Window) (S : list Conn.t) (c : card)
    (r : Conn.t) :
  r ∈ Delta.removedConnections (_prevConnections c) (dropLoopback S) →
  namedConn r →
  (∀ links,
      (Link.mk (Conn.source r) (portNodeId (Conn.port r))
         ∉ Delta.removeLinks links r)
      ∧ (Link.mk (portNodeId (Conn.port r)) (Conn.target r)
           ∉ Delta.removeLinks links r))
  ∧ (Conn.source r ≠ hubId →
     (Link.mk (Conn.source r) (portNodeId (Conn.port r))
        ∉ _links (Delta._deltaUpdate hubId w S c))
     ∧ ∀ r', r' ∈ _prevConnections (Delta._deltaUpdate hubId w S c) →
             Conn.source r' = Conn.source r → Conn.port r' = Conn.port r →
             Link.mk (Conn.source r') (portNodeId (Conn.port r'))
               ∉ _links (Delta._deltaUpdate hubId w S c))
  ∧ (portNodeId (Conn.port r) ≠ hubId →
     Link.mk (portNodeId (Conn.port r)) (Conn.target r)
       ∉ _links (Delta._deltaUpdate hubId w S c)).
Proof.
  intros Hr _. split; [|split].
  - intros links.
    split; intros Hl; apply removeLinks_elem in Hl as (_ & H1 & H2);
      [by apply H1|by apply H2].
  - intros Hne.
    assert (Link.mk (Conn.source r) (portNodeId (Conn.port r))
              ∉ _links (Delta._deltaUpdate hubId w S c)) as Habs.
    { intros Hl. apply update_links_elem in Hl as [Hl|(p & [= Hs _])].
      - destruct (Hl r Hr) as [H1 _]. by apply H1.
      - done. }
    split; [done|]. intros r' _ Hs Hp. by rewrite Hs, Hp.
  - intros Hne Hl. apply update_links_elem in Hl as [Hl|(p & [= Hs _])].
    + destruct (Hl r Hr) as [_ H2]. by apply H2.
    + done.
Qed.

End Removal.

Lemma removal_by_endpoints_witness :
  Conn.mk "10.0.0.2" "8.8.8.8" 443
    ∈ Delta.removedConnections
        (_prevConnections
           (Delta._deltaUpdate defaultHub (viewport 800 600) twoTargets
              (constructor None)))
        (dropLoopback [Conn.mk "10.0.0.2" "1.1.1.1" 443])
  ∧ namedConn (Conn.mk "10.0.0.2" "8.8.8.8" 443)
  ∧ ("10.0.0.2" ≠ defaultHub →
     Link.mk "10.0.0.2" (portNodeId 443)
       ∉ _links (Delta._deltaUpdate defaultHub (viewport 800 600)
                   [Conn.mk "10.0.0.2" "1.1.1.1" 443]
                   (Delta._deltaUpdate defaultHub (viewport 800 600) twoTargets
                      (constructor None)))).
Proof.
  assert (Conn.mk "10.0.0.2" "8.8.8.8" 443
            ∈ Delta.removedConnections
                (_prevConnections
                   (Delta._deltaUpdate defaultHub (viewport 800 600) twoTargets
                      (constructor None)))
                (dropLoopback [Conn.mk "10.0.0.2" "1.1.1.1" 443])) as Hr.
  { apply (bool_decide_unpack _). vm_compute. exact I. }
  assert (namedConn (Conn.mk "10.0.0.2" "8.8.8.8" 443)) as Hnamed by done.
  split; [exact Hr|]. split; [exact Hnamed|].
  intros Hne.
  exact (proj1 (proj1 (proj2 (removal_by_endpoints defaultHub (viewport 800 600)
            [Conn.mk "10.0.0.2" "1.1.1.1" 443] _ _ Hr Hnamed)) Hne)).
Defined.

(** C10, the claim as written fails when the source of the removed tuple is
    the hub id: the filter deletes the hub link of the port, and the hub
    loop pushes it again in the same cycle because the port is still in the
    snapshot, so the link from the source of the surviving tuple to the port
    node is in the link list. *)
Lemma removal_readds_hub_link :
  let r := Conn.mk defaultHub "8.8.8.8" 443 in
  let r' := Conn.mk defaultHub "1.1.1.1" 443 in
  let c := Delta._deltaUpdate defaultHub (viewport 800 600) [r; r']
             (constructor None) in
  r ∈ Delta.removedConnections (_prevConnections c) (dropLoopback [r'])
  ∧ Link.mk (Conn.source r) (portNodeId (Conn.port r)) ∈ _links c
  ∧ (Link.mk (Conn.source r) (portNodeId (Conn.port r))
       ∉ Delta.removeLinks (_links c) r)
  ∧ Link.mk (Conn.source r') (portNodeId (Conn.port r'))
      ∈ _links (Delta._deltaUpdate defaultHub (viewport 800 600) [r'] c).
Proof.
  cbv zeta. split; [|split; [|split]];
    apply (bool_decide_unpack _); vm_compute; exact I.
Qed.

(** ** Update cycles, simulation ticks and drag events *)

Section Pins.
Variable hubId : string.

Lemma save_nodes writable c :
  _nodesMap (_saveNodePositions writable c) = _nodesMap c.
Proof. by destruct writable. Qed.

Lemma moveNodes_lookup moved (nodes : gmap string Node.t) k :
  moveNodes moved nodes !! k = tickNode (moved !! k) <$> nodes !! k.
Proof.
  unfold moveNodes. rewrite map_lookup_imap. by destruct (nodes !! k).
Qed.

Lemma simulationNodes_lookup w (nodes : gmap string Node.t) k :
  simulationNodes w nodes !! k = initializeNode (d3_place w k) <$> nodes !! k.
Proof.
  unfold simulationNodes. rewrite map_lookup_imap. by destruct (nodes !! k).
Qed.

(** d3 writes [x] and [y] only. *)
Lemma initializeNode_fields place n :
  Node.id (initializeNode place n) = Node.id n
  ∧ Node.type (initializeNode place n) = Node.type n
  ∧ Node.label (initializeNode place n) = Node.label n
  ∧ Node.fx (initializeNode place n) = Node.fx n
  ∧ Node.fy (initializeNode place n) = Node.fy n.
Proof. unfold initializeNode. repeat case_match; done. Qed.

Lemma tickNode_fields moved n :
  Node.id (tickNode moved n) = Node.id n
  ∧ Node.type (tickNode moved n) = Node.type n
  ∧ Node.label (tickNode moved n) = Node.label n
  ∧ Node.fx (tickNode moved n) = Node.fx n
  ∧ Node.fy (tickNode moved n) = Node.fy n.
Proof. done. Qed.

(** d3 puts a node that is pinned at numbers at its pin. *)
Lemma initializeNode_atPin place n :
  pinnedAt n → atPin (initializeNode place n).
Proof.
  destruct n as [i t l x y fx fy].
  intros (vx & vy & Hfx & Hfy & Hx & Hy). simpl in *. subst.
  unfold initializeNode, atPin. simpl. rewrite Hx, Hy. done.
Qed.

Lemma tickNode_atPin moved n : pinnedAt n → atPin (tickNode moved n).
Proof.
  destruct n as [i t l x y fx fy].
  intros (vx & vy & Hfx & Hfy & _). simpl in *. subst. done.
Qed.

Lemma initializeNode_settled place n :
  pinnedAt n → atPin n → initializeNode place n = n.
Proof.
  destruct n as [i t l x y fx fy].
  intros (vx & vy & Hfx & Hfy & Hx & Hy) [Hax Hay]. simpl in *. subst.
  unfold initializeNode. simpl. rewrite Hx, Hy. done.
Qed.

Lemma tickNode_settled moved n : pinnedAt n → atPin n → tickNode moved n = n.
Proof.
  destruct n as [i t l x y fx fy].
  intros (vx & vy & Hfx & Hfy & _) [Hax Hay]. simpl in *. subst. done.
Qed.

(** The [Update] event is [_deltaUpdate] up to the hand-over of the nodes to
    the simulation. *)
Lemma step_update_lookup c w S k :
  _nodesMap (step hubId c (Update w S)) !! k
  = initializeNode (d3_place w k)
      <$> _nodesMap (Delta._deltaUpdate hubId w S c) !! k.
Proof. cbn [step withNodes _nodesMap]. apply simulationNodes_lookup. Qed.

Lemma step_update_node c w S k n' :
  _nodesMap (step hubId c (Update w S)) !! k = Some n' →
  ∃ n0, _nodesMap (Delta._deltaUpdate hubId w S c) !! k = Some n0
        ∧ n' = initializeNode (d3_place w k) n0.
Proof.
  rewrite step_update_lookup.
  destruct (_nodesMap (Delta._deltaUpdate hubId w S c) !! k) as [n0|];
    [|done].
  simpl. intros [= <-]. eauto.
Qed.

Lemma step_update_is_Some c w S k :
  is_Some (_nodesMap (step hubId c (Update w S)) !! k)
  ↔ is_Some (_nodesMap (Delta._deltaUpdate hubId w S c) !! k).
Proof. rewrite step_update_lookup. apply fmap_is_Some. Qed.

Lemma step_update_rest c w S :
  _links (step hubId c (Update w S)) = _links (Delta._deltaUpdate hubId w S c)
  ∧ _prevConnections (step hubId c (Update w S))
    = _prevConnections (Delta._deltaUpdate hubId w S c)
  ∧ localStorage (step hubId c (Update w S)) = localStorage c.
Proof. done. Qed.

Lemma step_tick_nodes c moved settled wr :
  _nodesMap (step hubId c (Tick moved settled wr)) = moveNodes moved (_nodesMap c).
Proof. cbn [step]. destruct settled; [by rewrite save_nodes|done]. Qed.

(** Update cycles, ticks and drag ends leave the pin of a hub or port node
    that they keep as it is. *)
Lemma step_keeps_pin c e k n n' :
  (∀ id, e ≠ DragStart id) → (∀ id ex ey, e ≠ DragMove id ex ey) →
  _nodesMap c !! k = Some n → Node.type n ≠ Node.ip →
  _nodesMap (step hubId c e) !! k = Some n' →
  Node.type n' = Node.type n ∧ Node.fx n' = Node.fx n ∧ Node.fy n' = Node.fy n.
Proof.
  intros Hs Hm Hk Ht. destruct e as [w snap|moved settled wr|id|id ex ey|id wr].
  - intros (n0 & Hk' & ->)%step_update_node.
    rewrite (update_keeps hubId w snap c k n n0 Hk Hk').
    by destruct (initializeNode_fields (d3_place w k) n) as (_ & ? & _ & ? & ?).
  - rewrite step_tick_nodes, moveNodes_lookup, Hk. simpl. by intros [= <-].
  - by destruct (Hs id).
  - by destruct (Hm id ex ey).
  - cbn [step]. rewrite save_nodes. cbn [withNodes _nodesMap].
    destruct (decide (id = k)) as [->|Hne].
    + rewrite lookup_alter_eq, Hk. simpl. intros [= <-].
      unfold _dragEnded. by rewrite decide_False.
    + rewrite lookup_alter_ne by done. rewrite Hk. by intros [= <-].
Qed.

(** A drag start pins the node where it is, whatever its kind. *)
Lemma dragStart_pins c id n :
  _nodesMap c !! id = Some n →
  ∃ n', _nodesMap (step hubId c (DragStart id)) !! id = Some n'
        ∧ Node.type n' = Node.type n
        ∧ Node.fx n' = Node.x n ∧ Node.fy n' = Node.y n.
Proof.
  intros Hn. eexists. cbn [step withNodes _nodesMap].
  rewrite lookup_alter_eq, Hn. done.
Qed.

(** An update cycle and a tick put every node that is pinned at numbers at
    its pin. *)
Lemma settles c e k n' :
  (∃ w snapshot, e = Update w snapshot)
  ∨ (∃ moved settled writable, e = Tick moved settled writable) →
  _nodesMap (step hubId c e) !! k = Some n' → pinnedAt n' → atPin n'.
Proof.
  intros [(w & snap & ->)|(moved & settled & wr & ->)].
  - intros (n0 & _ & ->)%step_update_node Hpin.
    apply initializeNode_atPin.
    destruct (initializeNode_fields (d3_place w k) n0) as (_ & _ & _ & Hfx & Hfy).
    unfold pinnedAt in *. by rewrite Hfx, Hfy in Hpin.
  - rewrite step_tick_nodes, moveNodes_lookup.
    destruct (_nodesMap c !! k) as [n0|]; [|done]. simpl. intros [= <-] Hpin.
    by apply tickNode_atPin.
Qed.

(** A hub or port node that is at its pin stays as it is under every event
    that keeps it, except a drag move of the node. *)
Lemma settled_step c e k n n' :
  (∀ ex ey, e ≠ DragMove k ex ey) →
  _nodesMap c !! k = Some n → Node.type n ≠ Node.ip →
  pinnedAt n → atPin n →
  _nodesMap (step hubId c e) !! k = Some n' → n' = n.
Proof.
  intros Hm Hk Ht Hpin Hat.
  destruct e as [w snap|moved settled wr|id|id ex ey|id wr].
  - intros (n0 & Hk' & ->)%step_update_node.
    rewrite (update_keeps hubId w snap c k n n0 Hk Hk').
    by apply initializeNode_settled.
  - rewrite step_tick_nodes, moveNodes_lookup, Hk. simpl. intros [= <-].
    by apply tickNode_settled.
  - cbn [step withNodes _nodesMap].
    destruct (decide (id = k)) as [->|Hne].
    + rewrite lookup_alter_eq, Hk. simpl. intros [= <-].
      destruct n as [i t l x y fx fy], Hat as [Hx Hy]. simpl in *. by subst.
    + rewrite lookup_alter_ne by done. rewrite Hk. by intros [= <-].
  - cbn [step withNodes _nodesMap].
    destruct (decide (id = k)) as [->|Hne]; [by destruct (Hm ex ey)|].
    rewrite lookup_alter_ne by done. rewrite Hk. by intros [= <-].
  - cbn [step]. rewrite save_nodes. cbn [withNodes _nodesMap].
    destruct (decide (id = k)) as [->|Hne].
    + rewrite lookup_alter_eq, Hk. simpl. intros [= <-].
      unfold _dragEnded. by rewrite decide_False.
    + rewrite lookup_alter_ne by done. rewrite Hk. by intros [= <-].
Qed.

(** No event removes the hub. *)
Lemma hub_present_step c e :
  is_Some (_nodesMap c !! hubId) → is_Some (_nodesMap (step hubId c e) !! hubId).
Proof.
  intros [h Hh]. destruct e as [w snap|moved settled wr|id|id ex ey|id wr].
  - apply step_update_is_Some. rewrite update_hub. by eexists.
  - rewrite step_tick_nodes, moveNodes_lookup, Hh. by eexists.
  - cbn [step withNodes _nodesMap]. apply lookup_alter_is_Some. by eexists.
  - cbn [step withNodes _nodesMap]. apply lookup_alter_is_Some. by eexists.
  - cbn [step]. rewrite save_nodes. cbn [withNodes _nodesMap].
    apply lookup_alter_is_Some. by eexists.
Qed.

Lemma movesNode_cons id e events :
  ¬ movesNode id (e :: events) →
  (∀ ex ey, e ≠ DragMove id ex ey) ∧ ¬ movesNode id events.
Proof.
  intros Hno. split.
  - intros ex ey ->. apply Hno. exists ex, ey. left.
  - intros (ex & ey & Hin). apply Hno. exists ex, ey. by right.
Qed.

(** A hub that is at its pin stays as it is as long as it is not moved by
    a drag. *)
Lemma hub_settled_run events : ∀ c h,
  ¬ movesNode hubId events →
  _nodesMap c !! hubId = Some h → Node.type h ≠ Node.ip →
  pinnedAt h → atPin h →
  _nodesMap (run hubId events c) !! hubId = Some h.
Proof.
  induction events as [|e events IH]; intros c h Hno Hh Ht Hpin Hat; [done|].
  apply movesNode_cons in Hno as [He Hno].
  apply (IH (step hubId c e)); [done| |done..].
  destruct (hub_present_step c e) as [h' Hh']; [by eexists|].
  by rewrite (settled_step c e hubId h h' He Hh Ht Hpin Hat Hh') in Hh'.
Qed.

(** A hub or port node that is at its pin stays as it is for as long as
    it is in the node map and is not moved by a drag. *)
Lemma settled_run k events : ∀ c n,
  ¬ movesNode k events →
  _nodesMap c !! k = Some n → Node.type n ≠ Node.ip →
  pinnedAt n → atPin n →
  (∀ past, past `prefix_of` events →
           is_Some (_nodesMap (run hubId past c) !! k)) →
  _nodesMap (run hubId events c) !! k = Some n.
Proof.
  induction events as [|e events IH]; intros c n Hno Hk Ht Hpin Hat Hlife;
    [done|].
  apply movesNode_cons in Hno as [He Hno].
  destruct (Hlife [e]) as [n' Hn']; [apply prefix_cons, prefix_nil|].
  cbn [run foldl] in Hn'.
  rewrite (settled_step c e k n n' He Hk Ht Hpin Hat Hn') in Hn'.
  apply (IH (step hubId c e)); [done..|].
  intros past Hpast. apply (Hlife (e :: past)). by apply prefix_cons.
Qed.

(** A drag move pins the node at the pointer, whatever its kind. *)
Lemma dragMove_pins c id ex ey n :
  _nodesMap c !! id = Some n →
  ∃ n', _nodesMap (step hubId c (DragMove id ex ey)) !! id = Some n'
        ∧ Node.type n' = Node.type n
        ∧ Node.fx n' = JS.Num ex ∧ Node.fy n' = JS.Num ey.
Proof.
  intros Hn. eexists. cbn [step withNodes _nodesMap].
  rewrite lookup_alter_eq, Hn. done.
Qed.

(** A drag end unpins an IP node. *)
Lemma dragEnd_unpins c id writable n :
  _nodesMap c !! id = Some n → Node.type n = Node.ip →
  ∃ n', _nodesMap (step hubId c (DragEnd id writable)) !! id = Some n'
        ∧ Node.fx n' = JS.Null ∧ Node.fy n' = JS.Null.
Proof.
  intros Hn Ht. eexists. cbn [step]. rewrite save_nodes.
  cbn [withNodes _nodesMap]. rewrite lookup_alter_eq, Hn. simpl.
  unfold _dragEnded. by rewrite decide_True.
Qed.

Lemma dragging_snoc id events e :
  dragging id (events ++ [e])
  = match e with
    | DragStart i | DragMove i _ _ =>
        if decide (i = id) then true else dragging id events
    | DragEnd i _ => if decide (i = id) then false else dragging id events
    | _ => dragging id events
    end.
Proof. unfold dragging. by rewrite foldl_app. Qed.

Lemma pinnedIpDragged_step events c e :
  pinnedIpDragged events c → pinnedIpDragged (events ++ [e]) (step hubId c e).
Proof.
  intros Hinv k n Hk Ht Hp. rewrite dragging_snoc.
  destruct e as [w snap|moved settled wr|id|id ex ey|id wr].
  - apply step_update_node in Hk as (n0 & Hk & ->).
    destruct (initializeNode_fields (d3_place w k) n0)
      as (_ & Hty & _ & Hfx' & Hfy').
    rewrite Hty in Ht. rewrite Hfx', Hfy' in Hp.
    apply update_lookup in Hk
      as [Hk|(_ & [[_ ->]|[(j & p & _ & _ & ->)|(_ & Hfx & Hfy)]])];
      [by eapply Hinv|done|done|].
    rewrite Hfx, Hfy in Hp. by destruct Hp.
  - rewrite step_tick_nodes, moveNodes_lookup in Hk.
    destruct (_nodesMap c !! k) as [n0|] eqn:H0; [|done].
    simpl in Hk. injection Hk as <-.
    by apply (Hinv k n0 H0).
  - cbn [step withNodes _nodesMap] in Hk.
    destruct (decide (id = k)) as [->|Hne]; [done|].
    rewrite lookup_alter_ne in Hk by done. by eapply Hinv.
  - cbn [step withNodes _nodesMap] in Hk.
    destruct (decide (id = k)) as [->|Hne]; [done|].
    rewrite lookup_alter_ne in Hk by done. by eapply Hinv.
  - cbn [step] in Hk. rewrite save_nodes in Hk. cbn [withNodes _nodesMap] in Hk.
    destruct (decide (id = k)) as [->|Hne].
    + exfalso. rewrite lookup_alter_eq in Hk.
      destruct (_nodesMap c !! k) as [n0|] eqn:H0; [|done].
      simpl in Hk. injection Hk as <-. unfold _dragEnded in *.
      destruct (decide (Node.type n0 = Node.ip)); simpl in *; [|done].
      by destruct Hp.
    + rewrite lookup_alter_ne in Hk by done. by eapply Hinv.
Qed.

Lemma pinnedIpDragged_run events : ∀ past c,
  pinnedIpDragged past c →
  pinnedIpDragged (past ++ events) (run hubId events c).
Proof.
  induction events as [|e events IH]; intros past c Hinv.
  - by rewrite app_nil_r.
  - replace (past ++ e :: events) with ((past ++ [e]) ++ events)
      by by rewrite <- app_assoc.
    apply IH. by apply pinnedIpDragged_step.
Qed.

(** C7, as the code has it.  Update cycles, simulation ticks and drag ends
    leave [fx] and [fy] of a hub or port node as they are.  A drag start
    sets [fx], [fy] of the node to its [x], [y]; an update cycle and a tick
    put every node that is pinned at numbers at its pin, and a hub or port
    node that is at its pin is left as it is by every event but a drag move
    of the node, a drag start included: it stays as it is through any
    update cycles, ticks, drag starts and drag ends for as long as it is in
    the node map.  Hence the hub stays pinned at the centre of the viewport
    of its first cycle, as long as no drag move names it.  A
    drag move, however, sets [fx] and [fy] of the dragged node to the
    pointer position whatever its kind.  After any sequence of events on a
    fresh card an IP node with a non-null [fx] or [fy] is being dragged,
    and a drag end sets [fx] and [fy] of an IP node to [null]. *)
Theorem pin_state_machine :
  (∀ c e k n n',
      (∀ id, e ≠ DragStart id) → (∀ id ex ey, e ≠ DragMove id ex ey) →
      _nodesMap c !! k = Some n → Node.type n ≠ Node.ip →
      _nodesMap (step hubId c e) !! k = Some n' →
      Node.fx n' = Node.fx n ∧ Node.fy n' = Node.fy n)
  ∧ (∀ c id n,
      _nodesMap c !! id = Some n →
      ∃ n', _nodesMap (step hubId c (DragStart id)) !! id = Some n'
            ∧ Node.fx n' = Node.x n ∧ Node.fy n' = Node.y n)
  ∧ (∀ c e k n',
      (∃ w snapshot, e = Update w snapshot)
      ∨ (∃ moved settled writable, e = Tick moved settled writable) →
      _nodesMap (step hubId c e) !! k = Some n' → pinnedAt n' →
      Node.x n' = Node.fx n' ∧ Node.y n' = Node.fy n')
  ∧ (∀ c e k n n',
      (∀ ex ey, e ≠ DragMove k ex ey) →
      _nodesMap c !! k = Some n → Node.type n ≠ Node.ip →
      pinnedAt n → Node.x n = Node.fx n → Node.y n = Node.fy n →
      _nodesMap (step hubId c e) !! k = Some n' → n' = n)
  ∧ (∀ events c k n,
      (∀ ex ey, DragMove k ex ey ∉ events) →
      _nodesMap c !! k = Some n → Node.type n ≠ Node.ip →
      pinnedAt n → Node.x n = Node.fx n → Node.y n = Node.fy n →
      (∀ past, past `prefix_of` events →
               is_Some (_nodesMap (run hubId past c) !! k)) →
      _nodesMap (run hubId events c) !! k = Some n)
  ∧ (∀ (w : Window) S events stored,
      is_nan (innerWidth w / 2) = false → is_nan (innerHeight w / 2) = false →
      (∀ ex ey, DragMove hubId ex ey ∉ events) →
      ∃ h, _nodesMap (run hubId (Update w S :: events) (constructor stored))
             !! hubId = Some h
           ∧ Node.type h = Node.hub
           ∧ Node.fx h = JS.Num (innerWidth w / 2)%float
           ∧ Node.fy h = JS.Num (innerHeight w / 2)%float)
  ∧ (∀ c id ex ey n,
      _nodesMap c !! id = Some n →
      ∃ n', _nodesMap (step hubId c (DragMove id ex ey)) !! id = Some n'
            ∧ Node.fx n' = JS.Num ex ∧ Node.fy n' = JS.Num ey)
  ∧ (∀ events stored k n,
      _nodesMap (run hubId events (constructor stored)) !! k = Some n →
      Node.type n = Node.ip →
      JS.notNull (Node.fx n) = true ∨ JS.notNull (Node.fy n) = true →
      dragging k events = true)
  ∧ (∀ c id writable n,
      _nodesMap c !! id = Some n → Node.type n = Node.ip →
      ∃ n', _nodesMap (step hubId c (DragEnd id writable)) !! id = Some n'
            ∧ Node.fx n' = JS.Null ∧ Node.fy n' = JS.Null).
Proof.
  split; [|split; [|split; [|split; [|split; [|split; [|split; [|split]]]]]]].
  - intros c e k n n' Hs Hm Hk Ht Hk'.
    by destruct (step_keeps_pin c e k n n' Hs Hm Hk Ht Hk') as (_ & ? & ?).
  - intros c id n Hn.
    destruct (dragStart_pins c id n Hn) as (n' & ? & _ & ? & ?). eauto.
  - intros c e k n' He Hk Hpin. by apply (settles c e k n' He Hk Hpin).
  - intros c e k n n' Hm Hk Ht Hpin Hx Hy Hk'.
    by apply (settled_step c e k n n' Hm Hk Ht Hpin).
  - intros events c k n Hno Hk Ht Hpin Hx Hy Hlife.
    apply settled_run; [|done..].
    intros (ex & ey & Hin). by apply (Hno ex ey).
  - intros w S events stored Hx Hy Hno.
    exists (Node.mk hubId Node.hub None
              (JS.Num (innerWidth w / 2)) (JS.Num (innerHeight w / 2))
              (JS.Num (innerWidth w / 2)) (JS.Num (innerHeight w / 2))).
    split; [|done].
    change (run hubId (Update w S :: events) (constructor stored))
      with (run hubId events (step hubId (constructor stored) (Update w S))).
    apply hub_settled_run.
    + intros (ex & ey & Hin). by apply (Hno ex ey).
    + rewrite step_update_lookup, update_hub.
      cbn [constructor _nodesMap]. rewrite lookup_empty. simpl.
      unfold initializeNode, hubNode, centerX, centerY. simpl.
      by rewrite Hx, Hy.
    + done.
    + by exists (innerWidth w / 2)%float, (innerHeight w / 2)%float.
    + done.
  - intros c id ex ey n Hn.
    destruct (dragMove_pins c id ex ey n Hn) as (n' & ? & _ & ? & ?). eauto.
  - intros events stored k n.
    apply (pinnedIpDragged_run events [] (constructor stored)).
    intros k' n' Hk'. cbn [constructor _nodesMap] in Hk'.
    by rewrite lookup_empty in Hk'.
  - apply dragEnd_unpins.
Qed.

End Pins.

(** C7, the claim as written fails on a hub that is dragged: after an update
    on a 800 by 600 viewport the hub is pinned at (400, 300); a drag start
    leaves it there, and a drag of the hub to (100, 200) leaves it pinned
    at (100, 200) after the drag has ended. *)
Lemma dragged_hub_moves :
  let created := run defaultHub [Update (viewport 800 600) scenarioA]
                   (constructor None) in
  let started := run defaultHub [DragStart defaultHub] created in
  let after := run defaultHub
                 [DragMove defaultHub 100 200; DragEnd defaultHub true]
                 started in
  (Node.type <$> _nodesMap created !! defaultHub) = Some Node.hub
  ∧ (Node.fx <$> _nodesMap created !! defaultHub) = Some (JS.Num 400)
  ∧ (Node.fy <$> _nodesMap created !! defaultHub) = Some (JS.Num 300)
  ∧ (Node.fx <$> _nodesMap started !! defaultHub) = Some (JS.Num 400)
  ∧ (Node.fy <$> _nodesMap started !! defaultHub) = Some (JS.Num 300)
  ∧ (Node.fx <$> _nodesMap after !! defaultHub) = Some (JS.Num 100)
  ∧ (Node.fy <$> _nodesMap after !! defaultHub) = Some (JS.Num 200)
  ∧ JS.Num 400 ≠ JS.Num 100.
Proof.
  cbv zeta. repeat (split; [vm_compute; reflexivity|]).
  intros H. apply (f_equal (λ v, PrimFloat.eqb (JS.toNumber v) 400)) in H.
  vm_compute in H. discriminate.
Qed.

Lemma pin_state_machine_witness :
  is_nan (innerWidth (viewport 800 600) / 2) = false
  ∧ is_nan (innerHeight (viewport 800 600) / 2) = false
  ∧ (∀ ex ey, DragMove defaultHub ex ey
              ∉ [DragStart defaultHub; Tick ∅ true true;
                 DragEnd defaultHub true; Update (viewport 640 480) twoTargets;
                 DragStart defaultHub])
  ∧ ∃ h, _nodesMap (run defaultHub
                      (Update (viewport 800 600) scenarioA
                       :: [DragStart defaultHub; Tick ∅ true true;
                           DragEnd defaultHub true;
                           Update (viewport 640 480) twoTargets;
                           DragStart defaultHub])
                      (constructor None)) !! defaultHub = Some h
         ∧ Node.type h = Node.hub
         ∧ Node.fx h = JS.Num (innerWidth (viewport 800 600) / 2)%float
         ∧ Node.fy h = JS.Num (innerHeight (viewport 800 600) / 2)%float.
Proof.
  assert (is_nan (innerWidth (viewport 800 600) / 2) = false) as Hx
    by reflexivity.
  assert (is_nan (innerHeight (viewport 800 600) / 2) = false) as Hy
    by reflexivity.
  assert (∀ ex ey, DragMove defaultHub ex ey
              ∉ [DragStart defaultHub; Tick ∅ true true;
                 DragEnd defaultHub true; Update (viewport 640 480) twoTargets;
                 DragStart defaultHub]) as Hno.
  { intros ex ey Hin. repeat (apply elem_of_cons in Hin as [Hin|Hin]; [done|]).
    by apply elem_of_nil in Hin. }
  split; [exact Hx|]. split; [exact Hy|]. split; [exact Hno|].
  exact (proj1 (proj2 (proj2 (proj2 (proj2 (proj2
                  (pin_state_machine defaultHub))))))
           (viewport 800 600) scenarioA _ None Hx Hy Hno).
Defined.

(** ** The star layout *)

Lemma distinct_elem ports : ∀ seen p,
  p ∈ distinct seen ports ↔ p ∈ ports ∧ p ∉ seen.
Proof.
  induction ports as [|q ports IH]; intros seen p; simpl.
  - rewrite elem_of_nil. tauto.
  - destruct (decide (q ∈ seen)) as [Hq|Hq].
    + rewrite IH, elem_of_cons. split; [tauto|].
      intros [[->|Hp] Hn]; [done|tauto].
    + rewrite !elem_of_cons, IH, elem_of_cons.
      destruct (decide (p = q)) as [->|Hne]; tauto.
Qed.

Lemma distinct_NoDup ports : ∀ seen, NoDup (distinct seen ports).
Proof.
  induction ports as [|q ports IH]; intros seen; simpl; [constructor|].
  destruct (decide (q ∈ seen)); [apply IH|].
  constructor; [|apply IH].
  rewrite distinct_elem. intros [_ Hn]. apply Hn. left.
Qed.

Lemma uniquePorts_elem (connections : list Conn.t) p :
  p ∈ uniquePorts connections ↔ ∃ c, c ∈ connections ∧ Conn.port c = p.
Proof.
  unfold uniquePorts. rewrite distinct_elem, list_elem_of_fmap. split.
  - intros [(c & -> & Hc) _]. eauto.
  - intros (c & Hc & <-). split; [eauto|]. intros H. by apply elem_of_nil in H.
Qed.

Lemma uniquePorts_NoDup (connections : list Conn.t) :
  NoDup (uniquePorts connections).
Proof. apply distinct_NoDup. Qed.

Lemma string_app_inj (s a b : string) : s +:+ a = s +:+ b → a = b.
Proof. induction s as [|ch s IH]; simpl; [done|]. intros [= H]. by apply IH. Qed.

Global Instance portNodeId_inj : Inj (=) (=) portNodeId.
Proof.
  intros p q H. unfold portNodeId in H.
  apply string_app_inj in H. by apply (inj pretty) in H.
Qed.

(** A port without a node gets the node of its index. *)
Lemma placePorts_new w (ports : list N) (nodes : gmap string Node.t) i p :
  NoDup ports → ports !! i = Some p → nodes !! portNodeId p = None →
  placePorts w 0 ports nodes !! portNodeId p = Some (portNode w i p).
Proof.
  intros Hnd Hi Hnone.
  destruct (placePorts_is_Some w ports 0 nodes p) as [n Hn].
  { eapply list_elem_of_lookup_2. exact Hi. }
  rewrite Hn. f_equal.
  apply placePorts_lookup in Hn as [Hn|(_ & j & q & Hj & Heq & ->)]; [congruence|].
  apply (inj portNodeId) in Heq as <-.
  by rewrite (NoDup_lookup ports i j p Hnd Hi Hj).
Qed.

(** C4, as the code has it: the port at index [i] of the distinct ports of
    the snapshot, when no node is stored under its id, is created pinned at
    the center [(w/2, h/2)] of the viewport of the cycle plus
    [(cos a, sin a)] times [r], with [a = (2π/8)·(i mod 8)] and
    [r = (min(w, h)·0.3 + floor(i/8)·150)] times [1] when [i mod 8] is even
    and [0.5] when it is odd; a node already stored under its id is left as
    it is. *)
Theorem star_layout (w : Window) (connections : list Conn.t)
    (nodes : gmap string Node.t) (i : nat) (p : N) :
  uniquePorts connections !! i = Some p →
  (nodes !! portNodeId p = None →
   ∃ n, placePorts w 0 (uniquePorts connections) nodes !! portNodeId p = Some n
        ∧ Node.type n = Node.port
        ∧ Node.fx n
          = JS.Num (innerWidth w / 2
                    + Math_cos w (2 * JS.Math_PI / 8 * JS.num (i mod 8))
                      * ((JS.Math_min (innerWidth w) (innerHeight w)
                            * 0x1.3333333333333p-2
                          + JS.num (i / 8) * 150)
                         * (if Nat.even (i mod 8) then 1 else 0.5)))%float
        ∧ Node.fy n
          = JS.Num (innerHeight w / 2
                    + Math_sin w (2 * JS.Math_PI / 8 * JS.num (i mod 8))
                      * ((JS.Math_min (innerWidth w) (innerHeight w)
                            * 0x1.3333333333333p-2
                          + JS.num (i / 8) * 150)
                         * (if Nat.even (i mod 8) then 1 else 0.5)))%float)
  ∧ (∀ n, nodes !! portNodeId p = Some n →
          placePorts w 0 (uniquePorts connections) nodes !! portNodeId p = Some n).
Proof.
  intros Hi. split; [|intros n; apply placePorts_preserve].
  intros Hnone. exists (portNode w i p).
  split; [by apply placePorts_new; [apply uniquePorts_NoDup|..]|].
  cbn [Nat.add portNode Node.type Node.fx Node.fy].
  unfold portX, portY, centerX, centerY, starRadius, ringBase, baseRadius,
    angle, isOuter, ringIndex, starIndex, starOuterRatio, starInnerRatio,
    ringSpacing, portsPerStar.
  assert (Nat.eqb ((i mod 8) mod 2) 0 = Nat.even (i mod 8)) as ->.
  { generalize (i mod 8). intros m.
    destruct (Nat.even m) eqn:He.
    - apply Nat.even_spec in He as [k ->]. apply Nat.eqb_eq.
      rewrite Nat.mul_comm. apply Nat.Div0.mod_mul.
    - apply Nat.eqb_neq. intros Hm. apply Nat.Div0.mod_divides in Hm as [k ->].
      rewrite Nat.even_mul in He. done. }
  split; [done|]. split; [|by destruct (Nat.even (i mod 8))].
  by destruct (Nat.even (i mod 8)).
Qed.

Lemma star_layout_witness :
  uniquePorts scenarioA !! 0 = Some 443%N
  ∧ ensureHub defaultHub (viewport 800 600) ∅ !! portNodeId 443 = None
  ∧ ∃ n, placePorts (viewport 800 600) 0 (uniquePorts scenarioA)
           (ensureHub defaultHub (viewport 800 600) ∅) !! portNodeId 443 = Some n
         ∧ Node.type n = Node.port.
Proof.
  assert (uniquePorts scenarioA !! 0 = Some 443%N) as Hi by reflexivity.
  assert (ensureHub defaultHub (viewport 800 600) ∅ !! portNodeId 443 = None)
    as Hnone by reflexivity.
  split; [exact Hi|]. split; [exact Hnone|].
  destruct (proj1 (star_layout (viewport 800 600) scenarioA
                     (ensureHub defaultHub (viewport 800 600) ∅) 0 443 Hi)
              Hnone) as (n & Hn & Ht & _).
  exists n. split; [exact Hn|exact Ht].
Defined.

(** C4, the claim as written fails when the viewport has changed since the
    hub was created: the hub, created on a 800 by 600 viewport, stays pinned
    at (400, 300); the port created in a later cycle on a 1000 by 1000
    viewport is pinned at (800, 500), that is the center of that viewport
    plus the radius 300, not at the hub plus the radius, (700, 300). *)
Lemma port_placed_off_hub :
  let c := Delta.updates defaultHub
             [(viewport 800 600, []); (viewport 1000 1000, scenarioA)]
             (constructor None) in
  (Node.fx <$> _nodesMap c !! defaultHub) = Some (JS.Num 400)
  ∧ (Node.fy <$> _nodesMap c !! defaultHub) = Some (JS.Num 300)
  ∧ (Node.fx <$> _nodesMap c !! portNodeId 443) = Some (JS.Num 800)
  ∧ (Node.fy <$> _nodesMap c !! portNodeId 443) = Some (JS.Num 500)
  ∧ (400 + sampleCos (angle 0) * starRadius (viewport 1000 1000) 0 = 700)%float
  ∧ (300 + sampleSin (angle 0) * starRadius (viewport 1000 1000) 0 = 300)%float
  ∧ JS.Num 800 ≠ JS.Num 700.
Proof.
  cbv zeta. repeat (split; [vm_compute; reflexivity|]).
  intros H. apply (f_equal (λ v, PrimFloat.eqb (JS.toNumber v) 800)) in H.
  vm_compute in H. discriminate.
Qed.

(** ** The position store *)

Lemma applyPosition_fields pos n :
  Node.x (applyPosition pos n) = restoredField (Pos.x pos) (Node.x n)
  ∧ Node.y (applyPosition pos n) = restoredField (Pos.y pos) (Node.y n)
  ∧ Node.fx (applyPosition pos n) = restoredField (Pos.fx pos) (Node.fx n)
  ∧ Node.fy (applyPosition pos n) = restoredField (Pos.fy pos) (Node.fy n)
  ∧ Node.id (applyPosition pos n) = Node.id n
  ∧ Node.type (applyPosition pos n) = Node.type n
  ∧ Node.label (applyPosition pos n) = Node.label n.
Proof.
  destruct pos as [px py pfx pfy]. unfold applyPosition. cbn [Pos.x Pos.y Pos.fx Pos.fy].
  destruct px; destruct py; destruct pfx; destruct pfy; done.
Qed.

Lemma roundTrip_jsonField saved live :
  roundTrip saved live (restoredField (jsonField saved) live).
Proof.
  destruct saved as [| |v]; simpl; [done|done|].
  unfold isFinite. destruct (PrimFloat.is_nan v || PrimFloat.is_infinity v)%bool;
    simpl; [done|].
  destruct (PrimFloat.eqb v 0) eqn:Hz; simpl; auto.
Qed.

Lemma save_restore_nodes (c : card) fresh links prev flag :
  _nodesMap (_restoreNodePositions
               (mkCard fresh links prev flag
                  (localStorage (_saveNodePositions true c))))
  = restoreInto (positionOf <$> _nodesMap c) fresh.
Proof. done. Qed.

(** C8, as the code has it: after a successful save of the node map of [c]
    and a restore into a fresh node map, a node whose id is in both has, in
    each of [x], [y], [fx], [fy], the saved number when the saved field held
    a finite number (the zero [0] when it held a zero of either sign), and
    its own value otherwise; in a restore from any
    stored record, a stored field that is not a number leaves the field of
    the live node as it is, and a node without a stored record is left as it
    is. *)
Theorem persistence_round_trip :
  (∀ (c : card) (fresh : gmap string Node.t) links prev flag id n m,
      _nodesMap c !! id = Some n → fresh !! id = Some m →
      ∃ r, _nodesMap (_restoreNodePositions
                        (mkCard fresh links prev flag
                           (localStorage (_saveNodePositions true c))))
             !! id = Some r
           ∧ roundTrip (Node.x n) (Node.x m) (Node.x r)
           ∧ roundTrip (Node.y n) (Node.y m) (Node.y r)
           ∧ roundTrip (Node.fx n) (Node.fx m) (Node.fx r)
           ∧ roundTrip (Node.fy n) (Node.fy m) (Node.fy r))
  ∧ (∀ (saved : gmap string Pos.t) (live : gmap string Node.t) id pos m,
      saved !! id = Some pos → live !! id = Some m →
      ∃ r, restoreInto saved live !! id = Some r
           ∧ Node.x r = restoredField (Pos.x pos) (Node.x m)
           ∧ Node.y r = restoredField (Pos.y pos) (Node.y m)
           ∧ Node.fx r = restoredField (Pos.fx pos) (Node.fx m)
           ∧ Node.fy r = restoredField (Pos.fy pos) (Node.fy m))
  ∧ (∀ (saved : gmap string Pos.t) (live : gmap string Node.t) id,
      saved !! id = None → restoreInto saved live !! id = live !! id).
Proof.
  split; [|split].
  - intros c fresh links prev flag id n m Hn Hm.
    rewrite save_restore_nodes, restoreInto_lookup, Hm, lookup_fmap, Hn.
    eexists. split; [done|]. simpl.
    destruct (applyPosition_fields (positionOf n) m) as (-> & -> & -> & -> & _).
    cbn [positionOf Pos.x Pos.y Pos.fx Pos.fy].
    repeat split; apply roundTrip_jsonField.
  - intros saved live id pos m Hpos Hm.
    rewrite restoreInto_lookup, Hm, Hpos. eexists. split; [done|].
    destruct (applyPosition_fields pos m) as (-> & -> & -> & -> & _). done.
  - intros saved live id Hnone. rewrite restoreInto_lookup, Hnone.
    by destruct (live !! id).
Qed.

Lemma persistence_round_trip_witness :
  ∃ r, _nodesMap (_restoreNodePositions
                    (mkCard {["10.0.0.2" := ipNode "10.0.0.2"]} [] [] false
                       (localStorage
                          (_saveNodePositions true
                             (mkCard {["10.0.0.2" := releasedIp]} [] [] false None)))))
         !! "10.0.0.2" = Some r
       ∧ roundTrip (Node.x releasedIp) (Node.x (ipNode "10.0.0.2")) (Node.x r)
       ∧ Node.x r = JS.Num 100.
Proof.
  assert (_nodesMap (mkCard {["10.0.0.2" := releasedIp]} [] [] false None)
            !! "10.0.0.2" = Some releasedIp) as Hn by reflexivity.
  assert (({["10.0.0.2" := ipNode "10.0.0.2"]} : gmap string Node.t)
            !! "10.0.0.2" = Some (ipNode "10.0.0.2")) as Hm by reflexivity.
  destruct (proj1 persistence_round_trip
              (mkCard {["10.0.0.2" := releasedIp]} [] [] false None)
              {["10.0.0.2" := ipNode "10.0.0.2"]} [] [] false
              "10.0.0.2" releasedIp (ipNode "10.0.0.2") Hn Hm)
    as (r & Hr & Hx & _).
  exists r. split; [exact Hr|]. split; [exact Hx|].
  vm_compute in Hr. injection Hr as <-. reflexivity.
Defined.

(** C8, the claim as written fails on a number that is not finite: a node
    whose [x] is [Infinity] is saved, and [JSON.stringify] writes the field
    as [null]; restored into a fresh node of that id at [x = 100], the node
    has [x = 100], the value of the fresh node, not the saved one, while
    the finite [y = 200] comes back. *)
Lemma infinite_position_not_restored :
  let strayed := Node.mk "10.0.0.2" Node.ip None (JS.Num infinity) (JS.Num 200)
                   JS.Undefined JS.Undefined in
  let fresh := Node.set_xy (JS.Num 100) (JS.Num 50) (ipNode "10.0.0.2") in
  let stored := localStorage
                  (_saveNodePositions true
                     (mkCard {["10.0.0.2" := strayed]} [] [] false None)) in
  let restored := _nodesMap (_restoreNodePositions
                               (mkCard {["10.0.0.2" := fresh]} [] [] false
                                  stored)) in
  (Pos.x <$> (stored ≫= (.!! "10.0.0.2"))) = Some JS.JNull
  ∧ (Node.x <$> restored !! "10.0.0.2") = Some (JS.Num 100)
  ∧ (Node.y <$> restored !! "10.0.0.2") = Some (JS.Num 200)
  ∧ PrimFloat.eqb infinity 100 = false
  ∧ JS.Num infinity ≠ JS.Num 100.
Proof.
  cbv zeta. repeat (split; [vm_compute; reflexivity|]).
  intros H. apply (f_equal (λ v, PrimFloat.eqb (JS.toNumber v) 100)) in H.
  vm_compute in H. discriminate.
Qed.

(** ** Reading the persisted positions *)

Lemma Delta_update_sameGraph hubId w S c c' :
  sameGraph c c' →
  sameGraph (Delta._deltaUpdate hubId w S c) (Delta._deltaUpdate hubId w S c').
Proof.
  intros (Hn & Hl & Hp). unfold Delta._deltaUpdate. by rewrite Hn, Hl, Hp.
Qed.

Lemma Delta_updates_sameGraph hubId cycles : ∀ c c',
  sameGraph c c' →
  sameGraph (Delta.updates hubId cycles c) (Delta.updates hubId cycles c').
Proof.
  induction cycles as [|[w S] cycles IH]; intros c c' Hc; [done|].
  rewrite !updates_cons. by apply IH, Delta_update_sameGraph.
Qed.

Lemma Delta_updates_flag hubId cycles : ∀ c,
  _positionsRestored (Delta.updates hubId cycles c) = _positionsRestored c
  ∧ localStorage (Delta.updates hubId cycles c) = localStorage c.
Proof.
  induction cycles as [|[w S] cycles IH]; intros c; [done|].
  rewrite updates_cons. by destruct (IH (Delta._deltaUpdate hubId w S c)) as [-> ->].
Qed.

(** The earlier card reads the store in its first update and applies the
    stored numbers to the nodes of that cycle, before the node map is handed
    to the simulation; a card that has restored does not read the store
    again. *)
Lemma Rebuild_restores_once hubId w S :
  (∀ saved,
      _nodesMap (Rebuild._deltaUpdate hubId w S (constructor (Some saved)))
      = restoreInto saved
          (_nodesMap (Rebuild._deltaUpdate hubId w S (constructor None)))
      ∧ _positionsRestored
          (Rebuild._deltaUpdate hubId w S (constructor (Some saved))) = true)
  ∧ (∀ c, _positionsRestored c = true →
          _positionsRestored (Rebuild._deltaUpdate hubId w S c) = true
          ∧ ∀ stored,
              _nodesMap (Rebuild._deltaUpdate hubId w S c)
              = _nodesMap (Rebuild._deltaUpdate hubId w S
                             (mkCard (_nodesMap c) (_links c) (_prevConnections c)
                                     true stored))).
Proof.
  split.
  - intros saved. done.
  - intros c Hc. unfold Rebuild._deltaUpdate, Rebuild.restoreOnce.
    cbn [Rebuild._syncNodesAndLinks _positionsRestored _nodesMap _links
         _prevConnections localStorage].
    rewrite Hc. done.
Qed.

(** C6 (the defect and the sibling path): the current card never reads the
    store: whatever the store holds, the update cycles give the graph they
    give with an empty store, and [_positionsRestored] stays [false].  With
    a stored pin (120, 80) for the hub, the first update on a 800 by 600
    viewport leaves the hub at (400, 300) on the current card, and at
    (120, 80) on the earlier card, which restores once, in its first
    update. *)
Theorem positions_never_read :
  (∀ hubId cycles stored,
      sameGraph (Delta.updates hubId cycles (constructor stored))
                (Delta.updates hubId cycles (constructor None))
      ∧ _positionsRestored (Delta.updates hubId cycles (constructor stored))
        = false)
  ∧ (Node.fx <$> _nodesMap (Delta._deltaUpdate defaultHub (viewport 800 600)
                              scenarioA (constructor (Some storedHub)))
                 !! defaultHub) = Some (JS.Num 400)
  ∧ (Node.fy <$> _nodesMap (Delta._deltaUpdate defaultHub (viewport 800 600)
                              scenarioA (constructor (Some storedHub)))
                 !! defaultHub) = Some (JS.Num 300)
  ∧ (Node.fx <$> _nodesMap (Rebuild._deltaUpdate defaultHub (viewport 800 600)
                              scenarioA (constructor (Some storedHub)))
                 !! defaultHub) = Some (JS.Num 120)
  ∧ (Node.fy <$> _nodesMap (Rebuild._deltaUpdate defaultHub (viewport 800 600)
                              scenarioA (constructor (Some storedHub)))
                 !! defaultHub) = Some (JS.Num 80).
Proof.
  split.
  - intros hubId cycles stored. split.
    + by apply Delta_updates_sameGraph.
    + by destruct (Delta_updates_flag hubId cycles (constructor stored)) as [-> _].
  - repeat split; vm_compute; reflexivity.
Qed.

(** ** Well-formed addresses *)

Lemma ipString_cons ch s : ipString (String ch s) → ipChar ch = true ∧ ipString s.
Proof. unfold ipString. simpl. by intros [??]%andb_prop. Qed.

Lemma ip_dash_split (a b x y : string) :
  ipString a → ipString b →
  a +:+ String "-"%char x = b +:+ String "-"%char y → a = b ∧ x = y.
Proof.
  revert b. induction a as [|ch a IH]; intros [|ch' b] Ha Hb; simpl.
  - by intros [= ->].
  - intros [= <- _]. by apply ipString_cons in Hb as [? _].
  - intros [= -> _]. by apply ipString_cons in Ha as [? _].
  - intros [= -> H]. apply ipString_cons in Ha as [_ Ha].
    apply ipString_cons in Hb as [_ Hb].
    destruct (IH b Ha Hb H) as [-> ->]. done.
Qed.

Lemma ip_not_port_prefix (b x y : string) :
  ipString b → "port-" +:+ x ≠ b +:+ String "-"%char y.
Proof.
  intros Hb. destruct b as [|ch b]; simpl; [done|].
  intros [= <- _]. by apply ipString_cons in Hb as [? _].
Qed.

Lemma ip_not_portNodeId s q : ipString s → s ≠ portNodeId q.
Proof.
  intros Hs ->. unfold portNodeId in Hs. simpl in Hs.
  by apply ipString_cons in Hs as [? _].
Qed.

Lemma string_app_assoc (a b c : string) : (a +:+ b) +:+ c = a +:+ (b +:+ c).
Proof.
  induction a as [|ch a IH]; [done|].
  change (String ch ((a +:+ b) +:+ c) = String ch (a +:+ (b +:+ c))).
  by rewrite IH.
Qed.

(** ** The shape of the links *)

Section Shapes.
Variable hubId : string.
Hypothesis hub_wf : ipString hubId.

(** Only the hub link of a port reads as the hub link of that port. *)
Lemma hubKey_shape P l p :
  linkShape P l → linkKey l = hubKey hubId p →
  l = Link.mk hubId (portNodeId p) ∧ P p.
Proof.
  unfold linkKey, hubKey.
  intros [(q & HP & Ht & Hs)|(q & Hsrc)] Hkey.
  - rewrite Ht in Hkey.
    apply (ip_dash_split (Link.source l) hubId) in Hkey as [Hsrc Heq]; [|done..].
    injection Heq as Heq. apply string_app_inj in Heq.
    apply (inj pretty) in Heq as ->.
    destruct l as [s t]. simpl in *. by subst.
  - exfalso. rewrite Hsrc in Hkey. unfold portNodeId in Hkey at 1.
    rewrite string_app_assoc in Hkey.
    by apply (ip_not_port_prefix hubId) in Hkey.
Qed.

Lemma ipLinkOf_shape nodes conn l :
  wfConn conn → ipLinkOf nodes conn l → linkShape (λ q, q = Conn.port conn) l.
Proof.
  intros [Hs Ht] [[-> _]|[-> _]]; [left|right]; eauto.
Qed.

Lemma linkShape_weaken (P Q : N → Prop) l :
  (∀ q, P q → Q q) → linkShape P l → linkShape Q l.
Proof. intros HPQ [(q & HP & ? & ?)|?]; [left|right]; eauto. Qed.

(** Where a link of the card after a cycle comes from. *)
Lemma update_links_origin w S c l :
  l ∈ _links (Delta._deltaUpdate hubId w S c) →
  l ∈ _links c
  ∨ (∃ conn, conn ∈ Delta.addedConnections (_prevConnections c) (dropLoopback S)
             ∧ ipLinkOf (built hubId w (dropLoopback S) c).1.1 conn l)
  ∨ (∃ q, q ∈ uniquePorts (dropLoopback S) ∧ l = Link.mk hubId (portNodeId q)).
Proof.
  unfold Delta._deltaUpdate. cbn [_links]. fold (built hubId w (dropLoopback S) c).
  destruct (ensureHubLinks_app hubId (uniquePorts (dropLoopback S))
              (foldl Delta.removeLinks (built hubId w (dropLoopback S) c).1.2
                 (Delta.removedConnections (_prevConnections c) (dropLoopback S))))
    as (new & -> & Hnew).
  intros Hl. apply elem_of_app in Hl as [Hl|Hl].
  - apply removeLinks_all in Hl as [Hl _]. unfold built in Hl.
    destruct (connects_links w
                (Delta.addedConnections (_prevConnections c) (dropLoopback S))
                (placePorts w 0 (uniquePorts (dropLoopback S))
                   (ensureHub hubId w (_nodesMap c)), _links c, 0))
      as (ipl & Heq & Hipl).
    rewrite Heq in Hl. cbn [fst snd] in Hl.
    apply elem_of_app in Hl as [Hl|Hl]; [by left|].
    right. left. by apply Hipl.
  - right. right. by apply Hnew.
Qed.

Lemma added_subset prev connections conn :
  conn ∈ Delta.addedConnections prev connections → conn ∈ connections.
Proof. unfold Delta.addedConnections. rewrite list_elem_of_filter. tauto. Qed.

(** A cycle keeps the shape of the links when the tuples of its snapshot
    are well formed. *)
Lemma update_links_shape w S c (P : N → Prop) l :
  (∀ conn, conn ∈ dropLoopback S → wfConn conn ∧ P (Conn.port conn)) →
  (∀ l', l' ∈ _links c → linkShape P l') →
  l ∈ _links (Delta._deltaUpdate hubId w S c) → linkShape P l.
Proof.
  intros Hwf Hold Hl.
  apply update_links_origin in Hl as [Hl|[(conn & Hc & Hl)|(q & Hq & ->)]].
  - by apply Hold.
  - apply added_subset in Hc. destruct (Hwf conn Hc) as [Hw HP].
    eapply linkShape_weaken; [|by eapply ipLinkOf_shape]. by intros q ->.
  - left. exists q. split; [|done].
    apply uniquePorts_elem in Hq as (conn & Hc & <-). by apply Hwf.
Qed.

(** After a cycle every port of the snapshot has its node, provided the
    links have the shape above. *)
Lemma update_port_present w S c (P : N → Prop) q :
  (∀ l, l ∈ _links (Delta._deltaUpdate hubId w S c) → linkShape P l) →
  q ∈ uniquePorts (dropLoopback S) →
  is_Some (_nodesMap (Delta._deltaUpdate hubId w S c) !! portNodeId q).
Proof.
  intros Hshape Hq.
  assert (is_Some ((built hubId w (dropLoopback S) c).1.1 !! portNodeId q))
    as [n Hn].
  { destruct (placePorts_is_Some w (uniquePorts (dropLoopback S)) 0
                (ensureHub hubId w (_nodesMap c)) q Hq) as [n Hn].
    exists n. by apply connects_preserve. }
  exists n. rewrite update_nodes. apply prune_lookup. split; [done|].
  apply usedNodeIds_spec. right.
  assert (hubKey hubId q ∈ linkKey <$> _links (Delta._deltaUpdate hubId w S c))
    as Hkey by by apply ensureHubLinks_post.
  apply list_elem_of_fmap in Hkey as (l & Hkey & Hl).
  exists l. split; [done|]. right.
  symmetry in Hkey. by destruct (hubKey_shape P l q (Hshape l Hl) Hkey) as [-> _].
Qed.

Lemma ensureHubLinks_one ports : ∀ links p,
  p ∈ ports →
  (∀ q, q ∈ ports → q ≠ p → hubKey hubId q ∈ linkKey <$> links) →
  hubKey hubId p ∉ linkKey <$> links →
  foldl (Delta.ensureHubLink hubId) links ports
  = links ++ [Link.mk hubId (portNodeId p)].
Proof.
  induction ports as [|q ports IH]; intros links p Hp Hothers Hnot.
  - by apply elem_of_nil in Hp.
  - simpl. destruct (decide (q = p)) as [->|Hne].
    + unfold Delta.ensureHubLink at 2. rewrite decide_False by done.
      apply ensureHubLinks_id. intros q Hq. rewrite fmap_app.
      destruct (decide (q = p)) as [->|Hne].
      * apply elem_of_app. right. apply list_elem_of_singleton. done.
      * apply elem_of_app. left. apply Hothers; [by right|done].
    + unfold Delta.ensureHubLink at 2. rewrite decide_True.
      * apply elem_of_cons in Hp as [->|Hp]; [done|].
        apply IH; [done| |done]. intros q' Hq'. apply Hothers. by right.
      * apply Hothers; [left|done].
Qed.

End Shapes.

(** ** A tuple with a new port *)

Lemma update_links w hubId S c :
  _links (Delta._deltaUpdate hubId w S c)
  = foldl (Delta.ensureHubLink hubId)
      (foldl Delta.removeLinks (built hubId w (dropLoopback S) c).1.2
         (Delta.removedConnections (_prevConnections c) (dropLoopback S)))
      (uniquePorts (dropLoopback S)).
Proof. done. Qed.

Lemma built_links w hubId conns c :
  ∃ ipl, (built hubId w conns c).1.2 = _links c ++ ipl
         ∧ ∀ l, l ∈ ipl →
             ∃ conn, conn ∈ Delta.addedConnections (_prevConnections c) conns
                     ∧ ipLinkOf (built hubId w conns c).1.1 conn l.
Proof.
  unfold built.
  destruct (connects_links w (Delta.addedConnections (_prevConnections c) conns)
              (placePorts w 0 (uniquePorts conns)
                 (ensureHub hubId w (_nodesMap c)), _links c, 0))
    as (ipl & Heq & Hipl).
  exists ipl. split; [exact Heq|exact Hipl].
Qed.

(** The key under which a node of the built map is stored. *)
Lemma built_keys w hubId conns c k n :
  (built hubId w conns c).1.1 !! k = Some n →
  _nodesMap c !! k = Some n
  ∨ k = hubId
  ∨ (∃ q, q ∈ uniquePorts conns ∧ k = portNodeId q)
  ∨ (∃ conn, conn ∈ conns ∧ (k = Conn.source conn ∨ k = Conn.target conn)).
Proof.
  unfold built. intros Hk.
  apply connects_lookup in Hk as [Hk|(_ & _ & conn & Hc & Hor)].
  - simpl in Hk.
    apply placePorts_lookup in Hk as [Hk|(_ & j & q & Hj & -> & _)].
    + apply ensureHub_lookup in Hk as [Hk|(_ & -> & _)]; auto.
    + right. right. left. exists q. split; [|done].
      eapply list_elem_of_lookup_2. exact Hj.
  - right. right. right. exists conn. split; [|done].
    by apply added_subset in Hc.
Qed.

Section NewPort.
Variable hubId : string.
Hypothesis hub_wf : ipString hubId.
Variables (w1 w2 : Window) (stored : option (gmap string Pos.t)).
Variables (A B : list Conn.t) (t : Conn.t).
Hypothesis snapshot_wf : ∀ conn, conn ∈ A ++ t :: B → wfConn conn.
Hypothesis t_kept : notLoopback t.
Hypothesis port_new : ∀ conn, conn ∈ A ++ B → Conn.port conn ≠ Conn.port t.

Lemma first_subset conn : conn ∈ dropLoopback (A ++ B) → conn ∈ A ++ B.
Proof. intros Hc. by apply dropLoopback_sound in Hc as [? _]. Qed.

Lemma first_in_second conn :
  conn ∈ dropLoopback (A ++ B) → conn ∈ dropLoopback (A ++ t :: B).
Proof.
  unfold dropLoopback. rewrite !list_elem_of_filter, !elem_of_app, elem_of_cons.
  tauto.
Qed.

Lemma second_cases conn :
  conn ∈ dropLoopback (A ++ t :: B) → conn = t ∨ conn ∈ dropLoopback (A ++ B).
Proof.
  unfold dropLoopback. rewrite !list_elem_of_filter, !elem_of_app, elem_of_cons.
  tauto.
Qed.

Lemma t_in_second : t ∈ dropLoopback (A ++ t :: B).
Proof.
  unfold dropLoopback. rewrite list_elem_of_filter, elem_of_app, elem_of_cons.
  tauto.
Qed.

Lemma first_wf conn :
  conn ∈ dropLoopback (A ++ B) →
  wfConn conn ∧ Conn.port conn ∈ uniquePorts (dropLoopback (A ++ B)).
Proof.
  intros Hc. split.
  - apply snapshot_wf. apply first_subset in Hc.
    apply elem_of_app in Hc as [?|?]; apply elem_of_app; [by left|].
    right. by right.
  - apply uniquePorts_elem. eauto.
Qed.

Lemma port_not_first : Conn.port t ∉ uniquePorts (dropLoopback (A ++ B)).
Proof.
  intros (conn & Hc & Hp)%uniquePorts_elem.
  by apply (port_new conn (first_subset conn Hc)).
Qed.

Lemma second_ports q :
  q ∈ uniquePorts (dropLoopback (A ++ t :: B))
  ↔ q = Conn.port t ∨ q ∈ uniquePorts (dropLoopback (A ++ B)).
Proof.
  rewrite !uniquePorts_elem. split.
  - intros (conn & Hc & <-). apply second_cases in Hc as [->|Hc]; eauto.
  - intros [->|(conn & Hc & <-)].
    + exists t. split; [apply t_in_second|done].
    + exists conn. split; [by apply first_in_second|done].
Qed.

Lemma second_added conn :
  conn ∈ Delta.addedConnections (dropLoopback (A ++ B))
           (dropLoopback (A ++ t :: B)) →
  conn = t.
Proof.
  unfold Delta.addedConnections. rewrite list_elem_of_filter.
  intros [Hkey Hc]. apply second_cases in Hc as [->|Hc]; [done|].
  destruct Hkey. apply list_elem_of_fmap. eauto.
Qed.

Lemma second_removed :
  Delta.removedConnections (dropLoopback (A ++ B)) (dropLoopback (A ++ t :: B))
  = [].
Proof.
  unfold Delta.removedConnections. apply filter_none.
  intros conn Hc Hkey. apply Hkey, list_elem_of_fmap.
  exists conn. split; [done|]. by apply first_in_second.
Qed.

Lemma first_shape l :
  l ∈ _links (first hubId w1 stored A B) → linkShape (λ q, q ∈ uniquePorts (dropLoopback (A ++ B))) l.
Proof.
  apply update_links_shape; [done|apply first_wf|].
  intros l' Hl'. by apply elem_of_nil in Hl'.
Qed.

Lemma first_hub : _nodesMap (first hubId w1 stored A B) !! hubId = Some (hubNode hubId w1).
Proof. unfold first. by rewrite update_hub. Qed.

Lemma first_no_node : _nodesMap (first hubId w1 stored A B) !! portNodeId (Conn.port t) = None.
Proof.
  destruct (_nodesMap (first hubId w1 stored A B) !! portNodeId (Conn.port t)) as [n|] eqn:Hn; [|done].
  exfalso. unfold first in Hn. rewrite update_nodes in Hn.
  apply prune_lookup in Hn as [Hn _].
  apply built_keys in Hn as [Hn|[Hk|[(q & Hq & Hk)|(conn & Hc & Hk)]]].
  - cbn [constructor _nodesMap] in Hn. by rewrite lookup_empty in Hn.
  - symmetry in Hk. by apply ip_not_portNodeId in Hk.
  - apply (inj portNodeId) in Hk as <-. by apply port_not_first.
  - destruct (first_wf conn Hc) as [[Hs Ht] _].
    destruct Hk as [Hk|Hk]; symmetry in Hk; by apply ip_not_portNodeId in Hk.
Qed.

Lemma first_ports_present q :
  q ∈ uniquePorts (dropLoopback (A ++ B)) →
  is_Some (_nodesMap (first hubId w1 stored A B) !! portNodeId q).
Proof.
  intros Hq.
  apply (update_port_present hubId hub_wf w1 (A ++ B) (constructor stored)
           (λ q, q ∈ uniquePorts (dropLoopback (A ++ B))) q); [|done].
  apply first_shape.
Qed.

Lemma first_hub_keys q :
  q ∈ uniquePorts (dropLoopback (A ++ B)) →
  hubKey hubId q ∈ linkKey <$> _links (first hubId w1 stored A B).
Proof. intros Hq. unfold first. by apply ensureHubLinks_post. Qed.

Lemma first_no_hub_key :
  hubKey hubId (Conn.port t) ∉ linkKey <$> _links (first hubId w1 stored A B).
Proof.
  intros (l & Hkey & Hl)%list_elem_of_fmap. symmetry in Hkey.
  destruct (hubKey_shape hubId hub_wf _ l _ (first_shape l Hl) Hkey) as [_ Hin].
  by apply port_not_first.
Qed.

Lemma second_built_hub :
  (built hubId w2 (dropLoopback (A ++ t :: B)) (first hubId w1 stored A B)).1.1 !! hubId
  = Some (hubNode hubId w1).
Proof. by rewrite built_hub, first_hub. Qed.

(** The IP links pushed in the later cycle are those of [t], and none of
    them starts at the hub. *)
Lemma second_ip_link l conn :
  conn ∈ Delta.addedConnections (_prevConnections (first hubId w1 stored A B))
           (dropLoopback (A ++ t :: B)) →
  ipLinkOf (built hubId w2 (dropLoopback (A ++ t :: B)) (first hubId w1 stored A B)).1.1 conn l →
  Link.source l ≠ hubId
  ∧ linkKey l ≠ hubKey hubId (Conn.port t)
  ∧ (Link.source l = portNodeId (Conn.port t)
     ∨ Link.target l = portNodeId (Conn.port t)).
Proof.
  intros Hc Hl. apply second_added in Hc as ->.
  assert (Link.source l ≠ hubId) as Hsrc.
  { destruct Hl as [[-> Hip]|[-> _]]; cbn [Link.source].
    - intros Heq. rewrite Heq, second_built_hub in Hip. done.
    - intros Heq. symmetry in Heq. by apply ip_not_portNodeId in Heq. }
  split; [done|]. split.
  - intros Hkey.
    assert (wfConn t) as Hwf.
    { apply snapshot_wf, elem_of_app. right. left. }
    destruct (hubKey_shape hubId hub_wf _ l _
                (ipLinkOf_shape _ t l Hwf Hl) Hkey) as [-> _].
    by apply Hsrc.
  - destruct Hl as [[-> _]|[-> _]]; cbn [Link.source Link.target]; auto.
Qed.

Lemma second_links :
  ∃ ipl, _links (second hubId w1 w2 stored A B t)
         = _links (first hubId w1 stored A B) ++ ipl ++ [Link.mk hubId (portNodeId (Conn.port t))]
         ∧ ∀ l, l ∈ ipl →
             Link.source l ≠ hubId
             ∧ (Link.source l = portNodeId (Conn.port t)
                ∨ Link.target l = portNodeId (Conn.port t)).
Proof.
  destruct (built_links w2 hubId (dropLoopback (A ++ t :: B)) (first hubId w1 stored A B))
    as (ipl & Heq & Hipl).
  exists ipl. split.
  - unfold second. rewrite update_links, Heq.
    change (_prevConnections (first hubId w1 stored A B)) with (dropLoopback (A ++ B)).
    rewrite second_removed. cbn [foldl]. rewrite app_assoc.
    apply ensureHubLinks_one.
    + apply second_ports. by left.
    + intros q Hq Hne. apply second_ports in Hq as [?|Hq]; [done|].
      rewrite fmap_app. apply elem_of_app. left. by apply first_hub_keys.
    + rewrite fmap_app. intros [Hk|Hk]%elem_of_app.
      * by apply first_no_hub_key.
      * apply list_elem_of_fmap in Hk as (l & Hkey & Hl).
        destruct (Hipl l Hl) as (conn & Hc & Hip).
        destruct (second_ip_link l conn Hc Hip) as (_ & Hne & _). by apply Hne.
  - intros l Hl. destruct (Hipl l Hl) as (conn & Hc & Hip).
    destruct (second_ip_link l conn Hc Hip) as (? & _ & ?). done.
Qed.

End NewPort.

(** C5, as the code has it: on a fresh card, when the second of two
    snapshots of well-formed tuples is the first with one more tuple [t],
    not a loopback tuple, whose port is not in the first, the second update
    creates the node of that port, pinned at the slot of the star layout
    that belongs to the index [i] of the port among the distinct ports of
    the second snapshot; every other port node was there before; and the
    link list grows by the IP links of [t], none of which starts at the hub,
    and by one link from the hub to the new port node. *)
Theorem new_port_tuple hubId (w1 w2 : Window) stored (A B : list Conn.t)
    (t : Conn.t) :
  ipString hubId →
  (∀ conn, conn ∈ A ++ t :: B → wfConn conn) →
  notLoopback t →
  (∀ conn, conn ∈ A ++ B → Conn.port conn ≠ Conn.port t) →
  ∃ i,
    uniquePorts (dropLoopback (A ++ t :: B)) !! i = Some (Conn.port t)
    ∧ _nodesMap (Delta._deltaUpdate hubId w1 (A ++ B) (constructor stored))
        !! portNodeId (Conn.port t) = None
    ∧ _nodesMap (Delta._deltaUpdate hubId w2 (A ++ t :: B)
                   (Delta._deltaUpdate hubId w1 (A ++ B) (constructor stored)))
        !! portNodeId (Conn.port t)
      = Some (Node.mk (portNodeId (Conn.port t)) Node.port
                (Some ("Port " +:+ pretty (Conn.port t)))
                JS.Undefined JS.Undefined
                (JS.Num (portX w2 i)) (JS.Num (portY w2 i)))
    ∧ (∀ k n,
          _nodesMap (Delta._deltaUpdate hubId w2 (A ++ t :: B)
                       (Delta._deltaUpdate hubId w1 (A ++ B) (constructor stored)))
            !! k = Some n →
          Node.type n = Node.port →
          k = portNodeId (Conn.port t)
          ∨ _nodesMap (Delta._deltaUpdate hubId w1 (A ++ B) (constructor stored))
              !! k = Some n)
    ∧ ∃ ipl,
        _links (Delta._deltaUpdate hubId w2 (A ++ t :: B)
                  (Delta._deltaUpdate hubId w1 (A ++ B) (constructor stored)))
        = _links (Delta._deltaUpdate hubId w1 (A ++ B) (constructor stored))
            ++ ipl ++ [Link.mk hubId (portNodeId (Conn.port t))]
        ∧ ∀ l, l ∈ ipl → Link.source l ≠ hubId.
Proof.
  intros Hhub Hwf Hlo Hnew.
  fold (first hubId w1 stored A B).
  fold (second hubId w1 w2 stored A B t).
  assert (Conn.port t ∈ uniquePorts (dropLoopback (A ++ t :: B))) as Hin.
  { apply second_ports; auto. }
  apply list_elem_of_lookup in Hin as [i Hi]. exists i.
  pose proof (first_no_node hubId Hhub w1 stored A B t Hwf Hnew) as Hnone.
  destruct (second_links hubId Hhub w1 w2 stored A B t Hwf Hlo Hnew)
    as (ipl & Hlinks & Hipl).
  split; [done|]. split; [done|]. split; [|split].
  - unfold second. rewrite update_nodes. apply prune_lookup. split.
    + unfold built. apply connects_preserve. cbn [fst].
      apply (placePorts_new w2 _ _ i (Conn.port t));
        [apply uniquePorts_NoDup|done|].
      destruct (ensureHub hubId w2 (_nodesMap (first hubId w1 stored A B))
                  !! portNodeId (Conn.port t)) as [n|] eqn:Hn; [|done].
      apply ensureHub_lookup in Hn as [Hn|(_ & Hk & _)]; [congruence|].
      symmetry in Hk. by apply ip_not_portNodeId in Hk.
    + apply usedNodeIds_spec. right.
      exists (Link.mk hubId (portNodeId (Conn.port t))). split; [|by right].
      fold (second hubId w1 w2 stored A B t). rewrite Hlinks.
      apply elem_of_app. right. apply elem_of_app. right.
      by apply list_elem_of_singleton.
  - intros k n Hk Ht. unfold second in Hk.
    apply update_lookup in Hk
      as [Hk|(Hk & [[_ ->]|[(j & q & Hj & -> & ->)|(Hip & _)]])];
      [by right|done| |congruence].
    apply list_elem_of_lookup_2 in Hj.
    apply (second_ports A B t Hlo) in Hj as [->|Hq]; [by left|].
    destruct (first_ports_present hubId Hhub w1 stored A B t Hwf q Hq) as [m Hm].
    congruence.
  - exists ipl. split; [done|]. intros l Hl. by destruct (Hipl l Hl).
Qed.

Lemma new_port_tuple_witness :
  ipString defaultHub
  ∧ notLoopback portEighty
  ∧ ∃ i, uniquePorts (dropLoopback (scenarioA ++ portEighty :: [])) !! i = Some 80%N
         ∧ _nodesMap (Delta._deltaUpdate defaultHub (viewport 800 600)
                        (scenarioA ++ portEighty :: [])
                        (Delta._deltaUpdate defaultHub (viewport 800 600)
                           (scenarioA ++ []) (constructor None)))
             !! portNodeId 80
           = Some (Node.mk (portNodeId 80) Node.port (Some "Port 80")
                     JS.Undefined JS.Undefined
                     (JS.Num (portX (viewport 800 600) i))
                     (JS.Num (portY (viewport 800 600) i))).
Proof.
  assert (ipString defaultHub) as Hhub by reflexivity.
  assert (notLoopback portEighty) as Hlo.
  { apply (bool_decide_unpack _). vm_compute. exact I. }
  assert (∀ conn, conn ∈ scenarioA ++ portEighty :: [] → wfConn conn) as Hwf.
  { apply Forall_forall. apply (bool_decide_unpack _). vm_compute. exact I. }
  assert (∀ conn, conn ∈ scenarioA ++ [] → Conn.port conn ≠ Conn.port portEighty)
    as Hnew.
  { apply Forall_forall. apply (bool_decide_unpack _). vm_compute. exact I. }
  split; [exact Hhub|]. split; [exact Hlo|].
  destruct (new_port_tuple defaultHub (viewport 800 600) (viewport 800 600) None
              scenarioA [] portEighty Hhub Hwf Hlo Hnew)
    as (i & Hi & _ & Hn & _).
  exists i. split; [exact Hi|exact Hn].
Defined.

(** C5, the claim as written fails when the first snapshot already has a
    port: with port 443 in both snapshots, the node of the new port 80 has
    index 1 among the distinct ports of the second snapshot, so it is pinned
    at ring 0, position 1: the angle is 2π/8, not 0, and the radius is half
    the base radius, 90 against 180 on a 800 by 600 viewport; its [fx] is
    below the 580 of position 0. *)
Lemma new_port_not_at_position_0 :
  let vp := viewport 800 600 in
  let c := Delta.updates defaultHub
             [(vp, scenarioA); (vp, scenarioA ++ [portEighty])]
             (constructor None) in
  _nodesMap c !! portNodeId 80 = Some (portNode vp 1 80)
  ∧ Node.fx (portNode vp 1 80) = JS.Num (portX vp 1)
  ∧ PrimFloat.ltb 0 (angle 1) = true
  ∧ starRadius vp 1 = 90%float
  ∧ baseRadius vp = 180%float
  ∧ portX vp 0 = 580%float
  ∧ PrimFloat.ltb (portX vp 1) (portX vp 0) = true
  ∧ JS.Num (portX vp 1) ≠ JS.Num (portX vp 0).
Proof.
  cbv zeta. repeat (split; [vm_compute; reflexivity|]).
  intros H. apply (f_equal (λ v, PrimFloat.eqb (JS.toNumber v) 580)) in H.
  vm_compute in H. discriminate.
Qed.


(** * Further properties *)

(** ** How the nodes of a cycle are made *)

Lemma filter_every {A} (P : A → Prop) `{!∀ x, Decision (P x)} (l : list A) :
  (∀ x, x ∈ l → P x) → filter P l = l.
Proof.
  induction l as [|a l IH]; intros Hall; [done|].
  rewrite filter_cons_True by (apply Hall; left).
  f_equal. apply IH. intros x Hx. apply Hall. by right.
Qed.

Lemma ensureIp_new w ipId portId (st : gmap string Node.t * nat) k n :
  st.1 !! k = None → (ensureIp w ipId portId st).1 !! k = Some n →
  k = ipId ∧ ∃ vx vy, n = Node.set_xy vx vy (ipNode ipId).
Proof.
  intros Hnone. unfold ensureIp. destruct (st.1 !! ipId) eqn:Hi; [congruence|].
  destruct (decide (k = ipId)) as [->|Hne].
  - destruct (_placeIpNearPort_lookup w ipId portId
                (<[ipId := ipNode ipId]> st.1) st.2 (ipNode ipId))
      as (vx & vy & ->); [apply lookup_insert_eq|].
    intros [= <-]. eauto.
  - rewrite _placeIpNearPort_lookup_ne, lookup_insert_ne by done. congruence.
Qed.

Lemma connect_new w (st : gmap string Node.t * list Link.t * nat) c k n :
  st.1.1 !! k = None → (connect w st c).1.1 !! k = Some n →
  (k = Conn.source c ∨ k = Conn.target c)
  ∧ ∃ vx vy, n = Node.set_xy vx vy (ipNode k).
Proof.
  destruct st as [[nodes links] r]. simpl.
  destruct (ensureIp w (Conn.source c) _ (nodes, r)) as [nodes1 r1] eqn:E1.
  destruct (ensureIp w (Conn.target c) _ (nodes1, r1)) as [nodes2 r2] eqn:E2.
  simpl. intros Hnone Hk.
  destruct (nodes1 !! k) as [n1|] eqn:H1.
  - assert ((ensureIp w (Conn.target c) (portNodeId (Conn.port c))
               (nodes1, r1)).1 !! k = Some n1) as Hpre
      by by apply ensureIp_preserve.
    rewrite E2 in Hpre. simpl in Hpre.
    assert (n = n1) as -> by congruence.
    destruct (ensureIp_new w (Conn.source c) (portNodeId (Conn.port c))
                (nodes, r) k n1 Hnone) as (-> & vx & vy & ->).
    { by rewrite E1. }
    eauto.
  - destruct (ensureIp_new w (Conn.target c) (portNodeId (Conn.port c))
                (nodes1, r1) k n H1) as (-> & vx & vy & ->).
    { by rewrite E2. }
    eauto.
Qed.

Lemma connects_new w cs : ∀ (st : gmap string Node.t * list Link.t * nat) k n,
  st.1.1 !! k = None → (foldl (connect w) st cs).1.1 !! k = Some n →
  ∃ conn vx vy, conn ∈ cs ∧ (k = Conn.source conn ∨ k = Conn.target conn)
                ∧ n = Node.set_xy vx vy (ipNode k).
Proof.
  induction cs as [|c cs IH]; intros st k n Hnone Hk; simpl in Hk.
  - congruence.
  - destruct ((connect w st c).1.1 !! k) as [n1|] eqn:H1.
    + assert (n = n1) as ->.
      { apply (connects_preserve w cs) in H1. congruence. }
      destruct (connect_new w st c k n1 Hnone H1) as (Hor & vx & vy & ->).
      exists c, vx, vy. split; [left|done].
    + destruct (IH _ k n H1 Hk) as (conn & vx & vy & Hc & Hor & ->).
      exists conn, vx, vy. split; [by right|done].
Qed.

(** A node that a cycle adds to the node map is the hub, a port node of
    the star layout, or an IP node of an added tuple. *)
Lemma update_new hubId w S c k n :
  _nodesMap c !! k = None →
  _nodesMap (Delta._deltaUpdate hubId w S c) !! k = Some n →
  (k = hubId ∧ n = hubNode hubId w)
  ∨ (∃ j q, uniquePorts (dropLoopback S) !! j = Some q ∧ k = portNodeId q
            ∧ n = portNode w j q)
  ∨ (∃ conn vx vy,
        conn ∈ Delta.addedConnections (_prevConnections c) (dropLoopback S)
        ∧ (k = Conn.source conn ∨ k = Conn.target conn)
        ∧ n = Node.set_xy vx vy (ipNode k)).
Proof.
  intros Hnone. rewrite update_nodes, prune_lookup. intros [Hb _].
  unfold built in Hb.
  destruct (placePorts w 0 (uniquePorts (dropLoopback S))
              (ensureHub hubId w (_nodesMap c)) !! k) as [n0|] eqn:H0.
  - assert (n = n0) as ->.
    { pose proof (connects_preserve w
                    (Delta.addedConnections (_prevConnections c) (dropLoopback S))
                    (placePorts w 0 (uniquePorts (dropLoopback S))
                       (ensureHub hubId w (_nodesMap c)), _links c, 0)
                    k n0 H0) as Hpre.
      congruence. }
    apply placePorts_lookup in H0 as [H0|(_ & j & q & Hj & -> & ->)].
    + apply ensureHub_lookup in H0 as [H0|(_ & -> & ->)]; [congruence|auto].
    + right. left. eauto.
  - right. right. eapply connects_new; [|exact Hb]. exact H0.
Qed.

Lemma nodeOk_hub hubId w : nodeOk hubId (hubNode hubId w).
Proof. by split. Qed.

Lemma nodeOk_port w j q : nodeOk (portNodeId q) (portNode w j q).
Proof. split; [done|]. simpl. eauto. Qed.

Lemma nodeOk_ip k vx vy : nodeOk k (Node.set_xy vx vy (ipNode k)).
Proof. by split. Qed.

Lemma nodeOk_same k n n' :
  Node.id n' = Node.id n → Node.type n' = Node.type n →
  Node.label n' = Node.label n → nodeOk k n → nodeOk k n'.
Proof. unfold nodeOk. intros -> -> ->. done. Qed.

(** ** Events other than an update *)

(** Ticks and drags keep the links, the retained snapshot and the keys of
    the node map, and the id, kind and label of every node. *)
Lemma step_keeps_graph hubId c e :
  (∀ w snap, e ≠ Update w snap) →
  _links (step hubId c e) = _links c
  ∧ _prevConnections (step hubId c e) = _prevConnections c
  ∧ ∀ k, match _nodesMap (step hubId c e) !! k, _nodesMap c !! k with
         | Some n', Some n =>
             Node.id n' = Node.id n ∧ Node.type n' = Node.type n
             ∧ Node.label n' = Node.label n
         | None, None => True
         | _, _ => False
         end.
Proof.
  intros Hne. destruct e as [w snap|moved settled wr|id|id ex ey|id wr].
  - by destruct (Hne w snap).
  - assert (step hubId c (Tick moved settled wr)
            = (if settled then _saveNodePositions wr else λ x, x)
                (withNodes (moveNodes moved) c)) as -> by by destruct settled.
    assert (∀ c0, _links ((if settled then _saveNodePositions wr else λ x, x) c0)
                  = _links c0
                  ∧ _prevConnections
                      ((if settled then _saveNodePositions wr else λ x, x) c0)
                    = _prevConnections c0
                  ∧ _nodesMap
                      ((if settled then _saveNodePositions wr else λ x, x) c0)
                    = _nodesMap c0) as Hsave.
    { intros c0. destruct settled; [|done]. by destruct wr. }
    destruct (Hsave (withNodes (moveNodes moved) c)) as (-> & -> & ->).
    split; [done|]. split; [done|]. intros k.
    cbn [withNodes _nodesMap]. rewrite moveNodes_lookup.
    by destruct (_nodesMap c !! k) as [n|].
  - split; [done|]. split; [done|]. intros k. cbn [step withNodes _nodesMap].
    destruct (decide (id = k)) as [->|Hk].
    + rewrite lookup_alter_eq. by destruct (_nodesMap c !! k).
    + rewrite lookup_alter_ne by done. by destruct (_nodesMap c !! k).
  - split; [done|]. split; [done|]. intros k. cbn [step withNodes _nodesMap].
    destruct (decide (id = k)) as [->|Hk].
    + rewrite lookup_alter_eq. by destruct (_nodesMap c !! k).
    + rewrite lookup_alter_ne by done. by destruct (_nodesMap c !! k).
  - cbn [step].
    assert (∀ c0, _links (_saveNodePositions wr c0) = _links c0
                  ∧ _prevConnections (_saveNodePositions wr c0)
                    = _prevConnections c0) as Hsave by by destruct wr.
    destruct (Hsave (withNodes (alter _dragEnded id) c)) as (-> & ->).
    split; [done|]. split; [done|]. intros k. rewrite save_nodes.
    cbn [withNodes _nodesMap].
    destruct (decide (id = k)) as [->|Hk].
    + rewrite lookup_alter_eq. destruct (_nodesMap c !! k) as [n|]; simpl; [|done].
      unfold _dragEnded. by destruct (decide _).
    + rewrite lookup_alter_ne by done. by destruct (_nodesMap c !! k).
Qed.

(** ** Invariants of the node map and of the links *)

Lemma update_forall (Q : string → Node.t → Prop) hubId w S c :
  (∀ k n, _nodesMap c !! k = Some n → Q k n) →
  Q hubId (hubNode hubId w) →
  (∀ j q, Q (portNodeId q) (portNode w j q)) →
  (∀ k vx vy, Q k (Node.set_xy vx vy (ipNode k))) →
  ∀ k n, _nodesMap (Delta._deltaUpdate hubId w S c) !! k = Some n → Q k n.
Proof.
  intros Hold Hhub Hport Hip k n Hk.
  destruct (_nodesMap c !! k) as [n0|] eqn:H0.
  - rewrite (update_keeps hubId w S c k n0 n H0 Hk). by apply Hold.
  - apply (update_new hubId w S c k n H0) in Hk
      as [[-> ->]|[(j & q & _ & -> & ->)|(conn & vx & vy & _ & _ & ->)]]; auto.
Qed.

Lemma event_cases (e : event) :
  (∃ w snap, e = Update w snap) ∨ (∀ w snap, e ≠ Update w snap).
Proof. destruct e; [left; eauto|right; done..]. Qed.

Lemma run_snoc hubId events e c :
  run hubId (events ++ [e]) c = step hubId (run hubId events c) e.
Proof. unfold run. by rewrite foldl_app. Qed.

Lemma nodeOk_step hubId c e :
  (∀ k n, _nodesMap c !! k = Some n → nodeOk k n) →
  ∀ k n, _nodesMap (step hubId c e) !! k = Some n → nodeOk k n.
Proof.
  intros Hinv k n Hk.
  destruct (event_cases e) as [(w & snap & ->)|Hne].
  - apply step_update_node in Hk as (n0 & Hk & ->).
    destruct (initializeNode_fields (d3_place w k) n0) as (Hid & Hty & Hlab & _).
    apply (nodeOk_same k n0 _ Hid Hty Hlab). clear Hid Hty Hlab.
    revert k n0 Hk. apply update_forall;
      auto using nodeOk_hub, nodeOk_port, nodeOk_ip.
  - destruct (step_keeps_graph hubId c e) as (_ & _ & Hk').
    { exact Hne. }
    specialize (Hk' k). rewrite Hk in Hk'.
    destruct (_nodesMap c !! k) as [n0|] eqn:H0; [|done].
    destruct Hk' as (? & ? & ?). eapply nodeOk_same; eauto.
Qed.

Lemma nodeOk_run hubId events : ∀ c,
  (∀ k n, _nodesMap c !! k = Some n → nodeOk k n) →
  ∀ k n, _nodesMap (run hubId events c) !! k = Some n → nodeOk k n.
Proof.
  induction events as [|e events IH]; intros c Hinv; [done|].
  apply (IH (step hubId c e)). by apply nodeOk_step.
Qed.

Lemma labelText_port n (q : N) :
  Node.label n = Some ("Port " +:+ pretty q) →
  labelText n = "Port " +:+ pretty q.
Proof. unfold labelText. intros ->. done. Qed.

(** X1: after any sequence of update cycles, ticks and drags on a fresh
    card, every node is stored under its own id; a port node is stored
    under [port-<n>] and shows the label [Port <n>]; a hub or IP node shows
    its id. *)
Theorem nodes_keep_identity hubId (events : list event) stored k n :
  _nodesMap (run hubId events (constructor stored)) !! k = Some n →
  Node.id n = k
  ∧ (Node.type n = Node.port →
     ∃ q, k = portNodeId q ∧ labelText n = "Port " +:+ pretty q)
  ∧ (Node.type n ≠ Node.port → labelText n = k).
Proof.
  intros Hk.
  assert (nodeOk k n) as [Hid Hlab].
  { eapply nodeOk_run; [|exact Hk]. intros k' n' Hk'.
    cbn [constructor _nodesMap] in Hk'. by rewrite lookup_empty in Hk'. }
  split; [done|]. split.
  - intros Ht. rewrite Ht in Hlab. destruct Hlab as (q & -> & Hl).
    exists q. split; [done|]. by apply labelText_port.
  - intros Ht. unfold labelText.
    destruct (Node.type n); [| done |]; by rewrite Hlab.
Qed.

Lemma nodes_keep_identity_witness :
  ∃ n, _nodesMap (run defaultHub
                    [Update (viewport 800 600) scenarioA;
                     DragMove "10.0.0.2" 100 200] (constructor None))
         !! portNodeId 443 = Some n
       ∧ Node.id n = portNodeId 443.
Proof.
  eexists. split; [vm_compute; reflexivity|].
  eapply (nodes_keep_identity defaultHub
            [Update (viewport 800 600) scenarioA; DragMove "10.0.0.2" 100 200]
            None).
  vm_compute. reflexivity.
Defined.

Lemma pinnedByKind_updates hubId cycles : ∀ c,
  (∀ k n, _nodesMap c !! k = Some n → pinnedByKind n) →
  ∀ k n, _nodesMap (Delta.updates hubId cycles c) !! k = Some n →
         pinnedByKind n.
Proof.
  induction cycles as [|[w S] cycles IH]; intros c Hinv; [done|].
  rewrite updates_cons. apply IH.
  apply (update_forall (λ _ n, pinnedByKind n)); [done|..].
  - compute. eauto.
  - intros j q. unfold pinnedByKind. simpl. eauto.
  - intros k vx vy. by compute.
Qed.

(** X2: after any number of update cycles on a fresh card, every hub and
    port node is pinned at numbers and every IP node has no pin. *)
Theorem pins_by_kind hubId (cycles : list (Window * list Conn.t)) stored k n :
  _nodesMap (Delta.updates hubId cycles (constructor stored)) !! k = Some n →
  match Node.type n with
  | Node.ip => Node.fx n = JS.Undefined ∧ Node.fy n = JS.Undefined
  | _ => ∃ vx vy, Node.fx n = JS.Num vx ∧ Node.fy n = JS.Num vy
  end.
Proof.
  apply (pinnedByKind_updates hubId cycles (constructor stored)).
  intros k' n' Hk'. cbn [constructor _nodesMap] in Hk'.
  by rewrite lookup_empty in Hk'.
Qed.

Lemma pins_by_kind_witness :
  ∃ n, _nodesMap (Delta.updates defaultHub
                    [(viewport 800 600, scenarioA); (viewport 640 480, twoTargets)]
                    (constructor None)) !! "8.8.8.8" = Some n
       ∧ Node.type n = Node.ip
       ∧ Node.fx n = JS.Undefined ∧ Node.fy n = JS.Undefined.
Proof.
  eexists. split; [vm_compute; reflexivity|]. split; [reflexivity|].
  exact (pins_by_kind defaultHub
           [(viewport 800 600, scenarioA); (viewport 640 480, twoTargets)]
           None "8.8.8.8" _ ltac:(vm_compute; reflexivity)).
Defined.

Lemma built_port_present hubId w conns c q :
  q ∈ uniquePorts conns →
  is_Some ((built hubId w conns c).1.1 !! portNodeId q).
Proof.
  intros Hq.
  destruct (placePorts_is_Some w (uniquePorts conns) 0
              (ensureHub hubId w (_nodesMap c)) q Hq) as [n Hn].
  exists n. unfold built. by apply connects_preserve.
Qed.

Lemma linksHaveNodes_update hubId w S c :
  linksHaveNodes c → linksHaveNodes (Delta._deltaUpdate hubId w S c).
Proof.
  intros Hinv l Hl.
  assert (is_Some ((built hubId w (dropLoopback S) c).1.1 !! Link.source l)
          ∧ is_Some ((built hubId w (dropLoopback S) c).1.1 !! Link.target l))
    as [[ns Hs] [nt Ht]].
  { pose proof Hl as Horig.
    apply update_links_origin in Horig
      as [Hold|[(conn & Hc & Hip)|(q & Hq & ->)]].
    - destruct (Hinv l Hold) as [[ns Hs] [nt Ht]].
      split; eexists; by apply built_preserve.
    - assert (Conn.port conn ∈ uniquePorts (dropLoopback S)) as Hp.
      { apply uniquePorts_elem. exists conn. split; [|done].
        by apply added_subset in Hc. }
      destruct Hip as [[-> Hi]|[-> Hi]]; cbn [Link.source Link.target].
      + split; [|by apply built_port_present].
        destruct (_ !! Conn.source conn); [done|discriminate].
      + split; [by apply built_port_present|].
        destruct (_ !! Conn.target conn); [done|discriminate].
    - cbn [Link.source Link.target]. split.
      + rewrite built_hub. done.
      + by apply built_port_present. }
  rewrite update_nodes.
  split; eexists; apply prune_lookup; (split; [done|]);
    apply usedNodeIds_spec; right; exists l; (split; [done|]); auto.
Qed.

Lemma linksHaveNodes_step hubId c e :
  linksHaveNodes c → linksHaveNodes (step hubId c e).
Proof.
  intros Hinv.
  destruct (event_cases e) as [(w & snap & ->)|Hne].
  - intros l Hl. rewrite !step_update_is_Some.
    by apply (linksHaveNodes_update hubId w snap c Hinv).
  - destruct (step_keeps_graph hubId c e) as (Hl & _ & Hk).
    { exact Hne. }
    intros l Hin. rewrite Hl in Hin. destruct (Hinv l Hin) as [[ns Hs] [nt Ht]].
    split.
    + specialize (Hk (Link.source l)). rewrite Hs in Hk.
      destruct (_nodesMap (step hubId c e) !! Link.source l); [done|by destruct Hk].
    + specialize (Hk (Link.target l)). rewrite Ht in Hk.
      destruct (_nodesMap (step hubId c e) !! Link.target l); [done|by destruct Hk].
Qed.

Lemma linksHaveNodes_run hubId events : ∀ c,
  linksHaveNodes c → linksHaveNodes (run hubId events c).
Proof.
  induction events as [|e events IH]; intros c Hinv; [done|].
  apply (IH (step hubId c e)). by apply linksHaveNodes_step.
Qed.






Lemma noOrphan_step hubId c e :
  (∀ k, is_Some (_nodesMap c !! k) →
        k = hubId ∨ ∃ l, l ∈ _links c ∧ (Link.source l = k ∨ Link.target l = k)) →
  ∀ k, is_Some (_nodesMap (step hubId c e) !! k) →
       k = hubId
       ∨ ∃ l, l ∈ _links (step hubId c e)
              ∧ (Link.source l = k ∨ Link.target l = k).
Proof.
  intros Hinv k [n Hk].
  destruct (event_cases e) as [(w & snap & ->)|Hne].
  - apply step_update_node in Hk as (n0 & Hk & _).
    rewrite update_nodes in Hk.
    apply prune_lookup in Hk as [_ Hu]. by apply usedNodeIds_spec in Hu.
  - destruct (step_keeps_graph hubId c e) as (Hl & _ & Hk').
    { exact Hne. }
    rewrite Hl. apply Hinv. specialize (Hk' k). rewrite Hk in Hk'.
    destruct (_nodesMap c !! k); [done|by destruct Hk'].
Qed.

(** X4: after any sequence of update cycles, ticks and drags on a fresh
    card, every node other than the hub is an endpoint of a link; and after
    an update of the earlier card, from any state, the same holds. *)
Theorem no_orphan_nodes hubId :
  (∀ (events : list event) stored k,
      is_Some (_nodesMap (run hubId events (constructor stored)) !! k) →
      k = hubId
      ∨ ∃ l, l ∈ _links (run hubId events (constructor stored))
             ∧ (Link.source l = k ∨ Link.target l = k))
  ∧ (∀ w S c k,
        is_Some (_nodesMap (Rebuild._deltaUpdate hubId w S c) !! k) →
        k = hubId
        ∨ ∃ l, l ∈ _links (Rebuild._deltaUpdate hubId w S c)
               ∧ (Link.source l = k ∨ Link.target l = k)).
Proof.
  split.
  - intros events stored.
    induction events as [|e events IH] using rev_ind.
    + intros k [n Hk]. cbn [run foldl constructor _nodesMap] in Hk.
      by rewrite lookup_empty in Hk.
    + rewrite run_snoc. by apply noOrphan_step.
  - intros w S c k Hk. apply elem_of_dom in Hk.
    unfold Rebuild._deltaUpdate in *.
    rewrite restoreOnce_dom in Hk. rewrite restoreOnce_links.
    apply elem_of_dom in Hk as [n Hk]. unfold Rebuild._syncNodesAndLinks in *.
    cbn [_nodesMap _links] in *.
    apply prune_lookup in Hk as [_ Hu]. by apply usedNodeIds_spec in Hu.
Qed.

Lemma no_orphan_nodes_witness :
  is_Some (_nodesMap (run defaultHub
                        [Update (viewport 800 600) scenarioA; DragStart "8.8.8.8"]
                        (constructor None)) !! "8.8.8.8")
  ∧ ("8.8.8.8" = defaultHub
     ∨ ∃ l, l ∈ _links (run defaultHub
                          [Update (viewport 800 600) scenarioA;
                           DragStart "8.8.8.8"] (constructor None))
            ∧ (Link.source l = "8.8.8.8" ∨ Link.target l = "8.8.8.8")).
Proof.
  assert (is_Some (_nodesMap (run defaultHub
                        [Update (viewport 800 600) scenarioA; DragStart "8.8.8.8"]
                        (constructor None)) !! "8.8.8.8")) as Hk.
  { eexists. vm_compute. reflexivity. }
  split; [exact Hk|].
  exact (proj1 (no_orphan_nodes defaultHub) _ None "8.8.8.8" Hk).
Defined.

(** X5: a tick or a drag event never adds or removes a node or a link and
    never changes the retained snapshot: it leaves the link list, the
    snapshot and the set of node ids as they are. *)
Theorem ticks_and_drags_keep_graph hubId (c : card) (e : event) :
  (∀ w snap, e ≠ Update w snap) →
  _links (step hubId c e) = _links c
  ∧ _prevConnections (step hubId c e) = _prevConnections c
  ∧ dom (_nodesMap (step hubId c e)) = dom (_nodesMap c).
Proof.
  intros Hne. destruct (step_keeps_graph hubId c e Hne) as (Hl & Hp & Hk).
  split; [done|]. split; [done|].
  apply set_eq. intros k. rewrite !elem_of_dom. specialize (Hk k).
  destruct (_nodesMap (step hubId c e) !! k), (_nodesMap c !! k);
    try done; split; intros [? ?]; done.
Qed.

Lemma ticks_and_drags_keep_graph_witness :
  (∀ w snap, DragEnd "10.0.0.2" true ≠ Update w snap)
  ∧ _links (step defaultHub
              (Delta._deltaUpdate defaultHub (viewport 800 600) scenarioA
                 (constructor None)) (DragEnd "10.0.0.2" true))
    = _links (Delta._deltaUpdate defaultHub (viewport 800 600) scenarioA
                (constructor None)).
Proof.
  assert (∀ w snap, DragEnd "10.0.0.2" true ≠ Update w snap) as Hne by done.
  split; [exact Hne|].
  exact (proj1 (ticks_and_drags_keep_graph defaultHub _ _ Hne)).
Defined.

(** ** Configuration and data arrival *)

(** X6: [setConfig] throws exactly when the entity is missing or empty, and
    otherwise keeps the graph and the time of the last update and sets a
    hub id that is never empty: the configured one, or ["192.168.2.1"] when
    none or an empty one is configured. *)
Theorem setConfig_entity_and_hub (config : Config.t) (e : Element.t) :
  match setConfig config e with
  | inr message =>
      (Config.entity config = None ∨ Config.entity config = Some "")
      ∧ message = "You need to define an entity"
  | inl e' =>
      (∃ entity, Config.entity config = Some entity ∧ entity ≠ "")
      ∧ Element.content e' = Element.content e
      ∧ Element.lastUpdate e' = Element.lastUpdate e
      ∧ Element.graph e' = Element.graph e
      ∧ ∃ hub, Element.settings e' = Some (config, hub)
               ∧ hub ≠ ""
               ∧ (Config.hubId config = Some hub
                  ∨ ((Config.hubId config = None ∨ Config.hubId config = Some "")
                     ∧ hub = "192.168.2.1"))
  end.
Proof.
  unfold setConfig.
  destruct (Config.entity config) as [[|ch entity]|] eqn:He; simpl; auto.
  split; [by eauto|]. do 3 (split; [done|]).
  destruct (Config.hubId config) as [[|ch' hub]|] eqn:Hh; simpl;
    eexists; (split; [done|]); split; auto; done.
Qed.

Lemma hass_cases update now w states e :
  hass update now w states e = e
  ∨ (∃ config hub connections,
        Element.content e = true
        ∧ Element.settings e = Some (config, hub)
        ∧ states !! default "" (Config.entity config) = Some (Some connections)
        ∧ (Element.lastUpdate e + 5000 ≤ now)%Z
        ∧ hass update now w states e
          = Element.mk true (Some (config, hub)) now
              (update hub w connections (Element.graph e))).
Proof.
  unfold hass. destruct (Element.content e) eqn:Hc; simpl; [|by left].
  destruct (Element.settings e) as [[config hub]|] eqn:Hs; [|by left].
  destruct (truthy (Config.entity config)); simpl; [|by left].
  destruct (states !! _) as [[connections|]|] eqn:Hst; [|by left..].
  destruct (Z.ltb_spec (now - Element.lastUpdate e) 5000); [by left|].
  right. exists config, hub, connections. repeat split; auto. lia.
Qed.

Lemma arrivals_cons update a l e :
  arrivals update (a :: l) e = arrivals update l (hass update a.1.1 a.1.2 a.2 e).
Proof. done. Qed.

(** X7: updates are throttled to one per five seconds.  An arrival either
    leaves the element as it is or moves [lastUpdate] forward by at least
    5000 ms to its own time; and arrivals that all come earlier than 5000 ms
    after [lastUpdate], in any number, leave the element as it is.  As the
    constructor sets [lastUpdate], this holds for the first five seconds of
    a card. *)
Theorem hass_throttle (update : string → Window → list Conn.t → card → card) :
  (∀ now w states e,
      hass update now w states e = e
      ∨ (Element.lastUpdate (hass update now w states e) = now
         ∧ (Element.lastUpdate e + 5000 ≤ now)%Z))
  ∧ (∀ (l : list arrival) e,
        Forall (λ a : arrival, (a.1.1 < Element.lastUpdate e + 5000)%Z) l →
        arrivals update l e = e)
  ∧ (∀ (l : list arrival) t0 d3 stored config e,
        setConfig config (construct t0 d3 stored) = inl e →
        Forall (λ a : arrival, (a.1.1 < t0 + 5000)%Z) l →
        Element.graph (arrivals update l e) = constructor stored).
Proof.
  assert (∀ (l : list arrival) e,
        Forall (λ a : arrival, (a.1.1 < Element.lastUpdate e + 5000)%Z) l →
        arrivals update l e = e) as Hdrop.
  { induction l as [|a l IH]; intros e Hall; [done|].
    apply Forall_cons in Hall as [Ha Hl]. rewrite arrivals_cons.
    destruct (hass_cases update a.1.1 a.1.2 a.2 e)
      as [->|(? & ? & ? & _ & _ & _ & Hlate & _)]; [by apply IH|lia]. }
  split; [|split; [exact Hdrop|]].
  - intros now w states e.
    destruct (hass_cases update now w states e)
      as [->|(? & ? & ? & _ & _ & _ & Hlate & ->)]; auto.
  - intros l t0 d3 stored config e Hset Hall.
    unfold setConfig in Hset. destruct (truthy (Config.entity config)); [|done].
    injection Hset as <-. by rewrite Hdrop.
Qed.

Lemma hass_throttle_witness :
  Forall (λ a : arrival, (a.1.1 < 1000 + 5000)%Z)
    [(2000%Z, viewport 800 600, {["sensor.net" := Some scenarioA]});
     (5999%Z, viewport 800 600, {["sensor.net" := Some twoTargets]})]
  ∧ Element.graph
      (arrivals Delta._deltaUpdate
         [(2000%Z, viewport 800 600, {["sensor.net" := Some scenarioA]});
          (5999%Z, viewport 800 600, {["sensor.net" := Some twoTargets]})]
         (Element.mk true (Some (Config.mk (Some "sensor.net") None, defaultHub))
            1000 (constructor None)))
    = constructor None.
Proof.
  assert (Forall (λ a : arrival, (a.1.1 < 1000 + 5000)%Z)
    [(2000%Z, viewport 800 600, {["sensor.net" := Some scenarioA]});
     (5999%Z, viewport 800 600, {["sensor.net" := Some twoTargets]})]) as Hall.
  { repeat constructor; simpl; lia. }
  split; [exact Hall|].
  exact (proj2 (proj2 (hass_throttle Delta._deltaUpdate)) _ 1000%Z true None
           (Config.mk (Some "sensor.net") None) _ eq_refl Hall).
Defined.

(** X8: what reaches the graph.  Data that arrives before d3 is loaded or
    before [setConfig] is dropped, not queued: when the script has loaded,
    [_init] finds the card as the constructor left it.  On a configured card the
    graph after any arrivals is the graph after a sequence of update cycles
    with the configured hub id, each with the window and the connection
    list (read under the configured entity) of one of the arrivals; the
    configuration stays as it is. *)
Theorem arrivals_are_updates (l : list arrival) (e : Element.t) :
  (Element.content e = false ∨ Element.settings e = None →
   arrivals Delta._deltaUpdate l e = e)
  ∧ (∀ config hub,
        Element.settings e = Some (config, hub) →
        Element.settings (arrivals Delta._deltaUpdate l e) = Some (config, hub)
        ∧ ∃ cycles : list (Window * list Conn.t),
            Element.graph (arrivals Delta._deltaUpdate l e)
            = Delta.updates hub cycles (Element.graph e)
            ∧ ∀ cyc, cyc ∈ cycles →
                ∃ a : arrival,
                  a ∈ l ∧ cyc.1 = a.1.2
                  ∧ a.2 !! default "" (Config.entity config)
                    = Some (Some cyc.2))
  ∧ (∀ t0 stored,
        _init (arrivals Delta._deltaUpdate l (construct t0 false stored))
        = _init (construct t0 false stored)).
Proof.
  assert (∀ e0, Element.content e0 = false ∨ Element.settings e0 = None →
                arrivals Delta._deltaUpdate l e0 = e0) as Hdrop.
  { intros e0 Hoff. induction l as [|a l IH]; [done|].
    rewrite arrivals_cons.
    destruct (hass_cases Delta._deltaUpdate a.1.1 a.1.2 a.2 e0)
      as [->|(? & ? & ? & Hc & Hs & _)]; [done|].
    destruct Hoff; congruence. }
  split; [apply Hdrop|].
  split; [clear Hdrop|intros t0 stored; rewrite Hdrop; auto].
  - intros config hub. revert e.
    induction l as [|a l IH]; intros e Hs.
    + split; [done|]. exists []. split; [done|]. intros cyc Hin.
      by apply elem_of_nil in Hin.
    + rewrite arrivals_cons.
      destruct (hass_cases Delta._deltaUpdate a.1.1 a.1.2 a.2 e)
        as [->|(config' & hub' & conns & Hc & Hs' & Hst & _ & ->)].
      * destruct (IH e Hs) as (Hs2 & cycles & Hg & Hall).
        split; [done|]. exists cycles. split; [done|].
        intros cyc Hin. destruct (Hall cyc Hin) as (a' & ? & ?).
        exists a'. split; [by right|done].
      * assert (config' = config ∧ hub' = hub) as [-> ->]
          by (split; congruence).
        destruct (IH (Element.mk true (Some (config, hub)) a.1.1
                        (Delta._deltaUpdate hub a.1.2 conns (Element.graph e)))
                    eq_refl) as (Hs2 & cycles & Hg & Hall).
        split; [done|]. exists ((a.1.2, conns) :: cycles).
        split; [by rewrite updates_cons|].
        intros cyc Hin. apply elem_of_cons in Hin as [->|Hin].
        -- exists a. split; [left|done].
        -- destruct (Hall cyc Hin) as (a' & ? & ?).
           exists a'. split; [by right|done].
Qed.

Lemma arrivals_are_updates_witness :
  Element.content (construct 0 false None) = false
  ∧ arrivals Delta._deltaUpdate
      [(9000%Z, viewport 800 600, {["sensor.net" := Some scenarioA]})]
      (construct 0 false None)
    = construct 0 false None.
Proof.
  split; [reflexivity|].
  exact (proj1 (arrivals_are_updates _ (construct 0 false None))
           (or_introl eq_refl)).
Defined.

(** ** The position store *)

Lemma applyPosition_idem pos n :
  applyPosition pos (applyPosition pos n) = applyPosition pos n.
Proof. destruct pos as [[] [] [] []], n; reflexivity. Qed.

Lemma restoredField_pinned stored live :
  JS.notNull live = true → JS.notNull (restoredField stored live) = true.
Proof. by destruct stored. Qed.

(** X9: restoring the positions twice is restoring them once; a restore
    keeps the links, the snapshot and the store, adds and removes no node,
    keeps the id, kind and label of every node, and never removes a pin. *)
Theorem restore_idempotent (c : card) :
  _restoreNodePositions (_restoreNodePositions c) = _restoreNodePositions c
  ∧ _links (_restoreNodePositions c) = _links c
  ∧ _prevConnections (_restoreNodePositions c) = _prevConnections c
  ∧ localStorage (_restoreNodePositions c) = localStorage c
  ∧ dom (_nodesMap (_restoreNodePositions c)) = dom (_nodesMap c)
  ∧ ∀ k r, _nodesMap (_restoreNodePositions c) !! k = Some r →
      ∃ m, _nodesMap c !! k = Some m
           ∧ Node.id r = Node.id m ∧ Node.type r = Node.type m
           ∧ Node.label r = Node.label m
           ∧ (JS.notNull (Node.fx m) = true → JS.notNull (Node.fx r) = true)
           ∧ (JS.notNull (Node.fy m) = true → JS.notNull (Node.fy r) = true).
Proof.
  unfold _restoreNodePositions.
  destruct (localStorage c) as [saved|] eqn:Hst.
  - cbn [localStorage _nodesMap _links _prevConnections _positionsRestored].
    split.
    { f_equal. apply map_eq. intros k. rewrite !restoreInto_lookup.
      destruct (_nodesMap c !! k) as [n|]; [|done]. simpl.
      destruct (saved !! k); [|done]. by rewrite applyPosition_idem. }
    do 3 (split; [done|]). split; [apply restoreInto_dom|].
    intros k r. rewrite restoreInto_lookup.
    destruct (_nodesMap c !! k) as [m|]; [|done]. simpl. intros [= <-].
    exists m. split; [done|]. destruct (saved !! k) as [pos|]; [|done].
    destruct (applyPosition_fields pos m) as (_ & _ & Hfx & Hfy & -> & -> & ->).
    rewrite Hfx, Hfy. do 3 (split; [done|]).
    split; apply restoredField_pinned.
  - rewrite Hst. do 5 (split; [done|]). intros k r Hk. exists r. done.
Qed.

Lemma restore_idempotent_witness :
  ∃ r, _nodesMap (_restoreNodePositions
                    (mkCard {[defaultHub := hubNode defaultHub (viewport 800 600)]}
                       [] [] false
                       (Some {[defaultHub := positionOf releasedIp]})))
         !! defaultHub = Some r
       ∧ Node.x r = JS.Num 100
       ∧ JS.notNull (Node.fx r) = true.
Proof.
  pose (c0 := mkCard {[defaultHub := hubNode defaultHub (viewport 800 600)]}
                [] [] false (Some {[defaultHub := positionOf releasedIp]})).
  assert (_nodesMap (_restoreNodePositions c0) !! defaultHub
          = Some (Node.set_y (JS.Num 200)
                    (Node.set_x (JS.Num 100)
                       (hubNode defaultHub (viewport 800 600))))) as Hr
    by (vm_compute; reflexivity).
  eexists. split; [exact Hr|]. split; [reflexivity|].
  destruct (proj2 (proj2 (proj2 (proj2 (proj2 (restore_idempotent c0)))))
              defaultHub _ Hr) as (m & Hm & _ & _ & _ & Hfx & _).
  apply Hfx. vm_compute in Hm. injection Hm as <-. reflexivity.
Defined.

(** X10: the store is written only by a settled tick or by a drag end, and
    only when the write succeeds; it then holds a record for every node of
    the map, and a released IP node is recorded with [null] pins.  Update
    cycles, unsettled ticks, drag starts and drag moves leave the store as
    it is. *)
Theorem store_written_on_settle_and_drag_end hubId (c : card) (e : event) :
  (localStorage (step hubId c e) = localStorage c
   ∨ (localStorage (step hubId c e)
      = Some (positionOf <$> _nodesMap (step hubId c e))
      ∧ ((∃ moved, e = Tick moved true true) ∨ ∃ id, e = DragEnd id true)))
  ∧ (∀ id n, e = DragEnd id true → _nodesMap c !! id = Some n →
             Node.type n = Node.ip →
             ∃ saved pos, localStorage (step hubId c e) = Some saved
                          ∧ dom saved = dom (_nodesMap c)
                          ∧ saved !! id = Some pos
                          ∧ Pos.fx pos = JS.JNull ∧ Pos.fy pos = JS.JNull).
Proof.
  split.
  - destruct e as [w snap|moved [] []|id|id ex ey|id []]; cbn [step];
      try (by left).
    + right. split; [done|]. left. by eexists.
    + right. split; [done|]. right. by eexists.
  - intros id n -> Hn Hip. cbn [step _saveNodePositions withNodes _nodesMap
                                localStorage].
    eexists _, _. split; [done|]. split.
    { rewrite dom_fmap_L. apply set_eq. intros k. rewrite !elem_of_dom.
      destruct (decide (id = k)) as [->|Hne].
      - rewrite lookup_alter_eq. by rewrite <- !not_eq_None_Some, fmap_None.
      - by rewrite lookup_alter_ne. }
    rewrite lookup_fmap, lookup_alter_eq, Hn. simpl. split; [done|].
    unfold _dragEnded. rewrite decide_True by done. done.
Qed.

Lemma store_written_on_settle_and_drag_end_witness :
  ∃ saved pos,
    localStorage
      (step defaultHub
         (Delta._deltaUpdate defaultHub (viewport 800 600) scenarioA
            (constructor None)) (DragEnd "8.8.8.8" true)) = Some saved
    ∧ saved !! "8.8.8.8" = Some pos
    ∧ Pos.fx pos = JS.JNull.
Proof.
  destruct (proj2 (store_written_on_settle_and_drag_end defaultHub
                     (Delta._deltaUpdate defaultHub (viewport 800 600) scenarioA
                        (constructor None)) (DragEnd "8.8.8.8" true))
              "8.8.8.8" _ eq_refl ltac:(vm_compute; reflexivity) eq_refl)
    as (saved & pos & Hs & _ & Hp & Hfx & _).
  exists saved, pos. split; [exact Hs|]. split; [exact Hp|exact Hfx].
Defined.

(** ** Slots of the star layout *)

Lemma distinct_app (l1 l2 : list N) : ∀ seen,
  ∃ rest, distinct seen (l1 ++ l2) = distinct seen l1 ++ rest.
Proof.
  induction l1 as [|p l1 IH]; intros seen; simpl.
  - by eexists.
  - destruct (decide (p ∈ seen)); [apply IH|].
    destruct (IH (p :: seen)) as [rest ->]. by exists rest.
Qed.

(** X11: tuples appended to a snapshot do not move the ports before them:
    a port keeps its index among the distinct ports, and a node created for
    it is pinned at the slot of that index. *)
Theorem appended_tuples_keep_slots (A B : list Conn.t) (i : nat) (p : N) :
  uniquePorts (dropLoopback A) !! i = Some p →
  uniquePorts (dropLoopback (A ++ B)) !! i = Some p
  ∧ ∀ w (nodes : gmap string Node.t),
      nodes !! portNodeId p = None →
      placePorts w 0 (uniquePorts (dropLoopback (A ++ B))) nodes !! portNodeId p
      = Some (portNode w i p).
Proof.
  intros Hi.
  assert (uniquePorts (dropLoopback (A ++ B)) !! i = Some p) as Hi'.
  { unfold uniquePorts, dropLoopback in *. rewrite filter_app, fmap_app.
    destruct (distinct_app (Conn.port <$> filter notLoopback A)
                (Conn.port <$> filter notLoopback B) []) as [rest ->].
    by apply lookup_app_l_Some. }
  split; [done|]. intros w nodes Hnone.
  apply placePorts_new; [apply uniquePorts_NoDup|done|done].
Qed.

Lemma appended_tuples_keep_slots_witness :
  uniquePorts (dropLoopback scenarioA) !! 0 = Some 443%N
  ∧ uniquePorts (dropLoopback (scenarioA ++ [portEighty])) !! 0 = Some 443%N.
Proof.
  assert (uniquePorts (dropLoopback scenarioA) !! 0 = Some 443%N) as Hi
    by reflexivity.
  split; [exact Hi|].
  exact (proj1 (appended_tuples_keep_slots scenarioA [portEighty] 0 443 Hi)).
Defined.

(** ** The earlier card *)

Lemma linkKey_mk a b : linkKey (Link.mk a b) = a +:+ "->" +:+ b.
Proof. done. Qed.

(** X12: in the earlier card the links follow the snapshot.  After an
    update from any state, every link has the key of a hub link of a port
    of the snapshot or of an IP link of a tuple of the snapshot, and every
    port of the snapshot has a link with its hub key. *)
Theorem Rebuild_links_follow_snapshot hubId (w : Window) (S : list Conn.t)
    (c : card) :
  (∀ l, l ∈ _links (Rebuild._deltaUpdate hubId w S c) →
        (∃ q, q ∈ uniquePorts (dropLoopback S)
              ∧ linkKey l = hubId +:+ "->" +:+ portNodeId q)
        ∨ (∃ conn, conn ∈ dropLoopback S
                   ∧ (linkKey l = Conn.source conn +:+ "->"
                                  +:+ portNodeId (Conn.port conn)
                      ∨ linkKey l = portNodeId (Conn.port conn) +:+ "->"
                                    +:+ Conn.target conn)))
  ∧ (∀ q, q ∈ uniquePorts (dropLoopback S) →
          hubId +:+ "->" +:+ portNodeId q
            ∈ linkKey <$> _links (Rebuild._deltaUpdate hubId w S c)).
Proof.
  unfold Rebuild._deltaUpdate. rewrite restoreOnce_links.
  unfold Rebuild._syncNodesAndLinks. cbn [_links].
  set (nodes := placePorts w 0 _ _).
  destruct (connects_links w (dropLoopback S) (nodes, [], 0))
    as (new & Hnew & Hip).
  set (r := foldl (connect w) (nodes, [], 0) (dropLoopback S)) in *.
  simpl in Hnew. rewrite Hnew.
  set (newLinks := new ++ (Link.mk hubId ∘ portNodeId <$> uniquePorts (dropLoopback S))).
  set (kept := filter (λ oldL, linkKey oldL ∈ linkKey <$> newLinks) (_links c)).
  assert (∀ nl, nl ∈ newLinks →
            (∃ q, q ∈ uniquePorts (dropLoopback S)
                  ∧ linkKey nl = hubId +:+ "->" +:+ portNodeId q)
            ∨ (∃ conn, conn ∈ dropLoopback S
                   ∧ (linkKey nl = Conn.source conn +:+ "->"
                                  +:+ portNodeId (Conn.port conn)
                      ∨ linkKey nl = portNodeId (Conn.port conn) +:+ "->"
                                    +:+ Conn.target conn))) as Hshape.
  { intros nl Hin. apply elem_of_app in Hin as [Hin|Hin].
    - right. destruct (Hip nl Hin) as (conn & Hc & [[-> _]|[-> _]]);
        exists conn; (split; [done|]); rewrite linkKey_mk; auto.
    - left. apply list_elem_of_fmap in Hin as (q & -> & Hq).
      exists q. split; [done|]. apply linkKey_mk. }
  split.
  - intros l Hl. apply elem_of_app in Hl as [Hl|Hl].
    + apply list_elem_of_filter in Hl as [Hkey _].
      apply list_elem_of_fmap in Hkey as (nl & Hk & Hnl).
      rewrite Hk. by apply Hshape.
    + apply list_elem_of_filter in Hl as [_ Hl]. by apply Hshape.
  - intros q Hq. rewrite fmap_app, elem_of_app.
    assert (Link.mk hubId (portNodeId q) ∈ newLinks) as Hin.
    { apply elem_of_app. right. apply list_elem_of_fmap. by exists q. }
    destruct (decide (hubId +:+ "->" +:+ portNodeId q ∈ linkKey <$> kept))
      as [Hk|Hk]; [by left|right].
    apply list_elem_of_fmap. exists (Link.mk hubId (portNodeId q)).
    split; [done|]. apply list_elem_of_filter. split; [|done].
    by rewrite linkKey_mk.
Qed.

Lemma Rebuild_links_follow_snapshot_witness :
  443%N ∈ uniquePorts (dropLoopback scenarioA)
  ∧ defaultHub +:+ "->" +:+ portNodeId 443
      ∈ linkKey <$> _links (Rebuild._deltaUpdate defaultHub (viewport 800 600)
                              scenarioA (constructor None)).
Proof.
  assert (443%N ∈ uniquePorts (dropLoopback scenarioA)) as Hq.
  { apply (bool_decide_unpack _). vm_compute. exact I. }
  split; [exact Hq|].
  exact (proj2 (Rebuild_links_follow_snapshot defaultHub (viewport 800 600)
                  scenarioA (constructor None)) 443%N Hq).
Defined.

Lemma Rebuild_update_withStore hubId w S c stored :
  _positionsRestored c = true →
  Rebuild._deltaUpdate hubId w S (withStore stored c)
  = withStore stored (Rebuild._deltaUpdate hubId w S c)
  ∧ _positionsRestored (Rebuild._deltaUpdate hubId w S c) = true.
Proof.
  intros Hflag. unfold Rebuild._deltaUpdate, Rebuild._syncNodesAndLinks,
    Rebuild.restoreOnce, withStore.
  cbn [_nodesMap _links _prevConnections _positionsRestored localStorage].
  by rewrite Hflag.
Qed.

Lemma Rebuild_updates_withStore hubId cycles stored : ∀ c,
  _positionsRestored c = true →
  Rebuild.updates hubId cycles (withStore stored c)
  = withStore stored (Rebuild.updates hubId cycles c).
Proof.
  induction cycles as [|[w S] cycles IH]; intros c Hflag; [done|].
  change (Rebuild.updates hubId ((w, S) :: cycles) (withStore stored c))
    with (Rebuild.updates hubId cycles
            (Rebuild._deltaUpdate hubId w S (withStore stored c))).
  change (Rebuild.updates hubId ((w, S) :: cycles) c)
    with (Rebuild.updates hubId cycles (Rebuild._deltaUpdate hubId w S c)).
  destruct (Rebuild_update_withStore hubId w S c stored Hflag) as [-> Hflag'].
  by apply IH.
Qed.

(** X13: the earlier card reads the store in its first update only.  After
    the first update the positions count as restored, and whatever the
    store holds from then on (the card itself writes it at every settled
    tick and drag end), the later updates build the same card. *)
Theorem Rebuild_reads_store_once hubId (w : Window) (S : list Conn.t)
    (cycles : list (Window * list Conn.t)) (stored later : option (gmap string Pos.t)) :
  _positionsRestored (Rebuild._deltaUpdate hubId w S (constructor stored)) = true
  ∧ Rebuild.updates hubId cycles
      (withStore later (Rebuild._deltaUpdate hubId w S (constructor stored)))
    = withStore later
        (Rebuild.updates hubId cycles
           (Rebuild._deltaUpdate hubId w S (constructor stored))).
Proof.
  assert (_positionsRestored
            (Rebuild._deltaUpdate hubId w S (constructor stored)) = true) as Hflag.
  { unfold Rebuild._deltaUpdate, Rebuild.restoreOnce, Rebuild._syncNodesAndLinks.
    cbn [_positionsRestored constructor]. done. }
  split; [done|]. by apply Rebuild_updates_withStore.
Qed.

(** ** The bloom of new IP nodes *)

Lemma ensureIp_bloom w ipId portId (st : gmap string Node.t * nat) pn k n :
  st.1 !! portId = Some pn → st.1 !! k = None →
  (ensureIp w ipId portId st).1 !! k = Some n →
  k = ipId ∧ n = bloomAt w pn st.2 k.
Proof.
  destruct st as [nodes r]. simpl. intros Hp Hnone. unfold ensureIp. simpl.
  destruct (nodes !! ipId) eqn:Hi; simpl; [congruence|].
  assert (ipId ≠ portId) as Hne by congruence.
  rewrite lookup_insert_ne, Hp by done. simpl.
  destruct (decide (k = ipId)) as [->|Hk].
  - rewrite lookup_alter_eq, lookup_insert_eq. simpl. by intros [= <-].
  - rewrite lookup_alter_ne, lookup_insert_ne by done. congruence.
Qed.

Lemma connect_bloom w (st : gmap string Node.t * list Link.t * nat) c pn k n :
  st.1.1 !! portNodeId (Conn.port c) = Some pn → st.1.1 !! k = None →
  (connect w st c).1.1 !! k = Some n →
  (k = Conn.source c ∨ k = Conn.target c) ∧ ∃ r, n = bloomAt w pn r k.
Proof.
  destruct st as [[nodes links] r]. simpl.
  destruct (ensureIp w (Conn.source c) _ (nodes, r)) as [nodes1 r1] eqn:E1.
  destruct (ensureIp w (Conn.target c) _ (nodes1, r1)) as [nodes2 r2] eqn:E2.
  simpl. intros Hp Hnone Hk.
  destruct (nodes1 !! k) as [n1|] eqn:H1.
  - assert ((ensureIp w (Conn.target c) (portNodeId (Conn.port c))
               (nodes1, r1)).1 !! k = Some n1) as Hpre
      by by apply ensureIp_preserve.
    rewrite E2 in Hpre. simpl in Hpre.
    assert (n = n1) as -> by congruence.
    destruct (ensureIp_bloom w (Conn.source c) (portNodeId (Conn.port c))
                (nodes, r) pn k n1 Hp Hnone) as (-> & ->).
    { by rewrite E1. }
    eauto.
  - assert (nodes1 !! portNodeId (Conn.port c) = Some pn) as Hp1.
    { pose proof (ensureIp_preserve w (Conn.source c)
                    (portNodeId (Conn.port c)) (nodes, r) _ pn Hp) as Hpre.
      by rewrite E1 in Hpre. }
    destruct (ensureIp_bloom w (Conn.target c) (portNodeId (Conn.port c))
                (nodes1, r1) pn k n Hp1 H1) as (-> & ->).
    { by rewrite E2. }
    eauto.
Qed.

Lemma connects_bloom w cs : ∀ (st : gmap string Node.t * list Link.t * nat) k n,
  (∀ c, c ∈ cs → is_Some (st.1.1 !! portNodeId (Conn.port c))) →
  st.1.1 !! k = None → (foldl (connect w) st cs).1.1 !! k = Some n →
  ∃ conn pn r, conn ∈ cs ∧ (k = Conn.source conn ∨ k = Conn.target conn)
               ∧ st.1.1 !! portNodeId (Conn.port conn) = Some pn
               ∧ n = bloomAt w pn r k.
Proof.
  induction cs as [|c cs IH]; intros st k n Hports Hnone Hk; simpl in Hk.
  - congruence.
  - destruct (Hports c) as [pn Hpn]; [left|].
    destruct ((connect w st c).1.1 !! k) as [n1|] eqn:H1.
    + assert (n = n1) as ->.
      { apply (connects_preserve w cs) in H1. congruence. }
      destruct (connect_bloom w st c pn k n1 Hpn Hnone H1) as (Hor & r & ->).
      exists c, pn, r. split; [left|done].
    + destruct (IH (connect w st c) k n) as (conn & pn' & r & Hc & Hor & Hp' & ->);
        [|done|done|].
      { intros c' Hc'. destruct (Hports c') as [pn' Hpn']; [by right|].
        exists pn'. by apply connect_preserve. }
      destruct (Hports conn) as [pn0 Hpn0]; [by right|].
      assert (pn' = pn0) as ->.
      { apply (connect_preserve w st c) in Hpn0. congruence. }
      exists conn, pn0, r. split; [by right|done].
Qed.

(** X14: the bloom.  An IP node that a cycle adds belongs to an added tuple
    of the snapshot and is left unpinned at the pin of the node that the
    port loop left under the tuple's port id, moved by 50 in the direction
    of a random angle: [x = fx + cos(a)*50], [y = fy + sin(a)*50] with
    [a = Math.random() * 2 * Math.PI]. *)
Theorem new_ip_blooms_at_port hubId (w : Window) (S : list Conn.t) (c : card)
    (k : string) (n : Node.t) :
  _nodesMap c !! k = None →
  _nodesMap (Delta._deltaUpdate hubId w S c) !! k = Some n →
  Node.type n = Node.ip →
  ∃ conn pn r,
    conn ∈ Delta.addedConnections (_prevConnections c) (dropLoopback S)
    ∧ (k = Conn.source conn ∨ k = Conn.target conn)
    ∧ placePorts w 0 (uniquePorts (dropLoopback S))
        (ensureHub hubId w (_nodesMap c)) !! portNodeId (Conn.port conn)
      = Some pn
    ∧ Node.x n
      = JS.Num (JS.toNumber (Node.fx pn)
                + Math_cos w (Math_random w r * 2 * JS.Math_PI) * 50)%float
    ∧ Node.y n
      = JS.Num (JS.toNumber (Node.fy pn)
                + Math_sin w (Math_random w r * 2 * JS.Math_PI) * 50)%float
    ∧ Node.fx n = JS.Undefined ∧ Node.fy n = JS.Undefined.
Proof.
  intros Hnone Hk Hip. rewrite update_nodes, prune_lookup in Hk.
  destruct Hk as [Hb _]. unfold built in Hb.
  destruct (placePorts w 0 (uniquePorts (dropLoopback S))
              (ensureHub hubId w (_nodesMap c)) !! k) as [n0|] eqn:H0.
  - assert (n = n0) as ->.
    { pose proof (connects_preserve w
                    (Delta.addedConnections (_prevConnections c) (dropLoopback S))
                    (placePorts w 0 (uniquePorts (dropLoopback S))
                       (ensureHub hubId w (_nodesMap c)), _links c, 0)
                    k n0 H0) as Hpre.
      congruence. }
    apply placePorts_lookup in H0 as [H0|(_ & j & q & Hj & -> & ->)]; [|done].
    apply ensureHub_lookup in H0 as [H0|(_ & -> & ->)]; [congruence|done].
  - destruct (connects_bloom w
                (Delta.addedConnections (_prevConnections c) (dropLoopback S))
                (placePorts w 0 (uniquePorts (dropLoopback S))
                   (ensureHub hubId w (_nodesMap c)), _links c, 0) k n)
      as (conn & pn & r & Hc & Hor & Hp & ->); [|done|done|].
    { intros c' Hc'. apply placePorts_is_Some, uniquePorts_elem.
      exists c'. split; [|done]. by apply added_subset in Hc'. }
    exists conn, pn, r. do 2 (split; [done|]). split; [exact Hp|]. done.
Qed.

Lemma new_ip_blooms_at_port_witness :
  ∃ n, _nodesMap (Delta._deltaUpdate defaultHub (viewport 800 600) scenarioA
                    (constructor None)) !! "8.8.8.8" = Some n
       ∧ Node.type n = Node.ip
       ∧ Node.fx n = JS.Undefined.
Proof.
  pose (c0 := Delta._deltaUpdate defaultHub (viewport 800 600) scenarioA
                (constructor None)).
  destruct (_nodesMap c0 !! "8.8.8.8") as [n|] eqn:Hn;
    [|vm_compute in Hn; discriminate].
  assert (Node.type n = Node.ip) as Hip.
  { pose proof Hn as Hn2. vm_compute in Hn2. injection Hn2 as <-. reflexivity. }
  exists n. split; [done|]. split; [exact Hip|].
  assert (_nodesMap (constructor None) !! "8.8.8.8" = None) as Hnone by done.
  destruct (new_ip_blooms_at_port defaultHub (viewport 800 600) scenarioA
              (constructor None) "8.8.8.8" n Hnone Hn Hip)
    as (_ & _ & _ & _ & _ & _ & _ & _ & Hfx & _).
  exact Hfx.
Defined.

(** ** Cards fed with addresses *)

Lemma ip_sep_split (ch : Ascii.ascii) (a b x y : string) :
  ipChar ch = false → ipString a → ipString b →
  a +:+ String ch x = b +:+ String ch y → a = b ∧ x = y.
Proof.
  intros Hch. revert b. induction a as [|c1 a IH]; intros [|c2 b] Ha Hb; simpl.
  - by intros [= ->].
  - intros [= <- _]. apply ipString_cons in Hb as [? _]. congruence.
  - intros [= -> _]. apply ipString_cons in Ha as [? _]. congruence.
  - intros [= -> H]. apply ipString_cons in Ha as [_ Ha].
    apply ipString_cons in Hb as [_ Hb].
    destruct (IH b Ha Hb H) as [-> ->]. done.
Qed.

Lemma connectionKey_inj (c1 c2 : Conn.t) :
  wfConn c1 → wfConn c2 →
  Delta.connectionKey c1 = Delta.connectionKey c2 → c1 = c2.
Proof.
  destruct c1 as [s1 t1 p1], c2 as [s2 t2 p2].
  intros [Hs1 Ht1] [Hs2 Ht2]. unfold Delta.connectionKey. simpl in *.
  intros H. apply (ip_sep_split "_" s1 s2) in H as [-> H]; [|done..].
  apply (ip_sep_split "_" t1 t2) in H as [-> H]; [|done..].
  by apply (inj pretty) in H as ->.
Qed.

Lemma connectionKey_elem (conn : Conn.t) (l : list Conn.t) :
  wfConn conn → Forall wfConn l →
  Delta.connectionKey conn ∈ Delta.connectionKey <$> l ↔ conn ∈ l.
Proof.
  intros Hc Hl. rewrite list_elem_of_fmap. split.
  - intros (c' & Hkey & Hin).
    rewrite (connectionKey_inj conn c'); [done|done| |done].
    by apply (proj1 (Forall_forall _ _) Hl).
  - intros Hin. by exists conn.
Qed.

(** X15: on snapshots of addresses the diff by key is exact: the added
    tuples are the tuples of the new snapshot that the previous one does
    not hold, and the removed tuples are the tuples of the previous
    snapshot that the new one does not hold. *)
Theorem diff_by_key_is_exact (prev connections : list Conn.t) :
  Forall wfConn prev → Forall wfConn connections →
  (∀ conn, conn ∈ Delta.addedConnections prev connections
           ↔ conn ∈ connections ∧ conn ∉ prev)
  ∧ (∀ conn, conn ∈ Delta.removedConnections prev connections
             ↔ conn ∈ prev ∧ conn ∉ connections).
Proof.
  intros Hp Hc. split; intros conn.
  - unfold Delta.addedConnections. rewrite list_elem_of_filter. split.
    + intros [Hkey Hin]. split; [done|].
      rewrite <- connectionKey_elem; [done| |done].
      by apply (proj1 (Forall_forall _ _) Hc).
    + intros [Hin Hnot]. split; [|done].
      rewrite connectionKey_elem; [done| |done].
      by apply (proj1 (Forall_forall _ _) Hc).
  - unfold Delta.removedConnections. rewrite list_elem_of_filter. split.
    + intros [Hkey Hin]. split; [done|].
      rewrite <- connectionKey_elem; [done| |done].
      by apply (proj1 (Forall_forall _ _) Hp).
    + intros [Hin Hnot]. split; [|done].
      rewrite connectionKey_elem; [done| |done].
      by apply (proj1 (Forall_forall _ _) Hp).
Qed.

Lemma diff_by_key_is_exact_witness :
  Forall wfConn twoTargets ∧ Forall wfConn scenarioA
  ∧ Conn.mk "10.0.0.2" "1.1.1.1" 443
      ∈ Delta.removedConnections twoTargets scenarioA.
Proof.
  assert (Forall wfConn twoTargets) as Hp by (repeat constructor).
  assert (Forall wfConn scenarioA) as Hc by (repeat constructor).
  split; [exact Hp|]. split; [exact Hc|].
  apply (proj2 (diff_by_key_is_exact twoTargets scenarioA Hp Hc)).
  split; apply (bool_decide_unpack _); vm_compute; exact I.
Defined.

Lemma graphOk_handOver hubId c w S :
  graphOk hubId (Delta._deltaUpdate hubId w S c) →
  graphOk hubId (step hubId c (Update w S)).
Proof.
  intros (Hk & Hf & Hr). split; [|split].
  - intros k n (n0 & Hn0 & ->)%step_update_node.
    specialize (Hk k n0 Hn0). unfold kindByKey in *.
    by destruct (initializeNode_fields (d3_place w k) n0) as (_ & -> & _).
  - exact Hf.
  - intros l Hl. rewrite !step_update_is_Some. by apply Hr.
Qed.

Section Addresses.
Variable hubId : string.
Hypothesis hub_wf : ipString hubId.

Lemma kind_at_hub (nodes : gmap string Node.t) n :
  (∀ k n, nodes !! k = Some n → kindByKey hubId k n) →
  nodes !! hubId = Some n → Node.type n = Node.hub.
Proof.
  intros Hk Hn.
  destruct (Hk _ _ Hn) as [[_ ?]|[(q & Hq & _)|(_ & Hne & _)]]; [done| |done].
  by destruct (ip_not_portNodeId hubId q hub_wf).
Qed.

Lemma kind_at_port (nodes : gmap string Node.t) q n :
  (∀ k n, nodes !! k = Some n → kindByKey hubId k n) →
  nodes !! portNodeId q = Some n → Node.type n = Node.port.
Proof.
  intros Hk Hn.
  destruct (Hk _ _ Hn) as [[Heq _]|[(q' & _ & ?)|(Hip & _)]]; [|done|].
  - by destruct (ip_not_portNodeId hubId q hub_wf).
  - by destruct (ip_not_portNodeId (portNodeId q) q Hip).
Qed.

Lemma kind_at_ip (nodes : gmap string Node.t) k n :
  (∀ k n, nodes !! k = Some n → kindByKey hubId k n) →
  ipString k → k ≠ hubId → nodes !! k = Some n → Node.type n = Node.ip.
Proof.
  intros Hk Hip Hne Hn.
  destruct (Hk _ _ Hn) as [[Heq _]|[(q & Hq & _)|(_ & _ & ?)]]; [done| |done].
  by destruct (ip_not_portNodeId k q Hip).
Qed.

Lemma built_hub_kind w conns c :
  (∀ k n, _nodesMap c !! k = Some n → kindByKey hubId k n) →
  ∃ h, (built hubId w conns c).1.1 !! hubId = Some h ∧ Node.type h = Node.hub.
Proof.
  intros Hk. rewrite built_hub.
  destruct (_nodesMap c !! hubId) as [h|] eqn:Hh; simpl; eexists; (split; [done|]).
  - by eapply kind_at_hub.
  - done.
Qed.

Lemma ipLink_ends w conns c conn l :
  (∀ k n, _nodesMap c !! k = Some n → kindByKey hubId k n) →
  ipLinkOf (built hubId w conns c).1.1 conn l →
  (l = Link.mk (Conn.source conn) (portNodeId (Conn.port conn))
   ∧ Conn.source conn ≠ hubId)
  ∨ (l = Link.mk (portNodeId (Conn.port conn)) (Conn.target conn)
     ∧ Conn.target conn ≠ hubId).
Proof.
  intros Hk. destruct (built_hub_kind w conns c Hk) as (h & Hh & Hty).
  intros [[-> Hi]|[-> Hi]]; [left|right]; (split; [done|]); intros Heq;
    rewrite Heq, Hh in Hi; simpl in Hi; rewrite Hty in Hi; done.
Qed.

Lemma ipLink_not_hub w conns c conn l :
  (∀ k n, _nodesMap c !! k = Some n → kindByKey hubId k n) →
  ipLinkOf (built hubId w conns c).1.1 conn l → Link.source l ≠ hubId.
Proof.
  intros Hk Hip.
  destruct (ipLink_ends w conns c conn l Hk Hip) as [[-> Hne]|[-> _]]; [done|].
  simpl. intros Heq. by destruct (ip_not_portNodeId hubId (Conn.port conn) hub_wf).
Qed.

Lemma graphOk_update w S c :
  Forall wfConn S → graphOk hubId c →
  graphOk hubId (Delta._deltaUpdate hubId w S c).
Proof.
  intros Hwf (Hkinds & Hforms & Hres).
  assert (∀ conn,
            conn ∈ Delta.addedConnections (_prevConnections c) (dropLoopback S) →
            wfConn conn) as Hadded.
  { intros conn Hc. apply added_subset, dropLoopback_sound in Hc as [Hc _].
    by apply (proj1 (Forall_forall _ _) Hwf). }
  split; [|split].
  - intros k n Hk. destruct (_nodesMap c !! k) as [n0|] eqn:H0.
    + rewrite (update_keeps hubId w S c k n0 n H0 Hk). by apply Hkinds.
    + pose proof Hk as Hnew.
      apply (update_new hubId w S c k n H0) in Hnew
        as [[-> ->]|[(j & q & _ & -> & ->)|(conn & vx & vy & Hc & Hor & ->)]].
      * by left.
      * right. left. by exists q.
      * right. right. destruct (Hadded conn Hc) as [Hs Ht].
        split; [by destruct Hor as [->| ->]|]. split; [|done].
        intros ->. rewrite update_hub, H0 in Hk. simpl in Hk.
        by injection Hk.
  - intros l Hl.
    apply update_links_origin in Hl as [Hold|[(conn & Hc & Hip)|(q & Hq & ->)]].
    + by apply Hforms.
    + destruct (Hadded conn Hc) as [Hs Ht].
      destruct (ipLink_ends w _ c conn l Hkinds Hip) as [[-> Hne]|[-> Hne]].
      * right. left. by exists (Conn.port conn).
      * right. right. by exists (Conn.port conn).
    + left. by exists q.
  - by apply linksHaveNodes_update.
Qed.

Lemma graphOk_step c e :
  match e with Update _ snapshot => Forall wfConn snapshot | _ => True end →
  graphOk hubId c → graphOk hubId (step hubId c e).
Proof.
  intros He Hc.
  destruct (event_cases e) as [(w & snap & ->)|Hne].
  - by apply graphOk_handOver, graphOk_update.
  - destruct Hc as (Hkinds & Hforms & Hres).
    destruct (step_keeps_graph hubId c e Hne) as (Hl & _ & Hk).
    split; [|split].
    + intros k n Hn. specialize (Hk k). rewrite Hn in Hk.
      destruct (_nodesMap c !! k) as [n0|] eqn:H0; [|done].
      destruct Hk as (_ & Hty & _). specialize (Hkinds k n0 H0).
      unfold kindByKey in *. by rewrite Hty.
    + intros l Hin. rewrite Hl in Hin. by apply Hforms.
    + by apply linksHaveNodes_step.
Qed.

Lemma graphOk_run events : ∀ c,
  everyTuple wfConn events → graphOk hubId c →
  graphOk hubId (run hubId events c).
Proof.
  induction events as [|e events IH]; intros c Hall Hc; [done|].
  apply Forall_cons in Hall as [He Hall].
  apply (IH (step hubId c e)); [done|]. by apply graphOk_step.
Qed.

Lemma graphOk_fresh stored : graphOk hubId (constructor stored).
Proof.
  split; [|split].
  - intros k n Hk. cbn [constructor _nodesMap] in Hk.
    by rewrite lookup_empty in Hk.
  - intros l Hl. by apply elem_of_nil in Hl.
  - intros l Hl. by apply elem_of_nil in Hl.
Qed.

Lemma link_colours c l :
  graphOk hubId c → l ∈ _links c →
  (Link.source l = hubId
   ∧ stroke (_nodesMap c) l = "#6fa3ef" ∧ markerEnd (_nodesMap c) l = None)
  ∨ (ipString (Link.source l) ∧ Link.source l ≠ hubId
     ∧ stroke (_nodesMap c) l = "green"
     ∧ markerEnd (_nodesMap c) l = Some "url(#arrowInbound)")
  ∨ ((∃ q, Link.source l = portNodeId q)
     ∧ stroke (_nodesMap c) l = "orange"
     ∧ markerEnd (_nodesMap c) l = Some "url(#arrowOutbound)").
Proof.
  intros (Hkinds & Hforms & Hres) Hl.
  destruct (Hres l Hl) as [[ns Hs] [nt Ht]].
  unfold stroke, markerEnd, _isInbound, _isOutbound, _getNodeType.
  rewrite Hs, Ht. simpl.
  destruct (Hforms l Hl) as [(q & ->)|[(q & Htq & Hip & Hne)|(q & Hsq & Hip & Hne)]].
  - left. simpl in *. rewrite (kind_at_hub _ ns Hkinds Hs). done.
  - right. left. rewrite Htq in Ht.
    rewrite (kind_at_ip _ _ ns Hkinds Hip Hne Hs), (kind_at_port _ q nt Hkinds Ht).
    done.
  - right. right. rewrite Hsq in Hs.
    rewrite (kind_at_port _ q ns Hkinds Hs), (kind_at_ip _ _ nt Hkinds Hip Hne Ht).
    split; [by exists q|done].
Qed.

Lemma linkForm_shape l : linkForm hubId l → linkShape (λ _, True) l.
Proof.
  intros [(q & ->)|[(q & Ht & Hip & _)|(q & Hs & _)]].
  - left. by exists q.
  - left. by exists q.
  - right. by exists q.
Qed.

(** A link that reads as the hub link of a port is that hub link. *)
Lemma hubKey_elem c p :
  graphOk hubId c →
  hubKey hubId p ∈ linkKey <$> _links c →
  Link.mk hubId (portNodeId p) ∈ _links c.
Proof.
  intros (_ & Hforms & _) (l & Hkey & Hl)%list_elem_of_fmap.
  symmetry in Hkey.
  destruct (hubKey_shape hubId hub_wf (λ _, True) l p) as [<- _]; [|done..].
  by apply linkForm_shape, Hforms.
Qed.

Lemma hubLinkCount_app p a b :
  hubLinkCount hubId p (a ++ b)
  = hubLinkCount hubId p a + hubLinkCount hubId p b.
Proof. unfold hubLinkCount. by rewrite filter_app, length_app. Qed.

Lemma hubLinkCount_none p ls :
  Link.mk hubId (portNodeId p) ∉ ls → hubLinkCount hubId p ls = 0.
Proof.
  intros Hnot. unfold hubLinkCount. rewrite filter_none; [done|].
  intros x Hx ->. done.
Qed.

Lemma hubLinkCount_pos p ls :
  Link.mk hubId (portNodeId p) ∈ ls → 1 ≤ hubLinkCount hubId p ls.
Proof.
  intros Hin. unfold hubLinkCount.
  assert (Link.mk hubId (portNodeId p)
            ∈ filter (λ l, l = Link.mk hubId (portNodeId p)) ls) as Hf
    by by apply list_elem_of_filter.
  destruct (filter _ ls); [by apply elem_of_nil in Hf|simpl; lia].
Qed.

Lemma hubLinkCount_filter (P : Link.t → Prop) `{!∀ x, Decision (P x)} p ls :
  hubLinkCount hubId p (filter P ls) ≤ hubLinkCount hubId p ls.
Proof.
  unfold hubLinkCount. induction ls as [|a ls IH]; [done|].
  rewrite (filter_cons P). destruct (decide (P a)).
  - rewrite !(filter_cons (λ l, l = _)). destruct (decide (a = _)); simpl; lia.
  - rewrite (filter_cons (λ l, l = _) a). destruct (decide (a = _)); simpl; lia.
Qed.

Lemma hubLinkCount_removeLinks p removed : ∀ ls,
  hubLinkCount hubId p (foldl Delta.removeLinks ls removed)
  ≤ hubLinkCount hubId p ls.
Proof.
  induction removed as [|r removed IH]; intros ls; [done|]. simpl.
  etrans; [apply IH|]. unfold Delta.removeLinks. apply hubLinkCount_filter.
Qed.

Lemma hubLinkCount_ensureHubLink p q ls :
  hubLinkCount hubId p ls ≤ 1 →
  hubLinkCount hubId p (Delta.ensureHubLink hubId ls q) ≤ 1.
Proof.
  intros Hle. unfold Delta.ensureHubLink.
  destruct (decide (_ ∈ _)) as [|Hnot]; [done|].
  rewrite hubLinkCount_app. destruct (decide (q = p)) as [->|Hne].
  - rewrite (hubLinkCount_none p ls).
    + unfold hubLinkCount. rewrite filter_cons. destruct (decide _); simpl; lia.
    + intros Hin. apply Hnot, list_elem_of_fmap.
      by exists (Link.mk hubId (portNodeId p)).
  - rewrite (hubLinkCount_none p [_]); [lia|].
    intros Hin. apply list_elem_of_singleton in Hin.
    apply (f_equal Link.target) in Hin. simpl in Hin.
    apply (inj portNodeId) in Hin. done.
Qed.

Lemma hubLinkCount_ensureHubLinks p ports : ∀ ls,
  hubLinkCount hubId p ls ≤ 1 →
  hubLinkCount hubId p (foldl (Delta.ensureHubLink hubId) ls ports) ≤ 1.
Proof.
  induction ports as [|q ports IH]; intros ls Hle; [done|]. simpl.
  by apply IH, hubLinkCount_ensureHubLink.
Qed.

Lemma hubLinkCount_update w S c p :
  graphOk hubId c →
  hubLinkCount hubId p (_links c) ≤ 1 →
  hubLinkCount hubId p (_links (Delta._deltaUpdate hubId w S c)) ≤ 1.
Proof.
  intros (Hkinds & _) Hle. rewrite update_links.
  apply hubLinkCount_ensureHubLinks.
  etrans; [apply hubLinkCount_removeLinks|].
  destruct (built_links w hubId (dropLoopback S) c) as (ipl & -> & Hipl).
  rewrite hubLinkCount_app, (hubLinkCount_none p ipl); [lia|].
  intros Hin. destruct (Hipl _ Hin) as (conn & _ & Hip).
  by apply (ipLink_not_hub w _ c conn _ Hkinds) in Hip.
Qed.

Lemma hubLinkCount_step c e p :
  match e with Update _ snapshot => Forall wfConn snapshot | _ => True end →
  graphOk hubId c →
  hubLinkCount hubId p (_links c) ≤ 1 →
  hubLinkCount hubId p (_links (step hubId c e)) ≤ 1.
Proof.
  intros He Hc Hle.
  destruct (event_cases e) as [(w & snap & ->)|Hne].
  - cbn [step withNodes _links]. by apply hubLinkCount_update.
  - destruct (step_keeps_graph hubId c e Hne) as (-> & _). done.
Qed.

Lemma hubLinkCount_run events p : ∀ c,
  everyTuple wfConn events → graphOk hubId c →
  hubLinkCount hubId p (_links c) ≤ 1 →
  hubLinkCount hubId p (_links (run hubId events c)) ≤ 1.
Proof.
  induction events as [|e events IH]; intros c Hall Hc Hle; [done|].
  apply Forall_cons in Hall as [He Hall].
  apply (IH (step hubId c e)); [done|by apply graphOk_step|].
  by apply hubLinkCount_step.
Qed.

(** After an update every port of the snapshot has its hub link. *)
Lemma update_hub_link w S c q :
  Forall wfConn S → graphOk hubId c →
  q ∈ uniquePorts (dropLoopback S) →
  Link.mk hubId (portNodeId q) ∈ _links (Delta._deltaUpdate hubId w S c).
Proof.
  intros Hwf Hc Hq. apply hubKey_elem; [by apply graphOk_update|].
  rewrite update_links. by apply ensureHubLinks_post.
Qed.

(** ** Hub links stay *)

Lemma removeLinks_keep removed : ∀ links l,
  l ∈ links →
  (∀ r, r ∈ removed →
        linkKey l ≠ Conn.source r +:+ "->" +:+ portNodeId (Conn.port r)
        ∧ linkKey l ≠ portNodeId (Conn.port r) +:+ "->" +:+ Conn.target r) →
  l ∈ foldl Delta.removeLinks links removed.
Proof.
  induction removed as [|r removed IH]; intros links l Hl Hkeys; [done|].
  simpl. apply IH.
  - unfold Delta.removeLinks. apply list_elem_of_filter. split; [|done].
    apply Hkeys. left.
  - intros r' Hr'. apply Hkeys. by right.
Qed.

Lemma hubKey_not_removed q r :
  ipString (Conn.source r) → Conn.source r ≠ hubId →
  linkKey (Link.mk hubId (portNodeId q))
    ≠ Conn.source r +:+ "->" +:+ portNodeId (Conn.port r)
  ∧ linkKey (Link.mk hubId (portNodeId q))
      ≠ portNodeId (Conn.port r) +:+ "->" +:+ Conn.target r.
Proof.
  intros Hip Hne. rewrite linkKey_mk. split; intros Hkey.
  - apply (ip_dash_split hubId (Conn.source r)) in Hkey as [Heq _]; [|done..].
    by destruct Hne.
  - symmetry in Hkey. unfold portNodeId in Hkey at 1.
    rewrite string_app_assoc in Hkey.
    by apply (ip_not_port_prefix hubId) in Hkey.
Qed.

Lemma hub_link_kept_update w S c q :
  (∀ r, r ∈ _prevConnections c → wfConn r ∧ Conn.source r ≠ hubId) →
  Link.mk hubId (portNodeId q) ∈ _links c →
  Link.mk hubId (portNodeId q) ∈ _links (Delta._deltaUpdate hubId w S c).
Proof.
  intros Hprev Hin. rewrite update_links.
  destruct (ensureHubLinks_app hubId (uniquePorts (dropLoopback S))
              (foldl Delta.removeLinks (built hubId w (dropLoopback S) c).1.2
                 (Delta.removedConnections (_prevConnections c) (dropLoopback S))))
    as (new & -> & _).
  apply elem_of_app. left. apply removeLinks_keep.
  - destruct (built_links w hubId (dropLoopback S) c) as (ipl & -> & _).
    apply elem_of_app. by left.
  - intros r Hr. apply list_elem_of_filter in Hr as [_ Hr].
    destruct (Hprev r Hr) as [[Hs _] Hne]. by apply hubKey_not_removed.
Qed.

Lemma hub_link_kept_run q events : ∀ c,
  everyTuple (λ conn, wfConn conn ∧ Conn.source conn ≠ hubId) events →
  (∀ r, r ∈ _prevConnections c → wfConn r ∧ Conn.source r ≠ hubId) →
  Link.mk hubId (portNodeId q) ∈ _links c →
  Link.mk hubId (portNodeId q) ∈ _links (run hubId events c).
Proof.
  induction events as [|e events IH]; intros c Hall Hprev Hin; [done|].
  apply Forall_cons in Hall as [He Hall].
  apply (IH (step hubId c e)); [done|..].
  - destruct (event_cases e) as [(w & snap & ->)|Hne].
    + cbn [step withNodes _prevConnections]. rewrite update_prev. intros r Hr.
      apply dropLoopback_sound in Hr as [Hr _].
      by apply (proj1 (Forall_forall _ _) He).
    + destruct (step_keeps_graph hubId c e Hne) as (_ & -> & _). done.
  - destruct (event_cases e) as [(w & snap & ->)|Hne].
    + cbn [step withNodes _links]. by apply hub_link_kept_update.
    + destruct (step_keeps_graph hubId c e Hne) as (-> & _). done.
Qed.

(** ** The first update in both versions *)

Lemma added_fresh (connections : list Conn.t) :
  Delta.addedConnections [] connections = connections.
Proof.
  unfold Delta.addedConnections. apply filter_every.
  intros x _ Hin. by apply elem_of_nil in Hin.
Qed.

Lemma hubKey_inj p q : hubKey hubId p = hubKey hubId q → p = q.
Proof.
  unfold hubKey. intros H. apply string_app_inj in H.
  apply (string_app_inj "->") in H. by apply (inj portNodeId) in H.
Qed.

Lemma ensureHubLinks_fresh ports : ∀ links,
  NoDup ports →
  (∀ p, p ∈ ports → hubKey hubId p ∉ linkKey <$> links) →
  foldl (Delta.ensureHubLink hubId) links ports
  = links ++ (Link.mk hubId ∘ portNodeId <$> ports).
Proof.
  induction ports as [|p ports IH]; intros links Hnd Hkeys; simpl.
  - by rewrite app_nil_r.
  - apply NoDup_cons in Hnd as [Hp Hnd].
    unfold Delta.ensureHubLink at 2.
    rewrite decide_False by (apply Hkeys; left).
    rewrite IH; [by rewrite <- app_assoc|done|].
    intros q Hq. rewrite fmap_app, elem_of_app. intros [Hin|Hin].
    + by apply (Hkeys q); [right|].
    + apply list_elem_of_singleton in Hin. apply hubKey_inj in Hin.
      by subst.
Qed.

Lemma first_update_links w S stored :
  Forall wfConn S →
  _links (Delta._deltaUpdate hubId w S (constructor stored))
  = (foldl (connect w)
       (placePorts w 0 (uniquePorts (dropLoopback S)) (ensureHub hubId w ∅),
        [], 0) (dropLoopback S)).1.2
    ++ (Link.mk hubId ∘ portNodeId <$> uniquePorts (dropLoopback S)).
Proof.
  intros Hwf. rewrite update_links.
  destruct (built_links w hubId (dropLoopback S) (constructor stored))
    as (ipl & Hb & Hipl).
  assert (built hubId w (dropLoopback S) (constructor stored)
          = foldl (connect w)
              (placePorts w 0 (uniquePorts (dropLoopback S)) (ensureHub hubId w ∅),
               [], 0) (dropLoopback S)) as Hbuilt.
  { unfold built. cbn [constructor _nodesMap _links _prevConnections].
    by rewrite added_fresh. }
  rewrite <- Hbuilt.
  cbn [constructor _prevConnections].
  change (Delta.removedConnections [] (dropLoopback S)) with (@nil Conn.t).
  cbn [foldl]. apply ensureHubLinks_fresh; [apply uniquePorts_NoDup|].
  intros p Hp. rewrite Hb. cbn [constructor _links app].
  intros (l & Hkey & Hl)%list_elem_of_fmap. symmetry in Hkey.
  destruct (Hipl l Hl) as (conn & Hc & Hip).
  assert (wfConn conn) as Hconn.
  { apply added_subset, dropLoopback_sound in Hc as [Hc _].
    by apply (proj1 (Forall_forall _ _) Hwf). }
  destruct (hubKey_shape hubId hub_wf _ l p
              (ipLinkOf_shape _ conn l Hconn Hip) Hkey) as [-> _].
  apply (ipLink_not_hub w _ (constructor stored) conn _) in Hip; [done|].
  apply (graphOk_fresh stored).
Qed.

End Addresses.

Lemma everyTuple_impl (P Q : Conn.t → Prop) events :
  (∀ conn, P conn → Q conn) → everyTuple P events → everyTuple Q events.
Proof.
  intros HPQ Hall. eapply Forall_impl; [exact Hall|].
  intros [w snap| | | |] He; try done.
  eapply Forall_impl; [exact He|done].
Qed.

Lemma run_app hubId a b c : run hubId (a ++ b) c = run hubId b (run hubId a c).
Proof. unfold run. by rewrite foldl_app. Qed.

Lemma built_fresh hubId w conns stored :
  built hubId w conns (constructor stored)
  = foldl (connect w)
      (placePorts w 0 (uniquePorts conns) (ensureHub hubId w ∅), [], 0) conns.
Proof.
  unfold built. cbn [constructor _nodesMap _links _prevConnections].
  by rewrite added_fresh.
Qed.

(** X16: on a card fed with addresses, whose hub id is an address, every
    link is drawn by its direction after any update cycles, ticks and
    drags: a link from the hub is blue with no arrow, a link from an
    address into a port is green with the inbound arrow, and a link out of
    a port is orange with the outbound arrow. *)
Theorem links_drawn_by_direction hubId (events : list event) stored (l : Link.t) :
  ipString hubId → everyTuple wfConn events →
  l ∈ _links (run hubId events (constructor stored)) →
  (Link.source l = hubId
   ∧ stroke (_nodesMap (run hubId events (constructor stored))) l = "#6fa3ef"
   ∧ markerEnd (_nodesMap (run hubId events (constructor stored))) l = None)
  ∨ (ipString (Link.source l) ∧ Link.source l ≠ hubId
     ∧ stroke (_nodesMap (run hubId events (constructor stored))) l = "green"
     ∧ markerEnd (_nodesMap (run hubId events (constructor stored))) l
       = Some "url(#arrowInbound)")
  ∨ ((∃ q, Link.source l = portNodeId q)
     ∧ stroke (_nodesMap (run hubId events (constructor stored))) l = "orange"
     ∧ markerEnd (_nodesMap (run hubId events (constructor stored))) l
       = Some "url(#arrowOutbound)").
Proof.
  intros Hhub Hall Hl. apply link_colours; [done| |done].
  apply graphOk_run; [done..|]. by apply graphOk_fresh.
Qed.

Lemma links_drawn_by_direction_witness :
  ipString defaultHub
  ∧ everyTuple wfConn [Update (viewport 800 600) scenarioA; DragStart "8.8.8.8"]
  ∧ Link.mk (portNodeId 443) "8.8.8.8"
      ∈ _links (run defaultHub
                  [Update (viewport 800 600) scenarioA; DragStart "8.8.8.8"]
                  (constructor None))
  ∧ stroke (_nodesMap (run defaultHub
                         [Update (viewport 800 600) scenarioA; DragStart "8.8.8.8"]
                         (constructor None)))
      (Link.mk (portNodeId 443) "8.8.8.8") = "orange".
Proof.
  assert (ipString defaultHub) as Hhub by reflexivity.
  assert (everyTuple wfConn
            [Update (viewport 800 600) scenarioA; DragStart "8.8.8.8"]) as Hall
    by (repeat constructor).
  assert (Link.mk (portNodeId 443) "8.8.8.8"
            ∈ _links (run defaultHub
                        [Update (viewport 800 600) scenarioA; DragStart "8.8.8.8"]
                        (constructor None))) as Hl.
  { apply (bool_decide_unpack _). vm_compute. exact I. }
  split; [exact Hhub|]. split; [exact Hall|]. split; [exact Hl|].
  destruct (links_drawn_by_direction defaultHub _ None _ Hhub Hall Hl)
    as [(Hs & _)|[(_ & _ & Hg & _)|(_ & Ho & _)]].
  - discriminate Hs.
  - vm_compute in Hg. discriminate Hg.
  - exact Ho.
Defined.

(** X17: on a card fed with addresses, whose hub id is an address, no port
    ever has two hub links, and after an update every port of the snapshot
    has exactly one. *)
Theorem one_hub_link_per_port hubId (events : list event) (w : Window)
    (S : list Conn.t) stored :
  ipString hubId → everyTuple wfConn (events ++ [Update w S]) →
  (∀ p, hubLinkCount hubId p
          (_links (run hubId (events ++ [Update w S]) (constructor stored))) ≤ 1)
  ∧ (∀ q, q ∈ uniquePorts (dropLoopback S) →
          hubLinkCount hubId q
            (_links (run hubId (events ++ [Update w S]) (constructor stored)))
          = 1).
Proof.
  intros Hhub Hall.
  assert (∀ p, hubLinkCount hubId p
                 (_links (run hubId (events ++ [Update w S]) (constructor stored)))
               ≤ 1) as Hle.
  { intros p. apply hubLinkCount_run; [done|done|by apply graphOk_fresh|].
    unfold hubLinkCount. simpl. lia. }
  split; [exact Hle|]. intros q Hq.
  apply Forall_app in Hall as [Hev Hupd].
  apply Forall_cons in Hupd as [Hwf _].
  assert (1 ≤ hubLinkCount hubId q
                (_links (run hubId (events ++ [Update w S]) (constructor stored)))).
  { apply hubLinkCount_pos. rewrite run_snoc. cbn [step withNodes _links].
    apply update_hub_link; [done..| |done].
    apply graphOk_run; [done..|]. by apply graphOk_fresh. }
  specialize (Hle q). lia.
Qed.

Lemma one_hub_link_per_port_witness :
  ipString defaultHub
  ∧ everyTuple wfConn ([Update (viewport 800 600) scenarioA]
                       ++ [Update (viewport 800 600) twoTargets])
  ∧ 443%N ∈ uniquePorts (dropLoopback twoTargets)
  ∧ hubLinkCount defaultHub 443
      (_links (run defaultHub
                 ([Update (viewport 800 600) scenarioA]
                  ++ [Update (viewport 800 600) twoTargets])
                 (constructor None))) = 1.
Proof.
  assert (ipString defaultHub) as Hhub by reflexivity.
  assert (everyTuple wfConn ([Update (viewport 800 600) scenarioA]
                             ++ [Update (viewport 800 600) twoTargets])) as Hall
    by (repeat constructor).
  assert (443%N ∈ uniquePorts (dropLoopback twoTargets)) as Hq.
  { apply (bool_decide_unpack _). vm_compute. exact I. }
  split; [exact Hhub|]. split; [exact Hall|]. split; [exact Hq|].
  exact (proj2 (one_hub_link_per_port defaultHub _ _ _ None Hhub Hall) 443%N Hq).
Defined.

(** X18: the two versions of the card agree on the first update.  On a
    snapshot of addresses, with a hub id that is an address, the earlier
    card and the current card build the same links from a fresh card, and
    the same nodes, on which the earlier card then restores the stored
    positions. *)
Theorem first_update_versions_agree hubId (w : Window) (S : list Conn.t) stored :
  ipString hubId → Forall wfConn S →
  _links (Rebuild._deltaUpdate hubId w S (constructor stored))
  = _links (Delta._deltaUpdate hubId w S (constructor stored))
  ∧ _nodesMap (Rebuild._deltaUpdate hubId w S (constructor stored))
    = match stored with
      | Some saved =>
          restoreInto saved
            (_nodesMap (Delta._deltaUpdate hubId w S (constructor stored)))
      | None => _nodesMap (Delta._deltaUpdate hubId w S (constructor stored))
      end.
Proof.
  intros Hhub Hwf.
  assert (_links (Rebuild._deltaUpdate hubId w S (constructor stored))
          = _links (Delta._deltaUpdate hubId w S (constructor stored))) as Hlinks.
  { rewrite (first_update_links hubId Hhub w S stored Hwf).
    unfold Rebuild._deltaUpdate. rewrite restoreOnce_links.
    unfold Rebuild._syncNodesAndLinks. cbn [_links constructor].
    change (filter _ []) with (@nil Link.t). cbn [app fmap list_fmap].
    apply filter_every. intros x _ Hin. by apply elem_of_nil in Hin. }
  split; [exact Hlinks|].
  rewrite update_nodes, built_fresh, <- Hlinks.
  unfold Rebuild._deltaUpdate, Rebuild.restoreOnce, _restoreNodePositions,
    Rebuild._syncNodesAndLinks.
  cbn [_nodesMap _links _prevConnections _positionsRestored localStorage
       constructor].
  by destruct stored.
Qed.

Lemma first_update_versions_agree_witness :
  ipString defaultHub ∧ Forall wfConn twoTargets
  ∧ _links (Rebuild._deltaUpdate defaultHub (viewport 800 600) twoTargets
              (constructor (Some storedHub)))
    = _links (Delta._deltaUpdate defaultHub (viewport 800 600) twoTargets
                (constructor (Some storedHub))).
Proof.
  assert (ipString defaultHub) as Hhub by reflexivity.
  assert (Forall wfConn twoTargets) as Hwf by (repeat constructor).
  split; [exact Hhub|]. split; [exact Hwf|].
  exact (proj1 (first_update_versions_agree defaultHub (viewport 800 600)
                  twoTargets (Some storedHub) Hhub Hwf)).
Defined.

(** X19: the current card never removes a port.  On a card fed with
    addresses, with a hub id that is an address and that no tuple names as
    its source, a port of any snapshot keeps its hub link and its node
    through all later update cycles, ticks and drags, whatever the later
    snapshots hold. *)
Theorem ports_never_removed hubId (events : list event) (w : Window)
    (S : list Conn.t) (more : list event) stored (q : N) :
  ipString hubId →
  everyTuple (λ conn, wfConn conn ∧ Conn.source conn ≠ hubId)
    (events ++ Update w S :: more) →
  q ∈ uniquePorts (dropLoopback S) →
  Link.mk hubId (portNodeId q)
    ∈ _links (run hubId (events ++ Update w S :: more) (constructor stored))
  ∧ is_Some (_nodesMap (run hubId (events ++ Update w S :: more)
                          (constructor stored)) !! portNodeId q).
Proof.
  intros Hhub Hall Hq.
  assert (Link.mk hubId (portNodeId q)
            ∈ _links (run hubId (events ++ Update w S :: more)
                        (constructor stored))) as Hl.
  { rewrite run_app.
    apply Forall_app in Hall as [Hev Hrest].
    pose proof Hrest as Hrest'. apply Forall_cons in Hrest' as [Hwf Hmore].
    change (run hubId (Update w S :: more) (run hubId events (constructor stored)))
      with (run hubId more
              (step hubId (run hubId events (constructor stored)) (Update w S))).
    apply hub_link_kept_run; [done..| |].
    - cbn [step withNodes _prevConnections]. rewrite update_prev. intros r Hr.
      apply dropLoopback_sound in Hr as [Hr _].
      by apply (proj1 (Forall_forall _ _) Hwf).
    - cbn [step withNodes _links]. apply update_hub_link; [done| | |done].
      + apply (Forall_impl _ _ _ Hwf). by intros conn [? _].
      + apply graphOk_run; [done| |by apply graphOk_fresh].
        apply (everyTuple_impl _ _ _ (λ conn H, proj1 H) Hev). }
  split; [exact Hl|].
  apply (linksHaveNodes_run hubId (events ++ Update w S :: more)
           (constructor stored)) in Hl as [_ Ht]; [done|].
  intros l' Hl'. by apply elem_of_nil in Hl'.
Qed.

Lemma ports_never_removed_witness :
  ipString defaultHub
  ∧ 443%N ∈ uniquePorts (dropLoopback scenarioA)
  ∧ Link.mk defaultHub (portNodeId 443)
      ∈ _links (run defaultHub
                  ([] ++ Update (viewport 800 600) scenarioA
                      :: [Update (viewport 800 600) []; DragStart defaultHub;
                          Update (viewport 800 600) [portEighty]])
                  (constructor None)).
Proof.
  assert (ipString defaultHub) as Hhub by reflexivity.
  assert (443%N ∈ uniquePorts (dropLoopback scenarioA)) as Hq.
  { apply (bool_decide_unpack _). vm_compute. exact I. }
  assert (everyTuple (λ conn, wfConn conn ∧ Conn.source conn ≠ defaultHub)
            ([] ++ Update (viewport 800 600) scenarioA
                :: [Update (viewport 800 600) []; DragStart defaultHub;
                    Update (viewport 800 600) [portEighty]])) as Hall.
  { repeat constructor; discriminate. }
  split; [exact Hhub|]. split; [exact Hq|].
  exact (proj1 (ports_never_removed defaultHub [] (viewport 800 600) scenarioA
                  _ None 443 Hhub Hall Hq)).
Defined.

(** ** Further properties of the earlier card and of the store key *)

Lemma Rebuild_linksHaveNodes_update hubId w S c :
  linksHaveNodes c → linksHaveNodes (Rebuild._deltaUpdate hubId w S c).
Proof.
  intros Hinv l Hl. unfold Rebuild._deltaUpdate in *.
  rewrite restoreOnce_links in Hl.
  rewrite <- !elem_of_dom, restoreOnce_dom, !elem_of_dom.
  unfold Rebuild._syncNodesAndLinks in *. cbn [_links _nodesMap] in *.
  set (nodes0 := placePorts w 0 (uniquePorts (dropLoopback S))
                   (ensureHub hubId w (_nodesMap c))) in *.
  destruct (connects_links w (dropLoopback S) (nodes0, [], 0))
    as (new & Hnew & Hip).
  set (r := foldl (connect w) (nodes0, [], 0) (dropLoopback S)) in *.
  simpl in Hnew. rewrite Hnew in Hl.
  assert (∀ k n, _nodesMap c !! k = Some n → r.1.1 !! k = Some n) as Hpre.
  { intros k n Hk. apply connects_preserve. simpl.
    by apply placePorts_preserve, ensureHub_preserve. }
  assert (∀ q, q ∈ uniquePorts (dropLoopback S) →
               is_Some (r.1.1 !! portNodeId q)) as Hports.
  { intros q Hq.
    destruct (placePorts_is_Some w (uniquePorts (dropLoopback S)) 0
                (ensureHub hubId w (_nodesMap c)) q Hq) as [n Hn].
    exists n. by apply connects_preserve. }
  assert (is_Some (r.1.1 !! Link.source l) ∧ is_Some (r.1.1 !! Link.target l))
    as [[ns Hs] [nt Ht]].
  { assert (∀ nl, nl ∈ new ++ (Link.mk hubId ∘ portNodeId
                                 <$> uniquePorts (dropLoopback S)) →
                  is_Some (r.1.1 !! Link.source nl)
                  ∧ is_Some (r.1.1 !! Link.target nl)) as Hnl.
    { intros nl Hin. apply elem_of_app in Hin as [Hin|Hin].
      - destruct (Hip nl Hin) as (conn & Hc & Hor).
        assert (is_Some (r.1.1 !! portNodeId (Conn.port conn))) as Hp.
        { apply Hports, uniquePorts_elem. by exists conn. }
        destruct Hor as [[-> Hi]|[-> Hi]]; cbn [Link.source Link.target].
        + split; [|done].
          destruct (r.1.1 !! Conn.source conn); [done|discriminate].
        + split; [done|].
          destruct (r.1.1 !! Conn.target conn); [done|discriminate].
      - apply list_elem_of_fmap in Hin as (q & -> & Hq).
        cbn [Link.source Link.target compose]. split; [|by apply Hports].
        eexists. apply connects_preserve. simpl.
        apply placePorts_preserve. apply ensureHub_hub. }
    apply elem_of_app in Hl as [Hl|Hl].
    - apply list_elem_of_filter in Hl as [_ Hl].
      destruct (Hinv l Hl) as [[ns Hs] [nt Ht]]. split; eexists; by apply Hpre.
    - apply list_elem_of_filter in Hl as [_ Hl]. by apply Hnl. }
  rewrite Hnew.
  split; eexists; apply prune_lookup; (split; [done|]);
    apply usedNodeIds_spec; right; exists l; (split; [done|]); auto.
Qed.

(** X20: in the earlier card too, after any number of update cycles on a
    fresh card, both endpoints of every link have a node in the node map. *)
Theorem Rebuild_links_resolve hubId (cycles : list (Window * list Conn.t))
    stored (l : Link.t) :
  l ∈ _links (Rebuild.updates hubId cycles (constructor stored)) →
  is_Some (_nodesMap (Rebuild.updates hubId cycles (constructor stored))
             !! Link.source l)
  ∧ is_Some (_nodesMap (Rebuild.updates hubId cycles (constructor stored))
               !! Link.target l).
Proof.
  assert (∀ c, linksHaveNodes c →
               linksHaveNodes (Rebuild.updates hubId cycles c)) as Hrun.
  { induction cycles as [|[w S] cycles IH]; intros c Hc; [done|].
    apply (IH (Rebuild._deltaUpdate hubId w S c)).
    by apply Rebuild_linksHaveNodes_update. }
  apply (Hrun (constructor stored)).
  intros l' Hl'. by apply elem_of_nil in Hl'.
Qed.

Lemma Rebuild_links_resolve_witness :
  Link.mk "10.0.0.2" (portNodeId 80)
    ∈ _links (Rebuild.updates defaultHub
                [(viewport 800 600, scenarioA); (viewport 800 600, [portEighty])]
                (constructor None))
  ∧ is_Some (_nodesMap (Rebuild.updates defaultHub
                          [(viewport 800 600, scenarioA);
                           (viewport 800 600, [portEighty])]
                          (constructor None)) !! portNodeId 80).
Proof.
  assert (Link.mk "10.0.0.2" (portNodeId 80)
            ∈ _links (Rebuild.updates defaultHub
                        [(viewport 800 600, scenarioA);
                         (viewport 800 600, [portEighty])]
                        (constructor None))) as Hl.
  { apply (bool_decide_unpack _). vm_compute. exact I. }
  split; [exact Hl|].
  exact (proj2 (Rebuild_links_resolve defaultHub _ None _ Hl)).
Defined.

(** X21: the key of the store tells the entities apart: two cards share
    their stored positions exactly when they are configured with the same
    entity, and the key of [sensor.my_network_connections] is the one that
    the README names. *)
Theorem storageKey_by_entity (entity entity' : string) :
  (storageKey entity = storageKey entity' ↔ entity = entity')
  ∧ storageKey "sensor.my_network_connections"
    = "networkPositions_sensor.my_network_connections".
Proof.
  split; [|done]. split; [|by intros ->].
  unfold storageKey. apply string_app_inj.
Qed.
